(** * Dense and sparse solvers of [engine_util_solve.c]

    A shallow embedding of the factorisation, update, eigenvalue and QCQP
    routines of [src/engine/engine_util_solve.c], and the properties of
    them that the specification states.

    - [mjtNum] is a typedef of an absent header (binary64 by default).  The
      routines are embedded over a numeric carrier [Num]; [Float64] is the
      IEEE binary64 instance on which the embedding runs, [Exact] the
      instance over the real numbers used for statements about exact
      arithmetic.
    - C [int]s are [Z]; an index expression is assumed to stay inside the
      [int] range, as it does for every buffer the routines can be handed.
    - A buffer is a [list]; [rd] and [wr] read and write one cell, [ptr]
      is pointer arithmetic ([mat + off] is the view of [mat] from cell
      [off] on).
    - [mju_error] does not return to its caller: a routine that reaches it
      ends in [Fatal] with the state of the buffers at that point. *)

From Stdlib Require Import ZArith List Lia Bool String Floats Reals Lra.
From stdpp Require Import base list.

Set Warnings "-inexact-float".
Local Open Scope Z_scope.

(** * The routines *)

(* ================================================================= *)
(** ** The numeric carrier *)

(** The operations the routines use on [mjtNum], the literals that occur
    in the source, and the two facts about comparison the proofs below
    rest on; both hold of IEEE binary64 (NaN included) and of the real
    numbers. *)
Class Num : Type := {
  num : Type;
  nzero : num;
  n_one : num;
  ntwo : num;
  nfour : num;
  nhalf : num;
  (** the literal [1e-10] of the QCQP routines *)
  eps10 : num;
  (** [static const mjtNum eigEPS = 1E-12] *)
  eigEPS : num;
  (** the literal [0.707106781186548] of [mju_eig3] *)
  cos_pi4 : num;
  (** [mjMINVAL], a macro of the absent [mjmodel.h] *)
  mjMINVAL : num;
  nadd : num -> num -> num;
  nsub : num -> num -> num;
  nmul : num -> num -> num;
  ndiv : num -> num -> num;
  nopp : num -> num;
  mju_sqrt : num -> num;
  mju_abs : num -> num;
  nltb : num -> num -> bool;
  nleb : num -> num -> bool;
  neqb : num -> num -> bool;
  neqb_zero : neqb nzero nzero = true;
  nltb_asym : forall a b, nltb a b = true -> nltb b a = false
}.

Declare Scope num_scope.
Delimit Scope num_scope with num.
Bind Scope num_scope with num.
Infix "+" := nadd : num_scope.
Infix "-" := nsub : num_scope.
Infix "*" := nmul : num_scope.
Infix "/" := ndiv : num_scope.
Notation "- x" := (nopp x) : num_scope.
Infix "<?" := nltb : num_scope.
Infix "<=?" := nleb : num_scope.

(** C truth value of an [mjtNum]: [if (x)] is [x != 0]. *)
Definition nonzero {N : Num} (x : num) : bool := negb (neqb x nzero).

#[global] Instance num_inhabited {N : Num} : Inhabited num := populate nzero.

(* ----------------------------------------------------------------- *)
(** *** IEEE binary64 *)

Module F64.

Lemma SFcompare_Lt_flip (x y : spec_float) :
  SFcompare x y = Some Lt -> SFcompare y x = Some Gt.
Proof.
  destruct x as [sx|sx| |sx mx ex], y as [sy|sy| |sy my ey]; simpl;
    try discriminate;
    try (destruct sx; simpl; congruence);
    try (destruct sy; simpl; congruence);
    try (destruct sx, sy; simpl; congruence).
  destruct sx, sy; simpl; try congruence;
    rewrite (Z.compare_antisym ex ey);
    destruct (ex ?= ey); simpl; try congruence;
    change (PosDef.Pos.compare_cont Eq my mx) with (Pos.compare_cont Eq my mx);
    change (PosDef.Pos.compare_cont Eq mx my) with (Pos.compare_cont Eq mx my);
    rewrite (ZC4 my mx);
    destruct (Pos.compare_cont Eq mx my); simpl; congruence.
Qed.

Lemma f64_ltb_asym (a b : float) :
  PrimFloat.ltb a b = true -> PrimFloat.ltb b a = false.
Proof.
  rewrite !ltb_spec. unfold SFltb. intros H.
  destruct (SFcompare (Prim2SF a) (Prim2SF b)) as [[]|] eqn:E;
    try discriminate.
  now rewrite (SFcompare_Lt_flip _ _ E).
Qed.

End F64.

(** [mjtNum] as IEEE binary64.  Modelled from the spec: [mjMINVAL], "a
    fixed numerical floor", is taken as [1e-15]. *)
#[export] Instance Float64 : Num := {|
  num := float;
  nzero := 0%float;
  n_one := 1%float;
  ntwo := 2%float;
  nfour := 4%float;
  nhalf := 0.5%float;
  eps10 := 1e-10%float;
  eigEPS := 1e-12%float;
  cos_pi4 := 0.707106781186548%float;
  mjMINVAL := 1e-15%float;
  nadd := PrimFloat.add;
  nsub := PrimFloat.sub;
  nmul := PrimFloat.mul;
  ndiv := PrimFloat.div;
  nopp := PrimFloat.opp;
  mju_sqrt := PrimFloat.sqrt;
  mju_abs := PrimFloat.abs;
  nltb := PrimFloat.ltb;
  nleb := PrimFloat.leb;
  neqb := PrimFloat.eqb;
  neqb_zero := eq_refl;
  nltb_asym := F64.f64_ltb_asym
|}.

(* ----------------------------------------------------------------- *)
(** *** Exact arithmetic *)

Module Rnum.

Definition ltb (a b : R) : bool := if Rlt_dec a b then true else false.
Definition leb (a b : R) : bool := if Rle_dec a b then true else false.
Definition eqb (a b : R) : bool := if Req_dec_T a b then true else false.

Lemma r_eqb_zero : eqb 0%R 0%R = true.
Proof. unfold eqb. now destruct (Req_dec_T 0 0). Qed.

Lemma r_ltb_asym (a b : R) : ltb a b = true -> ltb b a = false.
Proof.
  unfold ltb. destruct (Rlt_dec a b), (Rlt_dec b a); try easy. lra.
Qed.

End Rnum.

(** [mjtNum] as the real numbers, with the same literals. *)
Definition Exact : Num := {|
  num := R;
  nzero := 0%R;
  n_one := 1%R;
  ntwo := 2%R;
  nfour := 4%R;
  nhalf := (/ 2)%R;
  eps10 := (/ 10 ^ 10)%R;
  eigEPS := (/ 10 ^ 12)%R;
  cos_pi4 := (707106781186548 / 10 ^ 15)%R;
  mjMINVAL := (/ 10 ^ 15)%R;
  nadd := Rplus;
  nsub := Rminus;
  nmul := Rmult;
  ndiv := Rdiv;
  nopp := Ropp;
  mju_sqrt := sqrt;
  mju_abs := Rabs;
  nltb := Rnum.ltb;
  nleb := Rnum.leb;
  neqb := Rnum.eqb;
  neqb_zero := Rnum.r_eqb_zero;
  nltb_asym := Rnum.r_ltb_asym
|}.

(* ================================================================= *)
(** ** Buffers and loops *)

(** [l[i]]; a read outside the buffer, undefined in C, yields the default. *)
Definition rd {A} `{Inhabited A} (l : list A) (i : Z) : A :=
  if decide (0 <= i) then l !!! Z.to_nat i else inhabitant.

(** [l[i] = v]; a write outside the buffer, undefined in C, is dropped. *)
Definition wr {A} (l : list A) (i : Z) (v : A) : list A :=
  if decide (0 <= i) then <[Z.to_nat i := v]> l else l.

(** [l + off] *)
Definition ptr {A} (l : list A) (off : Z) : list A := drop (Z.to_nat off) l.

(** [k] iterations of [body], the counter going up from [i]. *)
Fixpoint for_up {St} (k : nat) (i : Z) (body : Z -> St -> St) (s : St) : St :=
  match k with
  | O => s
  | S k' => for_up k' (i + 1) body (body i s)
  end.

(** [for (int i = lo; i < hi; i++) body] *)
Definition for_range {St} (lo hi : Z) (body : Z -> St -> St) (s : St) : St :=
  for_up (Z.to_nat (hi - lo)) lo body s.

(** [k] iterations of [body], the counter going down from [i]. *)
Fixpoint for_down {St} (k : nat) (i : Z) (body : Z -> St -> St) (s : St)
    : St :=
  match k with
  | O => s
  | S k' => for_down k' (i - 1) body (body i s)
  end.

(* ================================================================= *)
(** ** Dense Cholesky *)

Section Dense.
Context {N : Num}.

(** [mju_dot(a, b, n)] of the absent [engine_util_blas.c]: the routines
    are embedded over any implementation of it. *)
Variable mju_dot : list num -> list num -> Z -> num.

(** The new diagonal of column [j]: [mat[j*(n+1)]], minus the dot product
    of the row prefix when [j] is not 0. *)
Definition cholFactor_pivot (n j : Z) (mat : list num) : num :=
  let tmp := rd mat (j * (n + 1)) in
  if j =? 0 then tmp
  else (tmp - mju_dot (ptr mat (j * n)) (ptr mat (j * n)) j)%num.

(** [mat[i*n+j] = (mat[i*n+j] - mju_dot(mat+i*n, mat+j*n, j)) * tmp] *)
Definition cholFactor_offdiag (n j : Z) (tmp : num) (i : Z)
    (mat : list num) : list num :=
  wr mat (i * n + j)
     ((rd mat (i * n + j)
       - mju_dot (ptr mat (i * n)) (ptr mat (j * n)) j) * tmp)%num.

(** The body of the loop over the columns [j]. *)
Definition cholFactor_body (n : Z) (mindiag : num) (j : Z)
    (st : list num * Z) : list num * Z :=
  let '(mat, rank) := st in
  let tmp := cholFactor_pivot n j mat in
  let '(tmp, rank) :=
    if (tmp <? mindiag)%num then (mindiag, rank - 1) else (tmp, rank) in
  let mat := wr mat (j * (n + 1)) (mju_sqrt tmp) in
  let tmp := (n_one / rd mat (j * (n + 1)))%num in
  let mat := for_range (j + 1) n (cholFactor_offdiag n j tmp) mat in
  (mat, rank).

(** The buffer and the rank after the first [k] columns. *)
Definition cholFactor_cols (mat : list num) (n : Z) (mindiag : num)
    (k : nat) : list num * Z :=
  for_up k 0 (cholFactor_body n mindiag) (mat, n).

(** [int mju_cholFactor(mjtNum* mat, int n, mjtNum mindiag)]: the factor
    left in [mat], and the rank returned.  The routine has no call of the
    error channel. *)
Definition mju_cholFactor (mat : list num) (n : Z) (mindiag : num)
    : list num * Z :=
  for_range 0 n (cholFactor_body n mindiag) (mat, n).

(** Column [j]'s pivot, as the loop meets it. *)
Definition pivot_of (mat : list num) (n : Z) (mindiag : num) (j : nat)
    : num :=
  cholFactor_pivot n (Z.of_nat j) (fst (cholFactor_cols mat n mindiag j)).

(** Column [j]'s pivot is below [mindiag]. *)
Definition clamped (mat : list num) (n : Z) (mindiag : num) (j : nat)
    : bool :=
  (pivot_of mat n mindiag j <? mindiag)%num.

(** The number of clamped pivots among the first [k] columns. *)
Definition clamped_count (mat : list num) (n : Z) (mindiag : num)
    (k : nat) : Z :=
  Z.of_nat (length (List.filter (clamped mat n mindiag) (seq 0 k))).

End Dense.

(** Modelled from the spec: the dot product [mju_dot] of the absent
    [engine_util_blas.c], as the sum of the products taken left to right. *)
Definition dot_seq {N : Num} (a b : list num) (n : Z) : num :=
  for_range 0 n (fun i acc => (acc + rd a i * rd b i)%num) nzero.

(* ================================================================= *)
(** ** Vector helpers of the absent [engine_util_blas.c] *)

(** Modelled from the spec: [mju_copy(res, vec, n)] of the absent
    [engine_util_blas.c] copies the first [n] cells of [vec] into [res]. *)
Definition mju_copy {N : Num} (res vec : list num) (n : Z) : list num :=
  for_range 0 n (fun i acc => wr acc i (rd vec i)) res.

(** Modelled from the spec: [mju_zero(res, n)] of the absent
    [engine_util_blas.c] writes zero into the first [n] cells of [res]
    (the "zero result" of the QCQP routines). *)
Definition mju_zero {N : Num} (res : list num) (n : Z) : list num :=
  for_range 0 n (fun i acc => wr acc i nzero) res.

(** Modelled from the spec: [mju_scl(res, vec, scl, n)] of the absent
    [engine_util_blas.c] sets [res[i] = vec[i]*scl] for the first [n]
    cells. *)
Definition mju_scl {N : Num} (res vec : list num) (scl : num) (n : Z)
    : list num :=
  for_range 0 n (fun i acc => wr acc i (rd vec i * scl)%num) res.

(* ================================================================= *)
(** ** Dense Cholesky solve *)

Section DenseSolve.
Context {N : Num}.
Variable mju_dot : list num -> list num -> Z -> num.

(** Forward substitution, row [i]. *)
Definition cholSolve_fwd (mat : list num) (n i : Z) (res : list num)
    : list num :=
  let res :=
    if i =? 0 then res
    else wr res i (rd res i - mju_dot (ptr mat (i * n)) res i)%num in
  wr res i (rd res i / rd mat (i * (n + 1)))%num.

(** Backward substitution, row [i]. *)
Definition cholSolve_bwd (mat : list num) (n i : Z) (res : list num)
    : list num :=
  let res :=
    if i <? n - 1 then
      for_range (i + 1) n
        (fun j acc => wr acc i (rd acc i - rd mat (j * n + i) * rd acc j)%num)
        res
    else res in
  wr res i (rd res i / rd mat (i * (n + 1)))%num.

(** [void mju_cholSolve(mjtNum* res, const mjtNum* mat, const mjtNum* vec,
    int n)]; [vec] is [None] when the caller passes [res] itself as
    [vec]. *)
Definition mju_cholSolve (res mat : list num) (vec : option (list num))
    (n : Z) : list num :=
  let res := match vec with Some v => mju_copy res v n | None => res end in
  let res := for_range 0 n (cholSolve_fwd mat n) res in
  for_down (Z.to_nat n) (n - 1) (cholSolve_bwd mat n) res.

End DenseSolve.

(* ================================================================= *)
(** ** QCQP *)

(** One pass through the body of a loop that can [break] or [return]. *)
Inductive iter_result (St R : Type) : Type :=
| Continue (s : St)
| Break (s : St)
| Return (r : R).
Arguments Continue {St R} s.
Arguments Break {St R} s.
Arguments Return {St R} r.

(** At most [k] passes: the state the loop is left in, or what the body
    returned. *)
Fixpoint iterate {St R} (k : nat) (body : St -> iter_result St R) (s : St)
    : St + R :=
  match k with
  | O => inl s
  | S k' =>
      match body s with
      | Continue s' => iterate k' body s'
      | Break s' => inl s'
      | Return r => inr r
      end
  end.

(** The state at the head of pass [k], when the loop gets there. *)
Fixpoint iter_head {St R} (k : nat) (body : St -> iter_result St R) (s : St)
    : option St :=
  match k with
  | O => Some s
  | S k' =>
      match body s with
      | Continue s' => iter_head k' body s'
      | _ => None
      end
  end.

(** What a QCQP routine does: it returns with [res] written and a flag,
    it stops in [mju_error], or it reads a local that was never
    assigned. *)
Inductive qcqp_result {N : Num} : Type :=
| QRet (res : list num) (flag : Z)
| QFatal (msg : string)
| QUninit.

Section QCQP.
Context {N : Num}.
Variable mju_dot : list num -> list num -> Z -> num.

Local Open Scope num_scope.

(** The locals of [mju_QCQP2] that live across iterations; [v1] and [v2]
    are declared without initialiser. *)
Record qcqp2_state : Type := {
  q2_la : num;
  q2_v1 : option num;
  q2_v2 : option num
}.

(** The scaled problem of [mju_QCQP2]. *)
Record qcqp2_problem : Type := {
  q2_A11 : num; q2_A22 : num; q2_A12 : num;
  q2_b1 : num; q2_b2 : num
}.

Definition QCQP2_scale (Ain bin d : list num) : qcqp2_problem :=
  {| q2_b1 := rd bin 0 * rd d 0;
     q2_b2 := rd bin 1 * rd d 1;
     q2_A11 := rd Ain 0 * rd d 0 * rd d 0;
     q2_A22 := rd Ain 3 * rd d 1 * rd d 1;
     q2_A12 := rd Ain 1 * rd d 0 * rd d 1 |}.

(** [det(A+la)] *)
Definition QCQP2_det (p : qcqp2_problem) (la : num) : num :=
  (q2_A11 p + la) * (q2_A22 p + la) - q2_A12 p * q2_A12 p.

(** [v = -inv(A+la)*b] *)
Definition QCQP2_v (p : qcqp2_problem) (la : num) : num * num :=
  let detinv := n_one / QCQP2_det p la in
  let P11 := (q2_A22 p + la) * detinv in
  let P22 := (q2_A11 p + la) * detinv in
  let P12 := - q2_A12 p * detinv in
  (- P11 * q2_b1 p - P12 * q2_b2 p, - P12 * q2_b1 p - P22 * q2_b2 p).

(** The body of the Newton loop of [mju_QCQP2]. *)
Definition QCQP2_body (res : list num) (p : qcqp2_problem) (r : num)
    (s : qcqp2_state) : iter_result qcqp2_state qcqp_result :=
  let la := q2_la s in
  let det := QCQP2_det p la in
  if det <? eps10 then Return (QRet (wr (wr res 0 nzero) 1 nzero) 0)
  else
    let detinv := n_one / det in
    let P11 := (q2_A22 p + la) * detinv in
    let P22 := (q2_A11 p + la) * detinv in
    let P12 := - q2_A12 p * detinv in
    let v1 := - P11 * q2_b1 p - P12 * q2_b2 p in
    let v2 := - P12 * q2_b1 p - P22 * q2_b2 p in
    let val := v1 * v1 + v2 * v2 - r * r in
    let s := {| q2_la := la; q2_v1 := Some v1; q2_v2 := Some v2 |} in
    if val <? eps10 then Break s
    else
      let deriv :=
        - ntwo * (P11 * v1 * v1 + ntwo * P12 * v1 * v2 + P22 * v2 * v2) in
      let delta := - val / deriv in
      if delta <? eps10 then Break s
      else Continue {| q2_la := la + delta;
                       q2_v1 := Some v1; q2_v2 := Some v2 |}.

(** The code after the loop: undo the scaling, return [la != 0]. *)
Definition QCQP2_finish (res d : list num) (s : qcqp2_state) : qcqp_result :=
  match q2_v1 s, q2_v2 s with
  | Some v1, Some v2 =>
      QRet (wr (wr res 0 (v1 * rd d 0)) 1 (v2 * rd d 1))
           (if nonzero (q2_la s) then 1 else 0)%Z
  | _, _ => QUninit
  end.

Definition QCQP2_init : qcqp2_state :=
  {| q2_la := nzero; q2_v1 := None; q2_v2 := None |}.

(** [int mju_QCQP2(mjtNum* res, const mjtNum* Ain, const mjtNum* bin,
    const mjtNum* d, mjtNum r)] *)
Definition mju_QCQP2 (res Ain bin d : list num) (r : num) : qcqp_result :=
  let p := QCQP2_scale Ain bin d in
  match iterate 20 (QCQP2_body res p r) QCQP2_init with
  | inr out => out
  | inl s => QCQP2_finish res d s
  end.

(** The locals of [mju_QCQP3] that live across iterations; [v1], [v2]
    and [v3] are declared without initialiser. *)
Record qcqp3_state : Type := {
  q3_la : num;
  q3_v1 : option num;
  q3_v2 : option num;
  q3_v3 : option num
}.

(** The scaled problem of [mju_QCQP3]. *)
Record qcqp3_problem : Type := {
  q3_A11 : num; q3_A22 : num; q3_A33 : num;
  q3_A12 : num; q3_A13 : num; q3_A23 : num;
  q3_b1 : num; q3_b2 : num; q3_b3 : num
}.

Definition QCQP3_scale (Ain bin d : list num) : qcqp3_problem :=
  {| q3_b1 := rd bin 0 * rd d 0;
     q3_b2 := rd bin 1 * rd d 1;
     q3_b3 := rd bin 2 * rd d 2;
     q3_A11 := rd Ain 0 * rd d 0 * rd d 0;
     q3_A22 := rd Ain 4 * rd d 1 * rd d 1;
     q3_A33 := rd Ain 8 * rd d 2 * rd d 2;
     q3_A12 := rd Ain 1 * rd d 0 * rd d 1;
     q3_A13 := rd Ain 2 * rd d 0 * rd d 2;
     q3_A23 := rd Ain 5 * rd d 1 * rd d 2 |}.

(** The cofactors [P11, P22, P33, P12, P13, P23] of [A+la] ("unscaled
    P"). *)
Definition QCQP3_cof (p : qcqp3_problem) (la : num)
    : num * num * num * num * num * num :=
  ((q3_A22 p + la) * (q3_A33 p + la) - q3_A23 p * q3_A23 p,
   (q3_A11 p + la) * (q3_A33 p + la) - q3_A13 p * q3_A13 p,
   (q3_A11 p + la) * (q3_A22 p + la) - q3_A12 p * q3_A12 p,
   q3_A13 p * q3_A23 p - q3_A12 p * (q3_A33 p + la),
   q3_A12 p * q3_A23 p - q3_A13 p * (q3_A22 p + la),
   q3_A12 p * q3_A13 p - q3_A23 p * (q3_A11 p + la)).

(** [det(A+la)] *)
Definition QCQP3_det (p : qcqp3_problem) (la : num) : num :=
  let '(P11, _, _, P12, P13, _) := QCQP3_cof p la in
  (q3_A11 p + la) * P11 + q3_A12 p * P12 + q3_A13 p * P13.

(** [v = -inv(A+la)*b] *)
Definition QCQP3_v (p : qcqp3_problem) (la : num) : num * num * num :=
  let '(P11, P22, P33, P12, P13, P23) := QCQP3_cof p la in
  let detinv := n_one / QCQP3_det p la in
  let P11 := P11 * detinv in
  let P22 := P22 * detinv in
  let P33 := P33 * detinv in
  let P12 := P12 * detinv in
  let P13 := P13 * detinv in
  let P23 := P23 * detinv in
  (- P11 * q3_b1 p - P12 * q3_b2 p - P13 * q3_b3 p,
   - P12 * q3_b1 p - P22 * q3_b2 p - P23 * q3_b3 p,
   - P13 * q3_b1 p - P23 * q3_b2 p - P33 * q3_b3 p).

(** The body of the Newton loop of [mju_QCQP3]. *)
Definition QCQP3_body (res : list num) (p : qcqp3_problem) (r : num)
    (s : qcqp3_state) : iter_result qcqp3_state qcqp_result :=
  let la := q3_la s in
  let '(P11, P22, P33, P12, P13, P23) := QCQP3_cof p la in
  let det := (q3_A11 p + la) * P11 + q3_A12 p * P12 + q3_A13 p * P13 in
  if det <? eps10
  then Return (QRet (wr (wr (wr res 0 nzero) 1 nzero) 2 nzero) 0)
  else
    let detinv := n_one / det in
    let P11 := P11 * detinv in
    let P22 := P22 * detinv in
    let P33 := P33 * detinv in
    let P12 := P12 * detinv in
    let P13 := P13 * detinv in
    let P23 := P23 * detinv in
    let v1 := - P11 * q3_b1 p - P12 * q3_b2 p - P13 * q3_b3 p in
    let v2 := - P12 * q3_b1 p - P22 * q3_b2 p - P23 * q3_b3 p in
    let v3 := - P13 * q3_b1 p - P23 * q3_b2 p - P33 * q3_b3 p in
    let val := v1 * v1 + v2 * v2 + v3 * v3 - r * r in
    let s := {| q3_la := la;
                q3_v1 := Some v1; q3_v2 := Some v2; q3_v3 := Some v3 |} in
    if val <? eps10 then Break s
    else
      let deriv :=
        - ntwo * (P11 * v1 * v1 + P22 * v2 * v2 + P33 * v3 * v3)
        - nfour * (P12 * v1 * v2 + P13 * v1 * v3 + P23 * v2 * v3) in
      let delta := - val / deriv in
      if delta <? eps10 then Break s
      else Continue {| q3_la := la + delta;
                       q3_v1 := Some v1; q3_v2 := Some v2;
                       q3_v3 := Some v3 |}.

(** The code after the loop: undo the scaling, return [la != 0]. *)
Definition QCQP3_finish (res d : list num) (s : qcqp3_state) : qcqp_result :=
  match q3_v1 s, q3_v2 s, q3_v3 s with
  | Some v1, Some v2, Some v3 =>
      QRet (wr (wr (wr res 0 (v1 * rd d 0)) 1 (v2 * rd d 1)) 2 (v3 * rd d 2))
           (if nonzero (q3_la s) then 1 else 0)%Z
  | _, _, _ => QUninit
  end.

Definition QCQP3_init : qcqp3_state :=
  {| q3_la := nzero; q3_v1 := None; q3_v2 := None; q3_v3 := None |}.

(** [int mju_QCQP3(mjtNum* res, const mjtNum* Ain, const mjtNum* bin,
    const mjtNum* d, mjtNum r)] *)
Definition mju_QCQP3 (res Ain bin d : list num) (r : num) : qcqp_result :=
  let p := QCQP3_scale Ain bin d in
  match iterate 20 (QCQP3_body res p r) QCQP3_init with
  | inr out => out
  | inl s => QCQP3_finish res d s
  end.

(** The buffers of [mju_QCQP] that live across iterations: [la], the
    caller's [res], and the local arrays [Ala] and [tmp]. *)
Record qcqp_state : Type := {
  qn_la : num;
  qn_res : list num;
  qn_Ala : list num;
  qn_tmp : list num
}.

(** The scaling loop of [mju_QCQP]: the local arrays [A[25]] and [b[5]].
    A cell the loop does not write is never read for [n <= 5]; it is
    given the value zero here. *)
Definition QCQP_scale (Ain bin d : list num) (n : Z)
    : list num * list num :=
  for_range 0 n
    (fun i '(A, b) =>
       let b := wr b i (rd bin i * rd d i) in
       let A :=
         for_range 0 n
           (fun j A => wr A (j + i * n)%Z
                          (rd Ain (j + i * n)%Z * rd d i * rd d j)) A in
       (A, b))
    (replicate 25 nzero, replicate 5 nzero).

(** "make A+la" *)
Definition QCQP_Ala (A Ala : list num) (la : num) (n : Z) : list num :=
  let Ala := mju_copy Ala A (n * n)%Z in
  for_range 0 n
    (fun i Ala => wr Ala (i * (n + 1))%Z (rd Ala (i * (n + 1))%Z + la)) Ala.

(** The body of the Newton loop of [mju_QCQP]. *)
Definition QCQP_body (A b : list num) (r : num) (n : Z) (s : qcqp_state)
    : iter_result qcqp_state qcqp_result :=
  let la := qn_la s in
  let Ala := QCQP_Ala A (qn_Ala s) la n in
  let '(Ala, rank) := mju_cholFactor mju_dot Ala n eps10 in
  if (rank <? n)%Z then Return (QRet (mju_zero (qn_res s) n) 0)
  else
    let res := mju_cholSolve mju_dot (qn_res s) Ala (Some b) n in
    let res := mju_scl res res (- n_one) n in
    let val := mju_dot res res n - r * r in
    if val <? eps10
    then Break {| qn_la := la; qn_res := res; qn_Ala := Ala;
                  qn_tmp := qn_tmp s |}
    else
      let tmp := mju_cholSolve mju_dot (qn_tmp s) Ala (Some res) n in
      let deriv := - ntwo * mju_dot res tmp n in
      let delta := - val / deriv in
      if delta <? eps10
      then Break {| qn_la := la; qn_res := res; qn_Ala := Ala;
                    qn_tmp := tmp |}
      else Continue {| qn_la := la + delta; qn_res := res; qn_Ala := Ala;
                       qn_tmp := tmp |}.

Definition QCQP_init (res : list num) : qcqp_state :=
  {| qn_la := nzero; qn_res := res;
     qn_Ala := replicate 25 nzero; qn_tmp := replicate 5 nzero |}.

(** The code after the loop: undo the scaling, return [la != 0]. *)
Definition QCQP_finish (d : list num) (n : Z) (s : qcqp_state)
    : qcqp_result :=
  QRet (for_range 0 n (fun i res => wr res i (rd res i * rd d i)) (qn_res s))
       (if nonzero (qn_la s) then 1 else 0)%Z.

(** [int mju_QCQP(mjtNum* res, const mjtNum* Ain, const mjtNum* bin,
    const mjtNum* d, mjtNum r, int n)] *)
Definition mju_QCQP (res Ain bin d : list num) (r : num) (n : Z)
    : qcqp_result :=
  if (5 <? n)%Z then QFatal "mju_QCQP supports n up to 5"
  else
    let '(A, b) := QCQP_scale Ain bin d n in
    match iterate 20 (QCQP_body A b r n) (QCQP_init res) with
    | inr out => out
    | inl s => QCQP_finish d n s
    end.

End QCQP.

(* ================================================================= *)
(** ** Eigenvalues of a symmetric 3x3 matrix *)

(** [dst + off] overwritten by [view], the cells before [off] kept. *)
Definition store {A} (dst : list A) (off : Z) (view : list A) : list A :=
  take (Z.to_nat off) dst ++ view.

Section Eig3.
Context {N : Num}.

(** Helpers of the absent [engine_util_blas.c] and
    [engine_util_spatial.c]; each takes the buffer it writes first and
    gives the buffer back.  The routine is embedded over any
    implementation of them. *)
Variable mju_quat2Mat : list num -> list num -> list num.
Variable mju_mulMatTMat :
  list num -> list num -> list num -> Z -> Z -> Z -> list num.
Variable mju_mulMatMat :
  list num -> list num -> list num -> Z -> Z -> Z -> list num.
Variable mju_normalize4 : list num -> list num.
Variable mju_mulQuat : list num -> list num -> list num -> list num.
Variable mju_copy4 : list num -> list num -> list num.

Local Open Scope num_scope.

(** The buffers of [mju_eig3] that live across iterations. *)
Record eig3_state : Type := {
  e_quat : list num;
  e_eigvec : list num;
  e_eigval : list num;
  e_tmp : list num;
  e_iter : Z
}.

(** "find max off-diagonal element, set indices": [(rk, ck, rotk)] *)
Definition eig3_pick (D : list num) : Z * Z * Z :=
  if (mju_abs (rd D 2) <? mju_abs (rd D 1))
     && (mju_abs (rd D 5) <? mju_abs (rd D 1))
  then (0, 1, 2)%Z
  else if mju_abs (rd D 5) <? mju_abs (rd D 2) then (0, 2, 1)%Z
  else (1, 2, 0)%Z.

(** [mju_mulQuat(tmp+4, quat, tmp); mju_copy4(quat, tmp+4);
    mju_normalize4(quat)] *)
Definition eig3_rotate (quat tmp : list num) : list num * list num :=
  let tmp := store tmp 4 (mju_mulQuat (ptr tmp 4) quat tmp) in
  let quat := mju_copy4 quat (ptr tmp 4) in
  (mju_normalize4 quat, tmp).

(** The body of the Jacobi loop. *)
Definition eig3_body (mat : list num) (s : eig3_state)
    : iter_result eig3_state unit :=
  let eigvec := mju_quat2Mat (e_eigvec s) (e_quat s) in
  let tmp := mju_mulMatTMat (e_tmp s) eigvec mat 3 3 3 in
  let D := mju_mulMatMat (replicate 9 nzero) tmp eigvec 3 3 3 in
  let eigval :=
    wr (wr (wr (e_eigval s) 0 (rd D 0)) 1 (rd D 4)) 2 (rd D 8) in
  let '(rk, ck, rotk) := eig3_pick D in
  if mju_abs (rd D (3 * rk + ck)) <? eigEPS
  then Break {| e_quat := e_quat s; e_eigvec := eigvec; e_eigval := eigval;
                e_tmp := tmp; e_iter := e_iter s |}
  else
    let tau := (rd D (4 * ck) - rd D (4 * rk)) / (ntwo * rd D (3 * rk + ck)) in
    let t :=
      if nzero <=? tau then n_one / (tau + mju_sqrt (n_one + tau * tau))
      else - n_one / (- tau + mju_sqrt (n_one + tau * tau)) in
    let c := n_one / mju_sqrt (n_one + t * t) in
    if n_one - eigEPS <? c
    then Break {| e_quat := e_quat s; e_eigvec := eigvec;
                  e_eigval := eigval; e_tmp := tmp; e_iter := e_iter s |}
    else
      let tmp := wr (wr (wr tmp 3 nzero) 2 nzero) 1 nzero in
      let tmp :=
        wr tmp (rotk + 1)
           (if nzero <=? tau then - mju_sqrt (nhalf - nhalf * c)
            else mju_sqrt (nhalf - nhalf * c)) in
      let tmp :=
        if (rotk =? 1)%Z then wr tmp (rotk + 1) (- rd tmp (rotk + 1))
        else tmp in
      let tmp :=
        wr tmp 0 (mju_sqrt (n_one - rd tmp (rotk + 1) * rd tmp (rotk + 1))) in
      let tmp := mju_normalize4 tmp in
      let '(quat, tmp) := eig3_rotate (e_quat s) tmp in
      Continue {| e_quat := quat; e_eigvec := eigvec; e_eigval := eigval;
                  e_tmp := tmp; e_iter := (e_iter s + 1)%Z |}.

(** The Jacobi loop, from the unit quaternion: the state it is left in
    ([iter] is 500 when the count is exhausted). *)
Definition eig3_jacobi (eigval eigvec quat mat : list num) : eig3_state :=
  let quat := wr quat 0 n_one in
  let quat := wr (wr (wr quat 3 nzero) 2 nzero) 1 nzero in
  let s0 := {| e_quat := quat; e_eigvec := eigvec; e_eigval := eigval;
               e_tmp := replicate 9 nzero; e_iter := 0 |} in
  match iterate 500 (eig3_body mat) s0 with
  | inl s => s
  | inr _ => s0
  end.

(** The body of the sorting loop, [j1 = j%2] the lead index. *)
Definition eig3_sort_step (j : Z) (s : eig3_state) : eig3_state :=
  let j1 := j mod 2 in
  let eigval := e_eigval s in
  if rd eigval j1 <? rd eigval (j1 + 1) then
    let t := rd eigval j1 in
    let eigval := wr eigval j1 (rd eigval (j1 + 1)) in
    let eigval := wr eigval (j1 + 1) t in
    let tmp := wr (e_tmp s) 0 cos_pi4 in
    let tmp := wr (wr (wr tmp 3 nzero) 2 nzero) 1 nzero in
    let tmp := wr tmp ((j1 + 2) mod 3 + 1) (rd tmp 0) in
    let '(quat, tmp) := eig3_rotate (e_quat s) tmp in
    {| e_quat := quat; e_eigvec := e_eigvec s; e_eigval := eigval;
       e_tmp := tmp; e_iter := e_iter s |}
  else s.

(** [int mju_eig3(mjtNum* eigval, mjtNum* eigvec, mjtNum quat[4],
    const mjtNum mat[9])]: the buffers [eigval], [eigvec] and [quat] as the
    routine leaves them; [e_iter] is the value returned. *)
Definition mju_eig3 (eigval eigvec quat mat : list num) : eig3_state :=
  let s := eig3_jacobi eigval eigvec quat mat in
  let s := for_range 0 3 eig3_sort_step s in
  {| e_quat := e_quat s;
     e_eigvec := mju_quat2Mat (e_eigvec s) (e_quat s);
     e_eigval := e_eigval s;
     e_tmp := e_tmp s;
     e_iter := e_iter s |}.

End Eig3.

(* ================================================================= *)
(** ** The helpers of [mju_eig3] *)

Module Spatial.
Section Helpers.
Context {N : Num}.
Local Open Scope num_scope.







End Helpers.
End Spatial.

(* ================================================================= *)
(** ** The error channel *)

(** Modelled from the spec: [mju_error] of the absent
    [engine_util_errmem.c] is the "fatal-error reporting channel that
    aborts the current computation with a descriptive message"; a routine
    that calls it ends there, in [Fatal], with the message and the state
    of its buffers at the call. *)
Inductive outcome (St : Type) : Type :=
| Done (s : St)
| Fatal (msg : string) (s : St).
Arguments Done {St} s.
Arguments Fatal {St} msg s.


(** [k] iterations of a body that can call [mju_error], the counter going
    up from [i]. *)
Fixpoint for_up_m {St} (k : nat) (i : Z) (body : Z -> St -> outcome St)
    (s : St) : outcome St :=
  match k with
  | O => Done s
  | S k' =>
      match body i s with
      | Done s' => for_up_m k' (i + 1) body s'
      | Fatal msg s' => Fatal msg s'
      end
  end.

(** [k] iterations of a body that can call [mju_error], the counter going
    down from [i]. *)
Fixpoint for_down_m {St} (k : nat) (i : Z) (body : Z -> St -> outcome St)
    (s : St) : outcome St :=
  match k with
  | O => Done s
  | S k' =>
      match body i s with
      | Done s' => for_down_m k' (i - 1) body s'
      | Fatal msg s' => Fatal msg s'
      end
  end.

(** [memcpy(dst, src, n*sizeof(int))] *)
Definition memcpy_int (dst src : list Z) (n : Z) : list Z :=
  for_range 0 n (fun i acc => wr acc i (rd src i)) dst.

(* ================================================================= *)
(** ** Sparse LU *)

Section SparseLU.
Context {N : Num}.
Local Open Scope num_scope.

(** The walk "(j,k) = (j,k) - (i,k) * (j,i) for k<i": [k] is the number of
    cells of row [j] still to visit, [jend - jcnt]; every pass that does
    not call [mju_error] advances [jcnt]. *)
Fixpoint LU_merge (k : nat) (colind : list Z) (LUji : num) (icnt jcnt : Z)
    (LU : list num) : outcome (list num * Z * Z) :=
  match k with
  | O => Done (LU, icnt, jcnt)
  | S k' =>
      if (rd colind icnt =? rd colind jcnt)%Z then
        LU_merge k' colind LUji (icnt + 1) (jcnt + 1)
                 (wr LU jcnt (rd LU jcnt - rd LU icnt * LUji))
      else if (rd colind jcnt <? rd colind icnt)%Z then
        LU_merge k' colind LUji icnt (jcnt + 1) LU
      else Fatal "mju_factorLUSparse requires fill-in" (LU, icnt, jcnt)
  end.

(** The walk from [ibeg] and [jbeg], and the test that both rows were
    processed up to [iend] and [jend]. *)
Definition LU_merge_rows (colind : list Z) (LUji : num)
    (ibeg iend jbeg jend : Z) (LU : list num) : outcome (list num) :=
  match LU_merge (Z.to_nat (jend - jbeg)) colind LUji ibeg jbeg LU with
  | Fatal msg (LU, _, _) => Fatal msg LU
  | Done (LU, icnt, jcnt) =>
      if negb (icnt =? iend)%Z || negb (jcnt =? jend)%Z
      then Fatal "row processing incomplete in mju_factorLUSparse" LU
      else Done LU
  end.

(** The body of the loop over the rows [j] above [i]. *)
Definition LU_row (rowadr colind : list Z) (i ii j : Z)
    (st : list num * list Z) : outcome (list num * list Z) :=
  let '(LU, remaining) := st in
  let ji := (rd rowadr j + rd remaining j - 1)%Z in
  if (rd colind ji =? i)%Z then
    let remaining := wr remaining j (rd remaining j - 1)%Z in
    let LU := wr LU ji (rd LU ji / rd LU ii) in
    let LUji := rd LU ji in
    match LU_merge_rows colind LUji
            (rd rowadr i) (rd rowadr i + rd remaining i)%Z
            (rd rowadr j) (rd rowadr j + rd remaining j)%Z LU with
    | Done LU => Done (LU, remaining)
    | Fatal msg LU => Fatal msg (LU, remaining)
    end
  else Done (LU, remaining).

(** The body of the loop over the diagonal elements [(i,i)]. *)
Definition LU_diag (rowadr colind : list Z) (i : Z)
    (st : list num * list Z) : outcome (list num * list Z) :=
  let '(LU, remaining) := st in
  let ii := (rd rowadr i + rd remaining i - 1)%Z in
  let remaining := wr remaining i (rd remaining i - 1)%Z in
  if negb (rd colind ii =? i)%Z
  then Fatal "missing diagonal element in mju_factorLUSparse" (LU, remaining)
  else if mju_abs (rd LU ii) <? mjMINVAL
  then Fatal "diagonal element too small in mju_factorLUSparse"
             (LU, remaining)
  else for_down_m (Z.to_nat i) (i - 1) (LU_row rowadr colind i ii)
                  (LU, remaining).

(** "make sure remaining points to diagonal" *)
Definition LU_check (rowadr colind : list Z) (i : Z)
    (st : list num * list Z) : outcome (list num * list Z) :=
  let '(LU, remaining) := st in
  if (rd remaining i <? 0)%Z
     || negb (rd colind (rd rowadr i + rd remaining i) =? i)%Z
  then Fatal "unexpected sparse matrix structure in mju_factorLUSparse" st
  else Done st.

(** [void mju_factorLUSparse(mjtNum* LU, int n, int* scratch,
    const int* rownnz, const int* rowadr, const int* colind)]: the
    buffers [LU] and [scratch] as the routine leaves them. *)
Definition mju_factorLUSparse (LU : list num) (n : Z)
    (scratch rownnz rowadr colind : list Z)
    : outcome (list num * list Z) :=
  let remaining := memcpy_int scratch rownnz n in
  match for_down_m (Z.to_nat n) (n - 1) (LU_diag rowadr colind)
                   (LU, remaining) with
  | Fatal msg st => Fatal msg st
  | Done st => for_up_m (Z.to_nat n) 0 (LU_check rowadr colind) st
  end.

End SparseLU.

(* ================================================================= *)
(** ** Sparse Cholesky *)

(** Modelled from the spec: the scratch arena of the absent [engine_io.c]
    and [engine_macro.h], "a scoped scratch-memory arena supporting
    mark/acquire/release-to-mark semantics".  The arena is its top of
    stack [pstack]: [mjMARKSTACK] reads it, [mj_stackAlloc(d, n)] acquires
    [n] cells above it, [mjFREESTACK] sets it back to the mark. *)
Definition mj_stackAlloc (pstack n : Z) : Z := pstack + n.

Section SparseChol.
Context {N : Num}.

(** [mju_combineSparse(dst, src, n, a, b, dst_nnz, src_nnz, dst_ind,
    src_ind, buf, buf_ind)] of the absent [engine_util_sparse.c]: for the
    views [dst] and [dst_ind] it is handed, the views as it leaves them
    and the count it returns.  The routines are embedded over any
    implementation of it. *)
Variable mju_combineSparse :
  list num -> list num -> Z -> num -> num -> Z -> Z -> list Z -> list Z ->
  list num * list Z * Z.

Local Open Scope num_scope.

(** The buffers a sparse Cholesky routine writes, the arena, and the
    local [rank]. *)
Record chol_state : Type := {
  cs_mat : list num;
  cs_rownnz : list Z;
  cs_colind : list Z;
  cs_x : list num;
  cs_x_ind : list Z;
  cs_pstack : Z;
  cs_rank : Z
}.

(** [while (rownnz[r]>0 && colind[rowadr[r]+rownnz[r]-1]>r) rownnz[r]--;]
    the count the loop ends with; [k] passes suffice when [k] is the count
    it starts from. *)
Fixpoint shrink_row (k : nat) (colind : list Z) (adr r nnz : Z) : Z :=
  match k with
  | O => nnz
  | S k' =>
      if ((0 <? nnz) && (r <? rd colind (adr + nnz - 1)))%Z
      then shrink_row k' colind adr r (nnz - 1)%Z
      else nnz
  end.

(** The count row [r] is shrunk to. *)
Definition shrunk_nnz (rownnz rowadr colind : list Z) (r : Z) : Z :=
  shrink_row (Z.to_nat (rd rownnz r)) colind (rd rowadr r) r (rd rownnz r).

(** The body of the loop "shrink rows so that rownnz ends at diagonal". *)
Definition cholFactorSparse_shrink (rowadr : list Z) (r : Z)
    (s : chol_state) : outcome chol_state :=
  let nnz := shrunk_nnz (cs_rownnz s) rowadr (cs_colind s) r in
  let s := {| cs_mat := cs_mat s; cs_rownnz := wr (cs_rownnz s) r nnz;
              cs_colind := cs_colind s; cs_x := cs_x s;
              cs_x_ind := cs_x_ind s; cs_pstack := cs_pstack s;
              cs_rank := cs_rank s |} in
  if ((nnz =? 0) || negb (rd (cs_colind s) (rd rowadr r + nnz - 1) =? r))%Z
  then Fatal "Matrix must have non-zero diagonal in mju_cholFactorSparse" s
  else Done s.

(** "update row c<r where mat(r,c)!=0", for the cell [i] of row [r]. *)
Definition cholFactorSparse_combine (rowadr : list Z) (r i : Z)
    (s : chol_state) : chol_state :=
  let adr := rd rowadr r in
  let c := rd (cs_colind s) (adr + i) in
  let '(dst, dst_ind, nnz_c) :=
    mju_combineSparse
      (ptr (cs_mat s) (rd rowadr c)) (ptr (cs_mat s) (rd rowadr r))
      (c + 1)%Z n_one (- rd (cs_mat s) (adr + i))
      (rd (cs_rownnz s) c) (i + 1)%Z
      (ptr (cs_colind s) (rd rowadr c)) (ptr (cs_colind s) (rd rowadr r)) in
  {| cs_mat := store (cs_mat s) (rd rowadr c) dst;
     cs_rownnz := wr (cs_rownnz s) c nnz_c;
     cs_colind := store (cs_colind s) (rd rowadr c) dst_ind;
     cs_x := cs_x s; cs_x_ind := cs_x_ind s;
     cs_pstack := cs_pstack s; cs_rank := cs_rank s |}.

(** The body of the "backpass over rows". *)
Definition cholFactorSparse_row (mindiag : num) (rowadr : list Z) (r : Z)
    (s : chol_state) : chol_state :=
  let nnz := rd (cs_rownnz s) r in
  let adr := rd rowadr r in
  let tmp := rd (cs_mat s) (adr + nnz - 1) in
  let '(tmp, rank) :=
    if tmp <? mindiag then (mindiag, (cs_rank s - 1)%Z)
    else (tmp, cs_rank s) in
  let mat := wr (cs_mat s) (adr + nnz - 1) (mju_sqrt tmp) in
  let tmp := n_one / rd mat (adr + nnz - 1) in
  let mat :=
    for_range 0 (nnz - 1)
      (fun i mat => wr mat (adr + i) (rd mat (adr + i) * tmp)) mat in
  let s := {| cs_mat := mat; cs_rownnz := cs_rownnz s;
              cs_colind := cs_colind s; cs_x := cs_x s;
              cs_x_ind := cs_x_ind s; cs_pstack := cs_pstack s;
              cs_rank := rank |} in
  for_range 0 (nnz - 1) (cholFactorSparse_combine rowadr r) s.

(** [mjFREESTACK] *)
Definition free_stack (mark : Z) (s : chol_state) : chol_state :=
  {| cs_mat := cs_mat s; cs_rownnz := cs_rownnz s; cs_colind := cs_colind s;
     cs_x := cs_x s; cs_x_ind := cs_x_ind s;
     cs_pstack := mark; cs_rank := cs_rank s |}.

(** The state a sparse routine starts its work in: the mark taken, the two
    scratch arrays [buf_ind] and [sparse_buf] acquired, [rank = n]. *)
Definition enter_sparse (mat x : list num) (rownnz colind x_ind : list Z)
    (n pstack : Z) : chol_state :=
  {| cs_mat := mat; cs_rownnz := rownnz; cs_colind := colind;
     cs_x := x; cs_x_ind := x_ind;
     cs_pstack := mj_stackAlloc (mj_stackAlloc pstack n) n;
     cs_rank := n |}.

(** The loop that shrinks and checks the rows, from the entry state. *)
Definition cholFactorSparse_check (mat : list num) (n : Z)
    (rownnz rowadr colind : list Z) (pstack : Z) : outcome chol_state :=
  for_up_m (Z.to_nat n) 0 (cholFactorSparse_shrink rowadr)
           (enter_sparse mat [] rownnz colind [] n pstack).

(** [int mju_cholFactorSparse(mjtNum* mat, int n, mjtNum mindiag,
    int* rownnz, int* rowadr, int* colind, mjData* d)]; [cs_rank] is the
    value returned. *)
Definition mju_cholFactorSparse (mat : list num) (n : Z) (mindiag : num)
    (rownnz rowadr colind : list Z) (pstack : Z) : outcome chol_state :=
  let mark := pstack in
  match cholFactorSparse_check mat n rownnz rowadr colind pstack with
  | Fatal msg s => Fatal msg s
  | Done s =>
      let s := for_down (Z.to_nat n) (n - 1)
                        (cholFactorSparse_row mindiag rowadr) s in
      Done (free_stack mark s)
  end.

(** The first half of a pass of the "backpass over rows corresponding to
    non-zero x(r)", up to the row combine: the state with [mat] and
    [colind] as the combine leaves them, the count [new_nnz] it returned,
    and the locals [c] and [s]. *)
Definition cholUpdateSparse_row (flg_plus : Z) (n : Z)
    (rownnz rowadr : list Z) (i : Z) (s : chol_state)
    : chol_state * Z * num * num :=
  let nnz := rd rownnz (rd (cs_x_ind s) i) in
  let adr := rd rowadr (rd (cs_x_ind s) i) in
  let xi := rd (cs_x s) i in
  let Lrr := rd (cs_mat s) (adr + nnz - 1) in
  let tmp := Lrr * Lrr + (if (flg_plus =? 0)%Z then - xi * xi else xi * xi) in
  let '(tmp, rank) :=
    if tmp <? mjMINVAL then (mjMINVAL, (cs_rank s - 1)%Z)
    else (tmp, cs_rank s) in
  let r := mju_sqrt tmp in
  let c := r / Lrr in
  let sn := xi / Lrr in
  let mat := wr (cs_mat s) (adr + nnz - 1) r in
  let '(dst, dst_ind, new_nnz) :=
    mju_combineSparse (ptr mat adr) (cs_x s) n (n_one / c)
      (if (flg_plus =? 0)%Z then - sn / c else sn / c)
      (nnz - 1)%Z i (ptr (cs_colind s) adr) (cs_x_ind s) in
  ({| cs_mat := store mat adr dst; cs_rownnz := cs_rownnz s;
      cs_colind := store (cs_colind s) adr dst_ind; cs_x := cs_x s;
      cs_x_ind := cs_x_ind s; cs_pstack := cs_pstack s;
      cs_rank := rank |}, new_nnz, c, sn).

(** One pass: the "check for size change", then the update of [x] and of
    [i]; the state and the next value of [i]. *)
Definition cholUpdateSparse_step (flg_plus : Z) (n : Z)
    (rownnz rowadr : list Z) (i : Z) (s : chol_state)
    : outcome (chol_state * Z) :=
  let nnz := rd rownnz (rd (cs_x_ind s) i) in
  let adr := rd rowadr (rd (cs_x_ind s) i) in
  let '(s1, new_nnz, c, sn) :=
    cholUpdateSparse_row flg_plus n rownnz rowadr i s in
  if negb (new_nnz =? nnz - 1)%Z
  then Fatal "Varying sparsity pattern in mju_cholUpdateSparse" (s1, i)
  else
    let '(x, x_ind, new_x_nnz) :=
      mju_combineSparse (cs_x s1) (ptr (cs_mat s1) adr) n c (- sn)
        i (nnz - 1)%Z (cs_x_ind s1) (ptr (cs_colind s1) adr) in
    Done ({| cs_mat := cs_mat s1; cs_rownnz := cs_rownnz s1;
             cs_colind := cs_colind s1; cs_x := x; cs_x_ind := x_ind;
             cs_pstack := cs_pstack s1; cs_rank := cs_rank s1 |},
          (i - 1 + (new_x_nnz - i))%Z).

(** [while (i>=0)]: at most [fuel] passes; [None] when they do not
    suffice. *)
Fixpoint cholUpdateSparse_loop (fuel : nat) (flg_plus n : Z)
    (rownnz rowadr : list Z) (i : Z) (s : chol_state)
    : option (outcome chol_state) :=
  if (i <? 0)%Z then Some (Done s)
  else
    match fuel with
    | O => None
    | S fuel' =>
        match cholUpdateSparse_step flg_plus n rownnz rowadr i s with
        | Fatal msg (s', _) => Some (Fatal msg s')
        | Done (s', i') =>
            cholUpdateSparse_loop fuel' flg_plus n rownnz rowadr i' s'
        end
    end.

(** The rows the loop visits in at most [fuel] passes, each with the
    count its row combine returned. *)
Fixpoint cholUpdateSparse_rows (fuel : nat) (flg_plus n : Z)
    (rownnz rowadr : list Z) (i : Z) (s : chol_state) : list (Z * Z) :=
  if (i <? 0)%Z then []
  else
    match fuel with
    | O => []
    | S fuel' =>
        let visit :=
          (rd (cs_x_ind s) i,
           snd (fst (fst (cholUpdateSparse_row flg_plus n rownnz rowadr
                            i s)))) in
        match cholUpdateSparse_step flg_plus n rownnz rowadr i s with
        | Fatal _ _ => [visit]
        | Done (s', i') =>
            visit
            :: cholUpdateSparse_rows fuel' flg_plus n rownnz rowadr i' s'
        end
    end.

(** [int mju_cholUpdateSparse(mjtNum* mat, mjtNum* x, int n, int flg_plus,
    int* rownnz, int* rowadr, int* colind, int x_nnz, int* x_ind,
    mjData* d)]; [cs_rank] is the value returned. *)
Definition mju_cholUpdateSparse (fuel : nat) (mat x : list num) (n : Z)
    (flg_plus : Z) (rownnz rowadr colind : list Z) (x_nnz : Z)
    (x_ind : list Z) (pstack : Z) : option (outcome chol_state) :=
  let mark := pstack in
  match cholUpdateSparse_loop fuel flg_plus n rownnz rowadr (x_nnz - 1)
          (enter_sparse mat x rownnz colind x_ind n pstack) with
  | None => None
  | Some (Fatal msg s) => Some (Fatal msg s)
  | Some (Done s) => Some (Done (free_stack mark s))
  end.

End SparseChol.

(* ================================================================= *)
(** ** The row combine of the sparse routines *)

Module Sparse.
Section Combine.
Context {N : Num}.
Local Open Scope num_scope.

(** [a*d + b*s] of two rows given as cells (column, value) in ascending
    column order: a column of both rows yields one cell. *)
Fixpoint merge_rows (a b : num) (d : list (Z * num))
    : list (Z * num) -> list (Z * num) :=
  match d with
  | [] => map (fun cv => (fst cv, b * snd cv))
  | (ci, vi) :: d' =>
      fix go (s : list (Z * num)) : list (Z * num) :=
        match s with
        | [] => (ci, a * vi) :: map (fun cv => (fst cv, a * snd cv)) d'
        | (cj, vj) :: s' =>
            if (ci =? cj)%Z then (ci, a * vi + b * vj) :: merge_rows a b d' s'
            else if (ci <? cj)%Z then (ci, a * vi) :: merge_rows a b d' s
            else (cj, b * vj) :: go s'
        end
  end.

(** Modelled from the spec: [mju_combineSparse] of the absent
    [engine_util_sparse.c], the "row-combine primitive that merges two
    sparse rows with a scalar multiplier ... while preserving ascending
    column order and deduplicating indices", [dst = a*dst + b*src]; it
    "may grow a row's stored nonzero count".  Both calls in this file hand
    it columns below the bound [n]. *)
Definition combineSparse (dst src : list num) (n : Z) (a b : num)
    (dst_nnz src_nnz : Z) (dst_ind src_ind : list Z)
    : list num * list Z * Z :=
  let d := zip (take (Z.to_nat dst_nnz) dst_ind)
               (take (Z.to_nat dst_nnz) dst) in
  let s := zip (take (Z.to_nat src_nnz) src_ind)
               (take (Z.to_nat src_nnz) src) in
  let m := merge_rows a b d s in
  (map snd m ++ drop (length m) dst,
   map fst m ++ drop (length m) dst_ind,
   Z.of_nat (length m)).

End Combine.
End Sparse.

(* ================================================================= *)
(** ** Dense Cholesky rank-one update *)

Section DenseUpdate.
Context {N : Num}.
Local Open Scope num_scope.

(** The buffers [mat] and [x] and the local [rank]. *)
Record update_state : Type := {
  u_mat : list num;
  u_x : list num;
  u_rank : Z
}.

(** The locals [r], [c], [cinv] and [s] of column [k], and whether [tmp]
    was below [mjMINVAL]. *)
Definition cholUpdate_consts (flg_plus : Z) (Lkk xk : num)
    : num * num * num * num * bool :=
  let tmp := Lkk * Lkk + (if (flg_plus =? 0)%Z then - xk * xk else xk * xk) in
  let low := tmp <? mjMINVAL in
  let tmp := if low then mjMINVAL else tmp in
  let r := mju_sqrt tmp in
  let c := r / Lkk in
  (r, c, n_one / c, xk / Lkk, low).

(** The body of the loop over the columns [k]. *)
Definition cholUpdate_body (n flg_plus : Z) (k : Z) (st : update_state)
    : update_state :=
  if nonzero (rd (u_x st) k) then
    let Lkk := rd (u_mat st) (k * (n + 1)) in
    let '(r, c, cinv, s, low) :=
      cholUpdate_consts flg_plus Lkk (rd (u_x st) k) in
    let rank := if low then (u_rank st - 1)%Z else u_rank st in
    let mat := wr (u_mat st) (k * (n + 1)) r in
    let x := u_x st in
    let mat :=
      if (flg_plus =? 0)%Z then
        for_range (k + 1) n
          (fun i mat =>
             wr mat (i * n + k) ((rd mat (i * n + k) - s * rd x i) * cinv))
          mat
      else
        for_range (k + 1) n
          (fun i mat =>
             wr mat (i * n + k) ((rd mat (i * n + k) + s * rd x i) * cinv))
          mat in
    let x :=
      for_range (k + 1) n
        (fun i x => wr x i (c * rd x i - s * rd mat (i * n + k))) x in
    {| u_mat := mat; u_x := x; u_rank := rank |}
  else st.

(** The buffers and the rank after the first [j] columns. *)
Definition cholUpdate_cols (mat x : list num) (n flg_plus : Z) (j : nat)
    : update_state :=
  for_up j 0 (cholUpdate_body n flg_plus)
         {| u_mat := mat; u_x := x; u_rank := n |}.

(** [int mju_cholUpdate(mjtNum* mat, mjtNum* x, int n, int flg_plus)]:
    [mat] and [x] as the routine leaves them; [u_rank] is the value
    returned. *)
Definition mju_cholUpdate (mat x : list num) (n flg_plus : Z)
    : update_state :=
  for_range 0 n (cholUpdate_body n flg_plus)
            {| u_mat := mat; u_x := x; u_rank := n |}.

End DenseUpdate.

(* ================================================================= *)
(** ** Sparse Cholesky solve *)

Section SparseCholSolve.
Context {N : Num}.
Local Open Scope num_scope.

(** [mju_dotSparse(vec1, vec2, nnz1, ind1)] of the absent
    [engine_util_sparse.c]; the routine is embedded over any
    implementation of it. *)
Variable mju_dotSparse : list num -> list num -> Z -> list Z -> num.

(** The body of the loop "vec <- L^-T vec", for the row [i]. *)
Definition cholSolveSparse_bwd (mat : list num)
    (rownnz rowadr colind : list Z) (i : Z) (res : list num) : list num :=
  if nonzero (rd res i) then
    let adr := rd rowadr i in
    let nnz := rd rownnz i in
    let res := wr res i (rd res i / rd mat (adr + nnz - 1)) in
    let tmp := rd res i in
    for_range 0 (nnz - 1)
      (fun j res =>
         wr res (rd colind (adr + j))
            (rd res (rd colind (adr + j)) - rd mat (adr + j) * tmp))
      res
  else res.

(** The body of the loop "vec <- L^-1 vec", for the row [i]. *)
Definition cholSolveSparse_fwd (mat : list num)
    (rownnz rowadr colind : list Z) (i : Z) (res : list num) : list num :=
  let adr := rd rowadr i in
  let nnz := rd rownnz i in
  let res :=
    if (1 <? nnz)%Z
    then wr res i (rd res i
                   - mju_dotSparse (ptr mat adr) res (nnz - 1)%Z
                                   (ptr colind adr))
    else res in
  wr res i (rd res i / rd mat (adr + nnz - 1)).

(** [void mju_cholSolveSparse(mjtNum* res, const mjtNum* mat,
    const mjtNum* vec, int n, const int* rownnz, const int* rowadr,
    const int* colind)]: the buffer [res] as the routine leaves it.  The
    routine has no call of the error channel. *)
Definition mju_cholSolveSparse (res mat vec : list num) (n : Z)
    (rownnz rowadr colind : list Z) : list num :=
  let res := mju_copy res vec n in
  let res := for_down (Z.to_nat n) (n - 1)
               (cholSolveSparse_bwd mat rownnz rowadr colind) res in
  for_range 0 n (cholSolveSparse_fwd mat rownnz rowadr colind) res.

End SparseCholSolve.

(** Modelled from the spec: [mju_dotSparse] of the absent
    [engine_util_sparse.c], the product of a sparse row and a dense vector
    as the comment at its call has it,
    [sum_j vec1[j]*vec2[ind1[j]]] for [j < nnz1], added left to right. *)
Definition dotSparse_seq {N : Num} (vec1 vec2 : list num) (nnz1 : Z)
    (ind1 : list Z) : num :=
  for_range 0 nnz1
    (fun j acc => (acc + rd vec1 j * rd vec2 (rd ind1 j))%num) nzero.

(* ================================================================= *)
(** ** Sparse LU solve *)

(** [k] iterations of a body that can call [mju_error] or run out of
    passes, the counter going down from [i]. *)
Fixpoint for_down_om {St} (k : nat) (i : Z)
    (body : Z -> St -> option (outcome St)) (s : St)
    : option (outcome St) :=
  match k with
  | O => Some (Done s)
  | S k' =>
      match body i s with
      | Some (Done s') => for_down_om k' (i - 1) body s'
      | other => other
      end
  end.

(** The same, the counter going up from [i]. *)
Fixpoint for_up_om {St} (k : nat) (i : Z)
    (body : Z -> St -> option (outcome St)) (s : St)
    : option (outcome St) :=
  match k with
  | O => Some (Done s)
  | S k' =>
      match body i s with
      | Some (Done s') => for_up_om k' (i + 1) body s'
      | other => other
      end
  end.

Section SparseLUSolve.
Context {N : Num}.
Local Open Scope num_scope.

(** [while (colind[rowadr[i]+j]>i) { res[i] -= res[colind[rowadr[i]+j]] *
    LU[rowadr[i]+j]; j--; }]: the buffer and the [j] the loop ends with;
    at most [fuel] passes, [None] when they do not suffice. *)
Fixpoint solveLU_upper (fuel : nat) (LU : list num) (rowadr colind : list Z)
    (i j : Z) (res : list num) : option (list num * Z) :=
  if (i <? rd colind (rd rowadr i + j))%Z then
    match fuel with
    | O => None
    | S fuel' =>
        solveLU_upper fuel' LU rowadr colind i (j - 1)%Z
          (wr res i (rd res i
                     - rd res (rd colind (rd rowadr i + j))
                       * rd LU (rd rowadr i + j)))
    end
  else Some (res, j).

(** [while (colind[rowadr[i]+j]<i) { res[i] -= res[colind[rowadr[i]+j]] *
    LU[rowadr[i]+j]; j++; }] *)
Fixpoint solveLU_lower (fuel : nat) (LU : list num) (rowadr colind : list Z)
    (i j : Z) (res : list num) : option (list num * Z) :=
  if (rd colind (rd rowadr i + j) <? i)%Z then
    match fuel with
    | O => None
    | S fuel' =>
        solveLU_lower fuel' LU rowadr colind i (j + 1)%Z
          (wr res i (rd res i
                     - rd res (rd colind (rd rowadr i + j))
                       * rd LU (rd rowadr i + j)))
    end
  else Some (res, j).

(** The body of the loop "solve (U+I)*res = vec", for the row [i]. *)
Definition solveLU_U_row (fuel : nat) (LU vec : list num)
    (rownnz rowadr colind : list Z) (i : Z) (res : list num)
    : option (outcome (list num)) :=
  let res := wr res i (rd vec i) in
  match solveLU_upper fuel LU rowadr colind i (rd rownnz i - 1)%Z res with
  | None => None
  | Some (res, j) =>
      if negb (rd colind (rd rowadr i + j) =? i)%Z
      then Some (Fatal "diagonal of U not reached in mju_factorLUSparse" res)
      else Some (Done res)
  end.

(** The body of the loop "solve L*res(new) = res", for the row [i]. *)
Definition solveLU_L_row (fuel : nat) (LU : list num)
    (rowadr colind : list Z) (i : Z) (res : list num)
    : option (outcome (list num)) :=
  match solveLU_lower fuel LU rowadr colind i 0 res with
  | None => None
  | Some (res, j) =>
      let res := wr res i (rd res i / rd LU (rd rowadr i + j)) in
      if negb (rd colind (rd rowadr i + j) =? i)%Z
      then Some (Fatal "diagonal of L not reached in mju_factorLUSparse" res)
      else Some (Done res)
  end.

(** [void mju_solveLUSparse(mjtNum* res, const mjtNum* LU,
    const mjtNum* vec, int n, const int* rownnz, const int* rowadr,
    const int* colind)]: the buffer [res] as the routine leaves it, each
    inner loop making at most [fuel] passes.  When the caller passes [res]
    itself as [vec], [vec] holds the contents of [res] at the call: the
    cell [res[i]] is not written before [vec[i]] is read. *)
Definition mju_solveLUSparse (fuel : nat) (res LU vec : list num) (n : Z)
    (rownnz rowadr colind : list Z) : option (outcome (list num)) :=
  match for_down_om (Z.to_nat n) (n - 1)
          (solveLU_U_row fuel LU vec rownnz rowadr colind) res with
  | Some (Done res) =>
      for_up_om (Z.to_nat n) 0 (solveLU_L_row fuel LU rowadr colind) res
  | other => other
  end.

End SparseLUSolve.

(** * Properties of the routines *)

(* ================================================================= *)
(** ** Buffers *)

Lemma wr_length {A} (l : list A) i v : length (wr l i v) = length l.
Proof. unfold wr. case_decide; [apply length_insert | done]. Qed.

Lemma rd_wr_eq {A} `{Inhabited A} (l : list A) i v :
  0 <= i < Z.of_nat (length l) -> rd (wr l i v) i = v.
Proof.
  intros Hi. unfold rd, wr. rewrite !decide_True by lia.
  apply list_lookup_total_insert_eq. lia.
Qed.

Lemma rd_wr_ne {A} `{Inhabited A} (l : list A) i j v :
  i <> j -> rd (wr l i v) j = rd l j.
Proof.
  intros Hij. unfold rd, wr.
  destruct (decide (0 <= j)); [|done].
  destruct (decide (0 <= i)); [|done].
  apply list_lookup_total_insert_ne. lia.
Qed.

Lemma for_up_snoc {St} (k : nat) (i : Z) (body : Z -> St -> St) (s : St) :
  for_up (S k) i body s = body (i + Z.of_nat k) (for_up k i body s).
Proof.
  revert i s. induction k as [|k IH]; intros i s.
  - simpl. now rewrite Z.add_0_r.
  - change (for_up (S (S k)) i body s)
      with (for_up (S k) (i + 1) body (body i s)).
    rewrite IH. simpl for_up. f_equal. lia.
Qed.

(* ================================================================= *)
(** ** Properties of the loops *)

Lemma for_up_ind {St} (P : St -> Prop) (body : Z -> St -> St) (k : nat)
    (lo : Z) (s : St) :
  P s ->
  (forall i t, lo <= i < lo + Z.of_nat k -> P t -> P (body i t)) ->
  P (for_up k lo body s).
Proof.
  revert lo s. induction k as [|k IH]; intros lo s Hs Hstep; [exact Hs|].
  simpl. apply IH.
  - apply Hstep; [lia | exact Hs].
  - intros i t Hi. apply Hstep. lia.
Qed.

Lemma for_range_ind {St} (P : St -> Prop) (body : Z -> St -> St)
    (lo hi : Z) (s : St) :
  P s ->
  (forall i t, lo <= i < hi -> P t -> P (body i t)) ->
  P (for_range lo hi body s).
Proof.
  intros Hs Hstep. unfold for_range. apply for_up_ind; [exact Hs|].
  intros i t Hi. apply Hstep. lia.
Qed.

(* ================================================================= *)
(** ** [mju_cholFactor]: the rank counts the clamped pivots *)

Section DenseFacts.
Context {N : Num}.
Variable mju_dot : list num -> list num -> Z -> num.

Abbreviation cols := (cholFactor_cols mju_dot).
Abbreviation body := (cholFactor_body mju_dot).

Lemma cholFactor_cols_S mat n mindiag k :
  cols mat n mindiag (S k) = body n mindiag (Z.of_nat k) (cols mat n mindiag k).
Proof. unfold cholFactor_cols. now rewrite for_up_snoc, Z.add_0_l. Qed.

Lemma cholFactor_offdiag_length n j tmp lo hi mat :
  length (for_range lo hi (cholFactor_offdiag mju_dot n j tmp) mat)
  = length mat.
Proof.
  apply (for_range_ind (fun m => length m = length mat)); [done|].
  intros i t _ Ht. unfold cholFactor_offdiag. now rewrite wr_length.
Qed.

Lemma cholFactor_body_length n mindiag j st :
  length (fst (body n mindiag j st)) = length (fst st).
Proof.
  destruct st as [mat rank]. unfold cholFactor_body.
  destruct (nltb _ _); simpl;
    now rewrite cholFactor_offdiag_length, wr_length.
Qed.

Lemma cholFactor_cols_length mat n mindiag k :
  length (fst (cols mat n mindiag k)) = length mat.
Proof.
  induction k as [|k IH]; [done|].
  now rewrite cholFactor_cols_S, cholFactor_body_length.
Qed.

Lemma cholFactor_body_rank n mindiag j mat rank :
  snd (body n mindiag j (mat, rank))
  = rank - (if (cholFactor_pivot mju_dot n j mat <? mindiag)%num
            then 1 else 0).
Proof.
  unfold cholFactor_body. destruct (nltb _ _); simpl; lia.
Qed.

Lemma clamped_count_S mat n mindiag k :
  clamped_count mju_dot mat n mindiag (S k)
  = clamped_count mju_dot mat n mindiag k
    + (if clamped mju_dot mat n mindiag k then 1 else 0).
Proof.
  unfold clamped_count. rewrite seq_S, List.filter_app, length_app. simpl.
  destruct (clamped mju_dot mat n mindiag k); simpl; lia.
Qed.

Lemma clamped_count_bounds mat n mindiag k :
  0 <= clamped_count mju_dot mat n mindiag k <= Z.of_nat k.
Proof.
  induction k as [|k IH]; [unfold clamped_count; simpl; lia|].
  rewrite clamped_count_S. destruct (clamped _ _ _ _ _); lia.
Qed.

Lemma clamped_count_zero mat n mindiag k :
  clamped_count mju_dot mat n mindiag k = 0
  <-> forall j, (j < k)%nat -> clamped mju_dot mat n mindiag j = false.
Proof.
  induction k as [|k IH].
  - split; [intros _ j Hj; lia | intros _; reflexivity].
  - rewrite clamped_count_S.
    pose proof (clamped_count_bounds mat n mindiag k) as Hb.
    split.
    + intros H j Hj.
      destruct (clamped mju_dot mat n mindiag k) eqn:Ek; [lia|].
      destruct (decide (j = k)) as [->|Hne]; [exact Ek|].
      apply IH; lia.
    + intros H. rewrite (H k) by lia.
      assert (clamped_count mju_dot mat n mindiag k = 0) as ->; [|lia].
      apply IH. intros j Hj. apply H. lia.
Qed.

Lemma cholFactor_cols_rank mat n mindiag k :
  snd (cols mat n mindiag k) = n - clamped_count mju_dot mat n mindiag k.
Proof.
  induction k as [|k IH]; [unfold clamped_count; simpl; lia|].
  rewrite cholFactor_cols_S, clamped_count_S.
  destruct (cols mat n mindiag k) as [m r] eqn:E.
  rewrite cholFactor_body_rank. simpl in IH. rewrite IH.
  unfold clamped, pivot_of. rewrite E. simpl. lia.
Qed.

(** A cell that the off-diagonal loop of column [j] does not address keeps
    its value. *)
Lemma cholFactor_offdiag_other n j tmp lo hi mat c :
  (forall i, lo <= i < hi -> c <> i * n + j) ->
  rd (for_range lo hi (cholFactor_offdiag mju_dot n j tmp) mat) c = rd mat c.
Proof.
  intros Hc.
  apply (for_range_ind (fun m => rd m c = rd mat c)); [done|].
  intros i t Hi Ht. unfold cholFactor_offdiag.
  rewrite rd_wr_ne; [exact Ht|]. intros Heq. now apply (Hc i).
Qed.




End DenseFacts.



(* ================================================================= *)
(** ** Loops that break or return *)

Lemma iterate_return {St R} (body : St -> iter_result St R) (K k : nat)
    (s0 s : St) (r : R) :
  (k < K)%nat -> iter_head k body s0 = Some s -> body s = Return r ->
  iterate K body s0 = inr r.
Proof.
  revert K s0. induction k as [|k IH]; intros K s0 HK Hhead Hret.
  - destruct K as [|K]; [lia|]. simpl in *.
    injection Hhead as ->. now rewrite Hret.
  - destruct K as [|K]; [lia|]. simpl in *.
    destruct (body s0) as [s1|s1|r1]; try discriminate.
    apply IH; [lia | exact Hhead | exact Hret].
Qed.

(** A loop that is left without [return] was left by its last executed
    pass, through [break] or by exhausting the count. *)
Lemma iterate_left {St R} (body : St -> iter_result St R) (K : nat)
    (s0 s' : St) :
  (1 <= K)%nat -> iterate K body s0 = inl s' ->
  exists k s, (k < K)%nat /\ iter_head k body s0 = Some s
              /\ (body s = Break s' \/ body s = Continue s').
Proof.
  revert s0. induction K as [|K IH]; intros s0 HK Hit; [lia|].
  simpl in Hit. destruct (body s0) as [s1|s1|r1] eqn:E.
  - destruct K as [|K].
    + simpl in Hit. injection Hit as ->.
      exists 0%nat, s0. repeat split; [lia | now right].
    + destruct (IH s1 ltac:(lia) Hit) as (k & s & Hk & Hh & Hb).
      exists (S k), s. repeat split; [lia | simpl; now rewrite E | exact Hb].
  - injection Hit as ->. exists 0%nat, s0.
    repeat split; [lia | now left].
  - discriminate.
Qed.

Lemma mju_zero_length {N : Num} (res : list num) (n : Z) :
  length (mju_zero res n) = length res.
Proof.
  unfold mju_zero.
  apply (for_range_ind (fun l => length l = length res)); [done|].
  intros i t _ Ht. now rewrite wr_length.
Qed.

Lemma mju_zero_rd {N : Num} (res : list num) (n i : Z) :
  0 <= i < n -> i < Z.of_nat (length res) -> rd (mju_zero res n) i = nzero.
Proof.
  intros Hi Hlen. unfold mju_zero, for_range. rewrite Z.sub_0_r.
  assert (forall k, (Z.to_nat i < k)%nat ->
            rd (for_up k 0 (fun j acc => wr acc j nzero) res) i = nzero
            /\ length (for_up k 0 (fun j acc => wr acc j nzero) res)
               = length res) as H.
  { induction k as [|k IH]; intros Hk; [lia|].
    rewrite for_up_snoc, Z.add_0_l.
    assert (length (for_up k 0 (fun j acc => wr acc j nzero) res)
            = length res) as Hl.
    { apply (for_up_ind (fun l => length l = length res)); [done|].
      intros j t _ Ht. now rewrite wr_length. }
    split; [|now rewrite wr_length].
    destruct (decide (Z.of_nat k = i)) as [->|Hne].
    - apply rd_wr_eq. lia.
    - rewrite rd_wr_ne by exact Hne. apply IH. lia. }
  apply H. lia.
Qed.

(* ================================================================= *)
(** ** QCQP: loss of positive-definiteness, and the locals [v1], [v2], [v3] *)

Section QCQPFacts.
Context {N : Num}.
Variable mju_dot : list num -> list num -> Z -> num.

Local Open Scope num_scope.

(** [val = v'*v - r*r] at the multiplier [la] *)
Definition QCQP2_val (p : qcqp2_problem) (r la : num) : num :=
  let '(v1, v2) := QCQP2_v p la in v1 * v1 + v2 * v2 - r * r.

Definition QCQP3_val (p : qcqp3_problem) (r la : num) : num :=
  let '(v1, v2, v3) := QCQP3_v p la in v1 * v1 + v2 * v2 + v3 * v3 - r * r.

Lemma QCQP2_body_return res p r s :
  (QCQP2_det p (q2_la s) <? eps10) = true ->
  QCQP2_body res p r s = Return (QRet (wr (wr res 0 nzero) 1 nzero) 0).
Proof. intros H. unfold QCQP2_body. now rewrite H. Qed.

Lemma QCQP3_body_return res p r s :
  (QCQP3_det p (q3_la s) <? eps10) = true ->
  QCQP3_body res p r s
  = Return (QRet (wr (wr (wr res 0 nzero) 1 nzero) 2 nzero) 0).
Proof.
  intros H. unfold QCQP3_body. unfold QCQP3_det in H.
  destruct (QCQP3_cof p (q3_la s)) as [[[[[P11 P22] P33] P12] P13] P23].
  now rewrite H.
Qed.

Lemma QCQP_body_return A b r n s :
  (snd (mju_cholFactor mju_dot (QCQP_Ala A (qn_Ala s) (qn_la s) n) n eps10)
   < n)%Z ->
  QCQP_body mju_dot A b r n s = Return (QRet (mju_zero (qn_res s) n) 0).
Proof.
  intros H. unfold QCQP_body.
  destruct (mju_cholFactor _ _ _ _) as [Ala rank]. simpl in H.
  now rewrite (proj2 (Z.ltb_lt rank n) H).
Qed.

(** Whatever way a pass of [mju_QCQP2] leaves the body without returning,
    it has assigned [v1] and [v2] from the multiplier it started with. *)
Lemma QCQP2_body_assigns res p r s s' :
  QCQP2_body res p r s = Break s' \/ QCQP2_body res p r s = Continue s' ->
  q2_v1 s' = Some (fst (QCQP2_v p (q2_la s)))
  /\ q2_v2 s' = Some (snd (QCQP2_v p (q2_la s))).
Proof.
  unfold QCQP2_body, QCQP2_v.
  destruct (nltb (QCQP2_det p (q2_la s)) eps10);
    [intros [H|H]; discriminate|].
  destruct (nltb _ eps10); [intros [H|H]; [|discriminate];
    injection H as <-; simpl; auto|].
  destruct (nltb _ eps10); (intros [H|H]; try discriminate);
    injection H as <-; simpl; auto.
Qed.

Lemma QCQP3_body_assigns res p r s s' :
  QCQP3_body res p r s = Break s' \/ QCQP3_body res p r s = Continue s' ->
  q3_v1 s' = Some (fst (fst (QCQP3_v p (q3_la s))))
  /\ q3_v2 s' = Some (snd (fst (QCQP3_v p (q3_la s))))
  /\ q3_v3 s' = Some (snd (QCQP3_v p (q3_la s))).
Proof.
  unfold QCQP3_body, QCQP3_v, QCQP3_det.
  destruct (QCQP3_cof p (q3_la s)) as [[[[[P11 P22] P33] P12] P13] P23].
  destruct (nltb _ eps10); [intros [H|H]; discriminate|].
  destruct (nltb _ eps10); [intros [H|H]; [|discriminate];
    injection H as <-; simpl; auto|].
  destruct (nltb _ eps10); (intros [H|H]; try discriminate);
    injection H as <-; simpl; auto.
Qed.

(** The first pass when the unconstrained minimiser is feasible. *)
Lemma QCQP2_body_feasible res p r :
  (QCQP2_det p nzero <? eps10) = false ->
  (QCQP2_val p r nzero <? eps10) = true ->
  QCQP2_body res p r QCQP2_init
  = Break {| q2_la := nzero;
             q2_v1 := Some (fst (QCQP2_v p nzero));
             q2_v2 := Some (snd (QCQP2_v p nzero)) |}.
Proof.
  unfold QCQP2_body, QCQP2_val, QCQP2_v. simpl. intros -> H.
  now rewrite H.
Qed.

Lemma QCQP3_body_feasible res p r :
  (QCQP3_det p nzero <? eps10) = false ->
  (QCQP3_val p r nzero <? eps10) = true ->
  QCQP3_body res p r QCQP3_init
  = Break {| q3_la := nzero;
             q3_v1 := Some (fst (fst (QCQP3_v p nzero)));
             q3_v2 := Some (snd (fst (QCQP3_v p nzero)));
             q3_v3 := Some (snd (QCQP3_v p nzero)) |}.
Proof.
  unfold QCQP3_body, QCQP3_val, QCQP3_v, QCQP3_det. simpl q3_la.
  destruct (QCQP3_cof p nzero) as [[[[[P11 P22] P33] P12] P13] P23].
  intros -> H. now rewrite H.
Qed.

(** What the body of either loop returns is a written result, never the
    read of an unassigned local. *)
Lemma iterate_inr_QRet2 res p r K s out :
  iterate K (QCQP2_body res p r) s = inr out ->
  exists x f, out = QRet x f.
Proof.
  revert s. induction K as [|K IH]; intros s H; [discriminate|].
  simpl in H. destruct (QCQP2_body res p r s) as [s1|s1|o] eqn:E.
  - now apply (IH s1).
  - discriminate.
  - injection H as <-. unfold QCQP2_body in E.
    destruct (nltb _ eps10); [injection E as <-; eauto|].
    destruct (nltb _ eps10); [discriminate|].
    destruct (nltb _ eps10); discriminate.
Qed.

Lemma iterate_inr_QRet3 res p r K s out :
  iterate K (QCQP3_body res p r) s = inr out ->
  exists x f, out = QRet x f.
Proof.
  revert s. induction K as [|K IH]; intros s H; [discriminate|].
  simpl in H. destruct (QCQP3_body res p r s) as [s1|s1|o] eqn:E.
  - now apply (IH s1).
  - discriminate.
  - injection H as <-. unfold QCQP3_body in E.
    destruct (QCQP3_cof p (q3_la s)) as [[[[[P11 P22] P33] P12] P13] P23].
    destruct (nltb _ eps10); [injection E as <-; eauto|].
    destruct (nltb _ eps10); [discriminate|].
    destruct (nltb _ eps10); discriminate.
Qed.

Lemma nonzero_zero : nonzero nzero = false.
Proof. unfold nonzero. now rewrite neqb_zero. Qed.

End QCQPFacts.

Lemma for_down_ind {St} (P : St -> Prop) (body : Z -> St -> St) (k : nat)
    (hi : Z) (s : St) :
  P s ->
  (forall i t, hi - Z.of_nat k < i <= hi -> P t -> P (body i t)) ->
  P (for_down k hi body s).
Proof.
  revert hi s. induction k as [|k IH]; intros hi s Hs Hstep; [exact Hs|].
  simpl. apply IH.
  - apply Hstep; [lia | exact Hs].
  - intros i t Hi. apply Hstep. lia.
Qed.

Lemma mju_copy_length {N : Num} (res vec : list num) (n : Z) :
  length (mju_copy res vec n) = length res.
Proof.
  unfold mju_copy.
  apply (for_range_ind (fun l => length l = length res)); [done|].
  intros i t _ Ht. now rewrite wr_length.
Qed.

Lemma mju_scl_length {N : Num} (res vec : list num) (scl : num) (n : Z) :
  length (mju_scl res vec scl n) = length res.
Proof.
  unfold mju_scl.
  apply (for_range_ind (fun l => length l = length res)); [done|].
  intros i t _ Ht. now rewrite wr_length.
Qed.

Lemma mju_cholSolve_length {N : Num} mju_dot (res mat : list num) vec n :
  length (mju_cholSolve mju_dot res mat vec n) = length res.
Proof.
  unfold mju_cholSolve.
  apply (for_down_ind (fun l => length l = length res)).
  - apply (for_range_ind (fun l => length l = length res)).
    + destruct vec; [apply mju_copy_length | done].
    + intros i t _ Ht. unfold cholSolve_fwd.
      rewrite wr_length. destruct (i =? 0); [done|]. now rewrite wr_length.
  - intros i t _ Ht. unfold cholSolve_bwd. rewrite wr_length.
    destruct (i <? n - 1); [|done].
    apply (for_range_ind (fun l => length l = length res)); [done|].
    intros j u _ Hu. now rewrite wr_length.
Qed.

Lemma QCQP_body_res_length {N : Num} mju_dot A b r n s s' :
  QCQP_body mju_dot A b r n s = Continue s' ->
  length (qn_res s') = length (qn_res s).
Proof.
  unfold QCQP_body. destruct (mju_cholFactor _ _ _ _) as [Ala rank].
  destruct (rank <? n); [discriminate|].
  destruct (nltb _ eps10); [discriminate|].
  destruct (nltb _ eps10); [discriminate|].
  intros H. injection H as <-. simpl.
  now rewrite mju_scl_length, mju_cholSolve_length.
Qed.

Lemma QCQP_head_res_length {N : Num} mju_dot A b r n k s0 s :
  iter_head k (QCQP_body mju_dot A b r n) s0 = Some s ->
  length (qn_res s) = length (qn_res s0).
Proof.
  revert s0. induction k as [|k IH]; intros s0 H; simpl in H.
  - now injection H as ->.
  - destruct (QCQP_body mju_dot A b r n s0) as [s1|s1|r1] eqn:E;
      try discriminate.
    rewrite (IH _ H). eapply QCQP_body_res_length, E.
Qed.

(** C3. In each QCQP routine, when the test of positive-definiteness fails
    at the head of some Newton iteration the loop reaches
    ([det(A+la) < 1e-10] in [mju_QCQP2] and [mju_QCQP3], a Cholesky rank
    below [n] with [mindiag = 1e-10] in [mju_QCQP], called with [n <= 5]),
    the routine returns flag 0 with zeros written into [res]. *)
Theorem QCQP_not_definite_returns_zero {N : Num}
    (mju_dot : list num -> list num -> Z -> num) :
  (forall (res Ain bin d : list num) (r : num) (k : nat) (s : qcqp2_state),
      (k < 20)%nat ->
      iter_head k (QCQP2_body res (QCQP2_scale Ain bin d) r) QCQP2_init
      = Some s ->
      (QCQP2_det (QCQP2_scale Ain bin d) (q2_la s) <? eps10)%num = true ->
      mju_QCQP2 res Ain bin d r = QRet (wr (wr res 0 nzero) 1 nzero) 0)
  /\ (forall (res Ain bin d : list num) (r : num) (k : nat)
             (s : qcqp3_state),
      (k < 20)%nat ->
      iter_head k (QCQP3_body res (QCQP3_scale Ain bin d) r) QCQP3_init
      = Some s ->
      (QCQP3_det (QCQP3_scale Ain bin d) (q3_la s) <? eps10)%num = true ->
      mju_QCQP3 res Ain bin d r
      = QRet (wr (wr (wr res 0 nzero) 1 nzero) 2 nzero) 0)
  /\ (forall (res Ain bin d : list num) (r : num) (n : Z) (k : nat)
             (s : qcqp_state),
      n <= 5 -> (k < 20)%nat ->
      iter_head k
        (QCQP_body mju_dot (fst (QCQP_scale Ain bin d n))
                   (snd (QCQP_scale Ain bin d n)) r n) (QCQP_init res)
      = Some s ->
      snd (mju_cholFactor mju_dot
             (QCQP_Ala (fst (QCQP_scale Ain bin d n)) (qn_Ala s) (qn_la s) n)
             n eps10) < n ->
      mju_QCQP mju_dot res Ain bin d r n = QRet (mju_zero (qn_res s) n) 0
      /\ length (mju_zero (qn_res s) n) = length res
      /\ forall i, 0 <= i < n -> i < Z.of_nat (length res) ->
           rd (mju_zero (qn_res s) n) i = nzero).
Proof.
  split; [|split].
  - intros res Ain bin d r k s Hk Hhead Hdet. unfold mju_QCQP2.
    erewrite iterate_return;
      [reflexivity | exact Hk | exact Hhead
       | now apply QCQP2_body_return].
  - intros res Ain bin d r k s Hk Hhead Hdet. unfold mju_QCQP3.
    erewrite iterate_return;
      [reflexivity | exact Hk | exact Hhead
       | now apply QCQP3_body_return].
  - intros res Ain bin d r n k s Hn Hk Hhead Hrank.
    pose proof (QCQP_head_res_length _ _ _ _ _ _ _ _ Hhead) as Hlen.
    simpl in Hlen. split; [|split].
    + unfold mju_QCQP. rewrite (proj2 (Z.ltb_ge 5 n) Hn).
      destruct (QCQP_scale Ain bin d n) as [A b]. cbn [fst snd] in *.
      erewrite iterate_return;
        [reflexivity | exact Hk | exact Hhead
         | now apply QCQP_body_return].
    + now rewrite mju_zero_length.
    + intros i Hi Hil. apply mju_zero_rd; [exact Hi | lia].
Qed.

(** The zero matrix is not positive definite: the first iteration of
    [mju_QCQP2] and of [mju_QCQP] fails the test, and each answers with
    flag 0 and zeros. *)
Lemma QCQP_not_definite_returns_zero_witness :
  mju_QCQP2 (N:=Float64) [7; 7]%float [0; 0; 0; 0]%float [1; 0]%float
            [1; 1]%float 1%float
  = QRet [0; 0]%float 0
  /\ mju_QCQP (N:=Float64) dot_seq [7; 7]%float [0; 0; 0; 0]%float
              [1; 0]%float [1; 1]%float 1%float 2
     = QRet [0; 0]%float 0.
Proof.
  destruct (QCQP_not_definite_returns_zero (N:=Float64) dot_seq)
    as (H2 & _ & Hn).
  split.
  - pose proof (H2 ([7; 7]%float : list (@num Float64))
                  ([0; 0; 0; 0]%float : list (@num Float64))
                  ([1; 0]%float : list (@num Float64))
                  ([1; 1]%float : list (@num Float64))
                  (1%float : @num Float64) 0%nat QCQP2_init) as Hres.
    etransitivity;
      [apply Hres; [lia | reflexivity | vm_compute; reflexivity]|].
    vm_compute. reflexivity.
  - destruct (Hn ([7; 7]%float : list (@num Float64))
                ([0; 0; 0; 0]%float : list (@num Float64))
                ([1; 0]%float : list (@num Float64))
                ([1; 1]%float : list (@num Float64))
                (1%float : @num Float64) 2 0%nat
                (QCQP_init ([7; 7]%float : list (@num Float64))))
      as (Hres & _); [lia | lia | reflexivity | vm_compute; reflexivity |].
    etransitivity; [exact Hres|]. vm_compute. reflexivity.
Defined.

(** C8. On [A = [2 0; 0 2]], [b = [4 0]], [d = [1 1]], [r = 1], in binary64
    arithmetic, [mju_QCQP2] returns flag 1 and a result within [1e-10] of
    [[-1, 0]], lying on the unit circle to within [1e-10]. *)
Theorem mju_QCQP2_scenario (res0 res1 : float) :
  exists x0 x1 : float,
    mju_QCQP2 (N:=Float64) [res0; res1] [2; 0; 0; 2]%float [4; 0]%float
              [1; 1]%float 1%float
    = QRet [x0; x1] 1
    /\ PrimFloat.ltb (PrimFloat.abs (x0 - (-1))) 1e-10 = true
    /\ PrimFloat.ltb (PrimFloat.abs (x1 - 0)) 1e-10 = true
    /\ PrimFloat.ltb (PrimFloat.abs (x0 * x0 + x1 * x1 - 1 * 1)) 1e-10
       = true.
Proof.
  exists (-1.0000000000022891)%float, 0%float.
  repeat split; vm_compute; reflexivity.
Qed.

(** C10. In [mju_QCQP2] and [mju_QCQP3] the first pass through the body of
    the Newton loop is always made, and every way out of the loop towards
    the final unscaling goes through an executed iteration, which assigned
    [v1], [v2] (and [v3]) from the multiplier it started with, so the
    routine never reads them unassigned; and when the first iteration
    (at [la = 0]) passes the determinant test and finds [val < 1e-10], the
    routine returns the unconstrained minimiser [-inv(A)*b] of the scaled
    problem, unscaled by [d], with flag 0. *)
Theorem QCQP_locals_assigned {N : Num} :
  (forall (res Ain bin d : list num) (r : num),
      let p := QCQP2_scale Ain bin d in
      iterate 20 (QCQP2_body res p r) QCQP2_init
      = match QCQP2_body res p r QCQP2_init with
        | Continue s' => iterate 19 (QCQP2_body res p r) s'
        | Break s' => inl s'
        | Return out => inr out
        end
      /\ (forall s, iterate 20 (QCQP2_body res p r) QCQP2_init = inl s ->
         exists k s0, (k < 20)%nat
           /\ iter_head k (QCQP2_body res p r) QCQP2_init = Some s0
           /\ q2_v1 s = Some (fst (QCQP2_v p (q2_la s0)))
           /\ q2_v2 s = Some (snd (QCQP2_v p (q2_la s0))))
      /\ mju_QCQP2 res Ain bin d r <> QUninit
      /\ ((QCQP2_det p nzero <? eps10)%num = false ->
          (QCQP2_val p r nzero <? eps10)%num = true ->
          mju_QCQP2 res Ain bin d r
          = QRet (wr (wr res 0 (fst (QCQP2_v p nzero) * rd d 0)%num)
                     1 (snd (QCQP2_v p nzero) * rd d 1)%num) 0))
  /\ (forall (res Ain bin d : list num) (r : num),
      let p := QCQP3_scale Ain bin d in
      iterate 20 (QCQP3_body res p r) QCQP3_init
      = match QCQP3_body res p r QCQP3_init with
        | Continue s' => iterate 19 (QCQP3_body res p r) s'
        | Break s' => inl s'
        | Return out => inr out
        end
      /\ (forall s, iterate 20 (QCQP3_body res p r) QCQP3_init = inl s ->
         exists k s0, (k < 20)%nat
           /\ iter_head k (QCQP3_body res p r) QCQP3_init = Some s0
           /\ q3_v1 s = Some (fst (fst (QCQP3_v p (q3_la s0))))
           /\ q3_v2 s = Some (snd (fst (QCQP3_v p (q3_la s0))))
           /\ q3_v3 s = Some (snd (QCQP3_v p (q3_la s0))))
      /\ mju_QCQP3 res Ain bin d r <> QUninit
      /\ ((QCQP3_det p nzero <? eps10)%num = false ->
          (QCQP3_val p r nzero <? eps10)%num = true ->
          mju_QCQP3 res Ain bin d r
          = QRet (wr (wr (wr res 0 (fst (fst (QCQP3_v p nzero)) * rd d 0)%num)
                         1 (snd (fst (QCQP3_v p nzero)) * rd d 1)%num)
                     2 (snd (QCQP3_v p nzero) * rd d 2)%num) 0)).
Proof.
  split.
  - intros res Ain bin d r p.
    assert (forall s, iterate 20 (QCQP2_body res p r) QCQP2_init = inl s ->
              exists k s0, (k < 20)%nat
                /\ iter_head k (QCQP2_body res p r) QCQP2_init = Some s0
                /\ q2_v1 s = Some (fst (QCQP2_v p (q2_la s0)))
                /\ q2_v2 s = Some (snd (QCQP2_v p (q2_la s0)))) as Hpath.
    { intros s Hs.
      destruct (iterate_left _ 20 _ _ ltac:(lia) Hs)
        as (k & s0 & Hk & Hhead & Hbody).
      exists k, s0. split; [exact Hk|]. split; [exact Hhead|].
      now apply (QCQP2_body_assigns res p r). }
    split; [reflexivity|]. split; [exact Hpath|]. split.
    + unfold mju_QCQP2. fold p.
      destruct (iterate 20 (QCQP2_body res p r) QCQP2_init) as [s|out] eqn:E.
      * destruct (Hpath s eq_refl) as (k & s0 & _ & _ & H1 & H2).
        unfold QCQP2_finish. now rewrite H1, H2.
      * destruct (iterate_inr_QRet2 res p r 20 QCQP2_init out E) as (x & f & ->).
        discriminate.
    + intros Hdet Hval. unfold mju_QCQP2. fold p.
      change (iterate 20 (QCQP2_body res p r) QCQP2_init)
        with (match QCQP2_body res p r QCQP2_init with
              | Continue s' => iterate 19 (QCQP2_body res p r) s'
              | Break s' => inl s'
              | Return out => inr out
              end).
      rewrite (QCQP2_body_feasible res p r Hdet Hval).
      unfold QCQP2_finish. simpl. now rewrite nonzero_zero.
  - intros res Ain bin d r p.
    assert (forall s, iterate 20 (QCQP3_body res p r) QCQP3_init = inl s ->
              exists k s0, (k < 20)%nat
                /\ iter_head k (QCQP3_body res p r) QCQP3_init = Some s0
                /\ q3_v1 s = Some (fst (fst (QCQP3_v p (q3_la s0))))
                /\ q3_v2 s = Some (snd (fst (QCQP3_v p (q3_la s0))))
                /\ q3_v3 s = Some (snd (QCQP3_v p (q3_la s0)))) as Hpath.
    { intros s Hs.
      destruct (iterate_left _ 20 _ _ ltac:(lia) Hs)
        as (k & s0 & Hk & Hhead & Hbody).
      exists k, s0. split; [exact Hk|]. split; [exact Hhead|].
      now apply (QCQP3_body_assigns res p r). }
    split; [reflexivity|]. split; [exact Hpath|]. split.
    + unfold mju_QCQP3. fold p.
      destruct (iterate 20 (QCQP3_body res p r) QCQP3_init) as [s|out] eqn:E.
      * destruct (Hpath s eq_refl) as (k & s0 & _ & _ & H1 & H2 & H3).
        unfold QCQP3_finish. now rewrite H1, H2, H3.
      * destruct (iterate_inr_QRet3 res p r 20 QCQP3_init out E) as (x & f & ->).
        discriminate.
    + intros Hdet Hval. unfold mju_QCQP3. fold p.
      change (iterate 20 (QCQP3_body res p r) QCQP3_init)
        with (match QCQP3_body res p r QCQP3_init with
              | Continue s' => iterate 19 (QCQP3_body res p r) s'
              | Break s' => inl s'
              | Return out => inr out
              end).
      rewrite (QCQP3_body_feasible res p r Hdet Hval).
      unfold QCQP3_finish. simpl. now rewrite nonzero_zero.
Qed.

(** C10, run: with [b = [1 0]] the minimiser [[-0.5, 0]] of the scaled
    problem is inside the unit circle and is what [mju_QCQP2] returns,
    with flag 0. *)
Lemma QCQP_locals_assigned_witness :
  mju_QCQP2 (N:=Float64) [0; 0]%float [2; 0; 0; 2]%float [1; 0]%float
            [1; 1]%float 1%float
  = QRet [-0.5; 0]%float 0.
Proof.
  destruct (QCQP_locals_assigned (N:=Float64)) as [H2 _].
  destruct (H2 ([0; 0]%float : list (@num Float64))
              ([2; 0; 0; 2]%float : list (@num Float64))
              ([1; 0]%float : list (@num Float64))
              ([1; 1]%float : list (@num Float64))
              (1%float : @num Float64)) as (_ & _ & _ & Hfeas).
  etransitivity; [apply Hfeas; vm_compute; reflexivity|].
  vm_compute. reflexivity.
Defined.

(* ================================================================= *)
(** ** [mju_eig3]: the sorting pass *)






Section Eig3Facts.
Context {N : Num}.
Variable mju_quat2Mat : list num -> list num -> list num.
Variable mju_mulMatTMat :
  list num -> list num -> list num -> Z -> Z -> Z -> list num.
Variable mju_mulMatMat :
  list num -> list num -> list num -> Z -> Z -> Z -> list num.
Variable mju_normalize4 : list num -> list num.
Variable mju_mulQuat : list num -> list num -> list num -> list num.
Variable mju_copy4 : list num -> list num -> list num.

Abbreviation sort_step :=
  (eig3_sort_step mju_normalize4 mju_mulQuat mju_copy4).
Abbreviation jacobi_body :=
  (eig3_body mju_quat2Mat mju_mulMatTMat mju_mulMatMat mju_normalize4
             mju_mulQuat mju_copy4).






End Eig3Facts.




(* ================================================================= *)
(** ** The row merge of [mju_factorLUSparse] *)

Section SparseLUFacts.
Context {N : Num}.



Variable colind : list Z.
Variable LUji : num.
Variables ibeg iend jbeg jend : Z.

(** Row [i] ascends from [ibeg] up to and including the cell [iend] (its
    diagonal), row [j] ascends over [[jbeg, jend)], and the columns of
    these cells of row [j] precede the column at [iend]. *)
Hypothesis asc_i :
  forall a b, ibeg <= a -> a < b -> b <= iend -> rd colind a < rd colind b.
Hypothesis asc_j :
  forall a b, jbeg <= a -> a < b -> b < jend -> rd colind a < rd colind b.
Hypothesis below_diag :
  forall m, jbeg <= m < jend -> rd colind m < rd colind iend.


End SparseLUFacts.




(* ================================================================= *)
(** ** Loops with an error exit *)

Lemma for_up_m_snoc {St} (k : nat) (i : Z) (body : Z -> St -> outcome St)
    (s : St) :
  for_up_m (S k) i body s
  = match for_up_m k i body s with
    | Done s' => body (i + Z.of_nat k) s'
    | Fatal msg s' => Fatal msg s'
    end.
Proof.
  revert i s. induction k as [|k IH]; intros i s.
  - simpl. rewrite Z.add_0_r. now destruct (body i s).
  - change (for_up_m (S (S k)) i body s)
      with (match body i s with
            | Done s' => for_up_m (S k) (i + 1) body s'
            | Fatal msg s' => Fatal msg s'
            end).
    simpl for_up_m at 2. destruct (body i s) as [s'|msg s']; [|reflexivity].
    rewrite IH. replace (i + 1 + Z.of_nat k) with (i + Z.of_nat (S k)) by lia.
    reflexivity.
Qed.

(* ================================================================= *)
(** ** [mju_cholFactorSparse]: the rows are checked before any value
    changes *)

Section SparseCholFacts.
Context {N : Num}.
Variable mju_combineSparse :
  list num -> list num -> Z -> num -> num -> Z -> Z -> list Z -> list Z ->
  list num * list Z * Z.

(** Shrunk, row [r] is empty or does not end at column [r]. *)
Definition no_diagonal (rownnz rowadr colind : list Z) (r : Z) : Prop :=
  let nnz := shrunk_nnz rownnz rowadr colind r in
  nnz = 0 \/ rd colind (rd rowadr r + nnz - 1) <> r.

Lemma no_diagonal_test rownnz rowadr colind r :
  let nnz := shrunk_nnz rownnz rowadr colind r in
  (nnz =? 0) || negb (rd colind (rd rowadr r + nnz - 1) =? r) = true
  <-> no_diagonal rownnz rowadr colind r.
Proof.
  unfold no_diagonal. cbv zeta.
  rewrite orb_true_iff, negb_true_iff, Z.eqb_eq, Z.eqb_neq. reflexivity.
Qed.

Lemma shrink_row_spec (k : nat) (colind : list Z) (adr r nnz : Z) :
  nnz <= Z.of_nat k -> 0 <= nnz ->
  let nnz' := shrink_row k colind adr r nnz in
  0 <= nnz' <= nnz
  /\ (0 < nnz' -> rd colind (adr + nnz' - 1) <= r)
  /\ forall q, nnz' <= q < nnz -> r < rd colind (adr + q).
Proof.
  revert nnz. induction k as [|k IH]; intros nnz Hk Hnnz; simpl.
  - split; [lia|]. split; [lia|]. intros q Hq. lia.
  - destruct (Z.ltb_spec 0 nnz) as [Hpos|Hzero]; simpl.
    + destruct (Z.ltb_spec r (rd colind (adr + nnz - 1))) as [Hgt|Hle].
      * destruct (IH (nnz - 1) ltac:(lia) ltac:(lia)) as (H1 & H2 & H3).
        split; [lia|]. split; [exact H2|].
        intros q Hq. destruct (decide (q = nnz - 1)) as [->|Hne].
        -- now replace (adr + (nnz - 1)) with (adr + nnz - 1) by lia.
        -- apply H3. lia.
      * split; [lia|]. split; [intros _; exact Hle|]. intros q Hq. lia.
    + split; [lia|]. split; [lia|]. intros q Hq. lia.
Qed.

Lemma shrunk_nnz_ext rownnz rownnz' rowadr colind r :
  rd rownnz' r = rd rownnz r ->
  shrunk_nnz rownnz' rowadr colind r = shrunk_nnz rownnz rowadr colind r.
Proof. unfold shrunk_nnz. now intros ->. Qed.

(** The state after the first [k] rows were shrunk and checked. *)
Lemma cholFactorSparse_check_spec mat n rownnz rowadr colind pstack
    (k : nat) :
  Z.of_nat k <= Z.of_nat (length rownnz) ->
  match for_up_m k 0 (cholFactorSparse_shrink rowadr)
          (enter_sparse mat [] rownnz colind [] n pstack) with
  | Done s =>
      cs_mat s = mat /\ cs_colind s = colind
      /\ cs_pstack s = pstack + n + n
      /\ length (cs_rownnz s) = length rownnz
      /\ (forall r, 0 <= r < Z.of_nat k ->
            rd (cs_rownnz s) r = shrunk_nnz rownnz rowadr colind r
            /\ ~ no_diagonal rownnz rowadr colind r)
      /\ (forall r, Z.of_nat k <= r -> rd (cs_rownnz s) r = rd rownnz r)
  | Fatal msg s =>
      msg = "Matrix must have non-zero diagonal in mju_cholFactorSparse"%string
      /\ cs_mat s = mat /\ cs_colind s = colind
      /\ cs_pstack s = pstack + n + n
      /\ exists r, 0 <= r < Z.of_nat k
           /\ no_diagonal rownnz rowadr colind r
  end.
Proof.
  induction k as [|k IH]; intros Hk.
  - simpl. unfold mj_stackAlloc. repeat split; try lia.
  - rewrite for_up_m_snoc, Z.add_0_l.
    specialize (IH ltac:(lia)).
    destruct (for_up_m k 0 _ _) as [s|msg s].
    + destruct IH as (Hmat & Hcol & Hps & Hlen & Hlow & Hhigh).
      unfold cholFactorSparse_shrink. cbn [cs_colind cs_rownnz].
      rewrite Hcol.
      rewrite (shrunk_nnz_ext rownnz (cs_rownnz s) rowadr colind
                 (Z.of_nat k) (Hhigh (Z.of_nat k) ltac:(lia))).
      pose proof (no_diagonal_test rownnz rowadr colind (Z.of_nat k)) as Ht.
      cbv zeta in Ht.
      destruct ((_ =? 0) || negb (_ =? Z.of_nat k)) eqn:E.
      * cbn [cs_mat cs_colind cs_pstack].
        split; [reflexivity|]. split; [exact Hmat|]. split; [reflexivity|].
        split; [exact Hps|]. exists (Z.of_nat k). split; [lia|].
        now apply Ht.
      * cbn [cs_mat cs_colind cs_pstack cs_rownnz].
        split; [exact Hmat|]. split; [reflexivity|]. split; [exact Hps|].
        split; [now rewrite wr_length|]. split.
        -- intros r Hr. destruct (decide (r = Z.of_nat k)) as [->|Hne].
           ++ rewrite rd_wr_eq by lia. split; [reflexivity|].
              intros Hbad. apply Ht in Hbad. congruence.
           ++ rewrite rd_wr_ne by lia. apply Hlow. lia.
        -- intros r Hr. rewrite rd_wr_ne by lia. apply Hhigh. lia.
    + destruct IH as (Hmsg & Hmat & Hcol & Hps & r & Hr & Hbad).
      repeat split; try assumption. exists r. split; [lia | exact Hbad].
Qed.

End SparseCholFacts.

(** C7. [mju_cholFactorSparse] first shrinks every row so that its last
    stored cell is its diagonal; when some row, shrunk, is empty or does
    not end at its own column the routine stops in [mju_error] with [mat]
    as it was handed; otherwise the loop ends with every row ending at its
    diagonal, the dropped cells being those of larger columns, with [mat]
    unchanged, and only then does the backpass start. *)
Theorem cholFactorSparse_checks_diagonal {N : Num}
    (mju_combineSparse :
       list num -> list num -> Z -> num -> num -> Z -> Z -> list Z -> list Z ->
       list num * list Z * Z)
    (mat : list num) (n : Z) (mindiag : num)
    (rownnz rowadr colind : list Z) (pstack : Z) :
  0 <= n <= Z.of_nat (length rownnz) ->
  (forall r, 0 <= r < n -> 0 <= rd rownnz r) ->
  ((exists r, 0 <= r < n /\ no_diagonal rownnz rowadr colind r) ->
   exists s,
     mju_cholFactorSparse mju_combineSparse mat n mindiag rownnz rowadr
                          colind pstack
     = Fatal "Matrix must have non-zero diagonal in mju_cholFactorSparse" s
     /\ cs_mat s = mat /\ cs_colind s = colind)
  /\ ((forall r, 0 <= r < n -> ~ no_diagonal rownnz rowadr colind r) ->
      exists s1,
        cholFactorSparse_check mat n rownnz rowadr colind pstack = Done s1
        /\ cs_mat s1 = mat /\ cs_colind s1 = colind
        /\ (forall r, 0 <= r < n ->
              let nnz := rd (cs_rownnz s1) r in
              0 < nnz <= rd rownnz r
              /\ rd colind (rd rowadr r + nnz - 1) = r
              /\ forall q, nnz <= q < rd rownnz r ->
                   r < rd colind (rd rowadr r + q))
        /\ mju_cholFactorSparse mju_combineSparse mat n mindiag rownnz rowadr
                                colind pstack
           = Done (free_stack pstack
                     (for_down (Z.to_nat n) (n - 1)
                        (cholFactorSparse_row mju_combineSparse mindiag
                                              rowadr) s1))).
Proof.
  intros Hn Hnnz.
  pose proof (cholFactorSparse_check_spec mat n rownnz rowadr colind pstack
                (Z.to_nat n) ltac:(lia)) as Hspec.
  unfold mju_cholFactorSparse, cholFactorSparse_check.
  destruct (for_up_m (Z.to_nat n) 0 _ _) as [s|msg s].
  - destruct Hspec as (Hmat & Hcol & Hps & Hlen & Hlow & Hhigh). split.
    + intros (r & Hr & Hbad). exfalso.
      now apply (proj2 (Hlow r ltac:(lia))).
    + intros _. exists s. split; [reflexivity|].
      split; [exact Hmat|]. split; [exact Hcol|]. split; [|reflexivity].
      intros r Hr. cbv zeta.
      destruct (Hlow r ltac:(lia)) as [-> Hok].
      pose proof (shrink_row_spec (Z.to_nat (rd rownnz r)) colind
                    (rd rowadr r) r (rd rownnz r)
                    ltac:(specialize (Hnnz r Hr); lia) (Hnnz r Hr))
        as (H1 & H2 & H3).
      fold (shrunk_nnz rownnz rowadr colind r) in H1, H2, H3.
      unfold no_diagonal in Hok. cbv zeta in Hok.
      split; [|split].
      * destruct (decide (shrunk_nnz rownnz rowadr colind r = 0)); [|lia].
        exfalso. apply Hok. now left.
      * destruct (decide (rd colind (rd rowadr r
                              + shrunk_nnz rownnz rowadr colind r - 1) = r));
          [assumption|]. exfalso. apply Hok. now right.
      * exact H3.
  - destruct Hspec as (-> & Hmat & Hcol & Hps & r & Hr & Hbad). split.
    + intros _. exists s. repeat split; assumption.
    + intros Hall. exfalso. apply (Hall r ltac:(lia)). exact Hbad.
Qed.

(** The 2x2 pattern whose row 0 holds column 1 only has no diagonal in row
    0: the routine stops with [mat] untouched.  The full 2x2 pattern
    passes the check, row 0 shrunk to its diagonal. *)
Lemma cholFactorSparse_checks_diagonal_witness :
  (exists s,
     mju_cholFactorSparse (N:=Float64) Sparse.combineSparse [2; 3]%float 2
                          1e-10%float [1; 1] [0; 1] [1; 1] 100
     = Fatal "Matrix must have non-zero diagonal in mju_cholFactorSparse" s
     /\ cs_mat s = [2; 3]%float /\ cs_colind s = [1; 1])
  /\ (exists s1,
       cholFactorSparse_check (N:=Float64) [4; 2; 2; 3]%float 2 [2; 2]
                              [0; 2] [0; 1; 0; 1] 100 = Done s1
       /\ cs_mat s1 = [4; 2; 2; 3]%float /\ cs_rownnz s1 = [1; 2]).
Proof.
  split.
  - apply (cholFactorSparse_checks_diagonal (N:=Float64)
             Sparse.combineSparse [2; 3]%float 2 1e-10%float [1; 1] [0; 1]
             [1; 1] 100).
    + simpl. lia.
    + intros r Hr. assert (r = 0 \/ r = 1) as [-> | ->] by lia; vm_compute;
        discriminate.
    + exists 0. split; [lia|]. left. reflexivity.
  - destruct (cholFactorSparse_checks_diagonal (N:=Float64)
                Sparse.combineSparse [4; 2; 2; 3]%float 2 1e-10%float [2; 2]
                [0; 2] [0; 1; 0; 1] 100) as [_ Hok].
    + simpl. lia.
    + intros r Hr. assert (r = 0 \/ r = 1) as [-> | ->] by lia; vm_compute;
        discriminate.
    + destruct Hok as (s1 & Hs1 & Hmat & _).
      * intros r Hr [H0 | Hne];
          assert (r = 0 \/ r = 1) as [-> | ->] by lia;
          vm_compute in H0 || vm_compute in Hne;
          first [discriminate | now apply Hne].
      * exists s1. split; [exact Hs1|]. split; [exact Hmat|].
        vm_compute in Hs1. now injection Hs1 as <-.
Defined.

(* ================================================================= *)
(** ** The sparse routines: the pattern and the arena *)

Section ArenaFacts.
Context {N : Num}.
Variable mju_combineSparse :
  list num -> list num -> Z -> num -> num -> Z -> Z -> list Z -> list Z ->
  list num * list Z * Z.

Definition outcome_pstack (o : outcome chol_state) : Z :=
  match o with Done s => cs_pstack s | Fatal _ s => cs_pstack s end.

Lemma cholFactorSparse_shrink_pstack rowadr k i s :
  outcome_pstack (for_up_m k i (cholFactorSparse_shrink rowadr) s)
  = cs_pstack s.
Proof.
  revert i s. induction k as [|k IH]; intros i s; [reflexivity|].
  simpl. unfold cholFactorSparse_shrink at 1. cbv zeta.
  destruct (_ || _); [reflexivity|]. now rewrite IH.
Qed.

Lemma cholUpdateSparse_row_fields flg n rownnz rowadr i s :
  let s1 := fst (fst (fst (cholUpdateSparse_row mju_combineSparse flg n
                             rownnz rowadr i s))) in
  cs_pstack s1 = cs_pstack s /\ cs_rownnz s1 = cs_rownnz s.
Proof.
  unfold cholUpdateSparse_row. destruct (nltb _ mjMINVAL);
    destruct (mju_combineSparse _ _ _ _ _ _ _ _ _) as [[dst dst_ind] nn];
    now simpl.
Qed.

Lemma cholUpdateSparse_step_fields flg n rownnz rowadr i s :
  match cholUpdateSparse_step mju_combineSparse flg n rownnz rowadr i s with
  | Done (s', _) | Fatal _ (s', _) =>
      cs_pstack s' = cs_pstack s /\ cs_rownnz s' = cs_rownnz s
  end.
Proof.
  unfold cholUpdateSparse_step.
  pose proof (cholUpdateSparse_row_fields flg n rownnz rowadr i s) as H.
  cbv zeta in H.
  destruct (cholUpdateSparse_row _ _ _ _ _ _ _) as [[[s1 nn] c] sn].
  simpl in H. destruct (negb _); [exact H|].
  destruct (mju_combineSparse _ _ _ _ _ _ _ _ _) as [[x x_ind] nx].
  exact H.
Qed.

Lemma cholUpdateSparse_loop_fields fuel flg n rownnz rowadr i s :
  match cholUpdateSparse_loop mju_combineSparse fuel flg n rownnz rowadr
          i s with
  | Some (Done s') | Some (Fatal _ s') =>
      cs_pstack s' = cs_pstack s /\ cs_rownnz s' = cs_rownnz s
  | None => True
  end.
Proof.
  revert i s. induction fuel as [|fuel IH]; intros i s; simpl.
  - now destruct (i <? 0).
  - destruct (i <? 0); [done|].
    pose proof (cholUpdateSparse_step_fields flg n rownnz rowadr i s) as Hs.
    destruct (cholUpdateSparse_step _ _ _ _ _ _ _) as [[s1 i1]|msg [s1 i1]];
      [|exact Hs].
    specialize (IH i1 s1). destruct Hs as [Hp Hr].
    destruct (cholUpdateSparse_loop _ _ _ _ _ _ _ _) as [[s2|msg s2]|];
      [| |exact I]; destruct IH as [-> ->]; now split.
Qed.

Lemma cholUpdateSparse_step_cases flg n rownnz rowadr i s :
  let nn := snd (fst (fst (cholUpdateSparse_row mju_combineSparse flg n
                             rownnz rowadr i s))) in
  (nn = rd rownnz (rd (cs_x_ind s) i) - 1
   /\ exists s' i',
        cholUpdateSparse_step mju_combineSparse flg n rownnz rowadr i s
        = Done (s', i'))
  \/ (nn <> rd rownnz (rd (cs_x_ind s) i) - 1
      /\ exists s',
           cholUpdateSparse_step mju_combineSparse flg n rownnz rowadr i s
           = Fatal "Varying sparsity pattern in mju_cholUpdateSparse"
                   (s', i)).
Proof.
  unfold cholUpdateSparse_step.
  destruct (cholUpdateSparse_row _ _ _ _ _ _ _) as [[[s1 nn] c] sn].
  cbn [fst snd].
  destruct (Z.eqb_spec nn (rd rownnz (rd (cs_x_ind s) i) - 1))
    as [Heq|Hne]; cbn [negb].
  - left. split; [exact Heq|].
    destruct (mju_combineSparse _ _ _ _ _ _ _ _ _) as [[x x_ind] nx].
    eauto.
  - right. split; [exact Hne|]. eauto.
Qed.

(** The loop stops in [mju_error] exactly at a row whose combine returned
    a count other than the row's, and not before. *)
Lemma cholUpdateSparse_loop_rows fuel flg n rownnz rowadr i s :
  let rows := cholUpdateSparse_rows mju_combineSparse fuel flg n rownnz
                rowadr i s in
  let kept := fun v : Z * Z => snd v = rd rownnz (fst v) - 1 in
  match cholUpdateSparse_loop mju_combineSparse fuel flg n rownnz rowadr
          i s with
  | Some (Done _) => Forall kept rows
  | Some (Fatal msg _) =>
      msg = "Varying sparsity pattern in mju_cholUpdateSparse"%string
      /\ exists pre v, rows = pre ++ [v] /\ Forall kept pre /\ ~ kept v
  | None => Forall kept rows
  end.
Proof.
  revert i s. induction fuel as [|fuel IH]; intros i s; simpl.
  - destruct (i <? 0); constructor.
  - destruct (i <? 0); [constructor|].
    destruct (cholUpdateSparse_step_cases flg n rownnz rowadr i s)
      as [(Heq & s' & i' & Hstep) | (Hne & s' & Hstep)]; rewrite Hstep.
    + specialize (IH i' s'). cbv zeta in IH.
      destruct (cholUpdateSparse_loop _ _ _ _ _ _ _ _) as [[s2|msg s2]|];
        [| |constructor; [exact Heq | exact IH]].
      * constructor; [exact Heq | exact IH].
      * destruct IH as (Hmsg & pre & v & Hrows & Hpre & Hv).
        split; [exact Hmsg|].
        eexists (_ :: pre), v.
        split; [rewrite Hrows; reflexivity|]. split; [|exact Hv].
        constructor; [exact Heq | exact Hpre].
    + split; [reflexivity|].
      eexists [], _.
      split; [reflexivity|]. split; [constructor | exact Hne].
Qed.

End ArenaFacts.

(** C6. [mju_cholUpdateSparse] never writes [rownnz], and at every row it
    visits through the pattern of [x] the count returned by the row
    combine is the row's count of cells before the diagonal, or the
    routine stops there in [mju_error] with "Varying sparsity pattern";
    this holds of the rows visited in any number [fuel] of passes of the
    loop. *)
Theorem cholUpdateSparse_pattern_fixed {N : Num}
    (mju_combineSparse :
       list num -> list num -> Z -> num -> num -> Z -> Z -> list Z -> list Z ->
       list num * list Z * Z)
    (fuel : nat) (mat x : list num) (n flg_plus : Z)
    (rownnz rowadr colind : list Z) (x_nnz : Z) (x_ind : list Z)
    (pstack : Z) :
  let rows :=
    cholUpdateSparse_rows mju_combineSparse fuel flg_plus n rownnz rowadr
      (x_nnz - 1) (enter_sparse mat x rownnz colind x_ind n pstack) in
  let kept := fun v : Z * Z => snd v = rd rownnz (fst v) - 1 in
  match mju_cholUpdateSparse mju_combineSparse fuel mat x n flg_plus
          rownnz rowadr colind x_nnz x_ind pstack with
  | Some (Done s) => cs_rownnz s = rownnz /\ Forall kept rows
  | Some (Fatal msg s) =>
      msg = "Varying sparsity pattern in mju_cholUpdateSparse"%string
      /\ cs_rownnz s = rownnz
      /\ exists pre v, rows = pre ++ [v] /\ Forall kept pre /\ ~ kept v
  | None => Forall kept rows
  end.
Proof.
  intros rows kept. unfold mju_cholUpdateSparse.
  pose proof (cholUpdateSparse_loop_fields mju_combineSparse fuel flg_plus n
                rownnz rowadr (x_nnz - 1)
                (enter_sparse mat x rownnz colind x_ind n pstack)) as Hf.
  pose proof (cholUpdateSparse_loop_rows mju_combineSparse fuel flg_plus n
                rownnz rowadr (x_nnz - 1)
                (enter_sparse mat x rownnz colind x_ind n pstack)) as Hr.
  cbv zeta in Hr.
  destruct (cholUpdateSparse_loop _ _ _ _ _ _ _ _) as [[s|msg s]|];
    [| |exact Hr].
  - destruct Hf as [_ Hrow]. split; [exact Hrow | exact Hr].
  - destruct Hf as [_ Hrow]. destruct Hr as [Hmsg Hrows].
    split; [exact Hmsg|]. split; [exact Hrow | exact Hrows].
Qed.

(** Two runs in binary64 with [L = [2 0; 1 2]] and [x = [1 1]]: the
    pattern is kept and the routine returns; with [L = [2 0; 0 2]] stored
    without the cell (1,0), row 1 would gain a cell and the routine
    stops. *)
Example cholUpdateSparse_runs :
  (exists s,
     mju_cholUpdateSparse (N:=Float64) Sparse.combineSparse 10
       [2; 1; 2]%float [1; 1]%float 2 1 [1; 2] [0; 1] [0; 0; 1] 2 [0; 1] 100
     = Some (Done s) /\ cs_rank s = 2)
  /\ (exists s,
     mju_cholUpdateSparse (N:=Float64) Sparse.combineSparse 10
       [2; 0; 2; 0]%float [1; 1]%float 2 1 [1; 1] [0; 2] [0; 0; 1; 0] 2
       [0; 1] 100
     = Some (Fatal "Varying sparsity pattern in mju_cholUpdateSparse" s)).
Proof.
  split; eexists; [split|]; vm_compute; reflexivity.
Qed.

(** C9, as the code has it.  [mju_cholFactorSparse] and
    [mju_cholUpdateSparse] set the arena back to the mark on their normal
    return; when they stop in [mju_error] the two scratch arrays are still
    acquired, the top of the arena standing [2n] cells above the mark. *)
Theorem sparse_scratch_release {N : Num}
    (mju_combineSparse :
       list num -> list num -> Z -> num -> num -> Z -> Z -> list Z -> list Z ->
       list num * list Z * Z) :
  (forall (mat : list num) (n : Z) (mindiag : num)
          (rownnz rowadr colind : list Z) (pstack : Z),
      match mju_cholFactorSparse mju_combineSparse mat n mindiag rownnz
              rowadr colind pstack with
      | Done s => cs_pstack s = pstack
      | Fatal _ s => cs_pstack s = pstack + n + n
      end)
  /\ (forall (fuel : nat) (mat x : list num) (n flg_plus : Z)
             (rownnz rowadr colind : list Z) (x_nnz : Z) (x_ind : list Z)
             (pstack : Z),
      match mju_cholUpdateSparse mju_combineSparse fuel mat x n flg_plus
              rownnz rowadr colind x_nnz x_ind pstack with
      | Some (Done s) => cs_pstack s = pstack
      | Some (Fatal _ s) => cs_pstack s = pstack + n + n
      | None => True
      end).
Proof.
  split.
  - intros mat n mindiag rownnz rowadr colind pstack.
    unfold mju_cholFactorSparse, cholFactorSparse_check.
    pose proof (cholFactorSparse_shrink_pstack rowadr (Z.to_nat n) 0
                  (enter_sparse mat [] rownnz colind [] n pstack)) as H.
    destruct (for_up_m _ _ _ _) as [s|msg s]; [reflexivity|].
    exact H.
  - intros fuel mat x n flg_plus rownnz rowadr colind x_nnz x_ind pstack.
    unfold mju_cholUpdateSparse.
    pose proof (cholUpdateSparse_loop_fields mju_combineSparse fuel flg_plus
                  n rownnz rowadr (x_nnz - 1)
                  (enter_sparse mat x rownnz colind x_ind n pstack)) as H.
    destruct (cholUpdateSparse_loop _ _ _ _ _ _ _ _) as [[s|msg s]|];
      [reflexivity | | exact I].
    now destruct H as [-> _].
Qed.

(** C9 fails as stated: with the mark at 100 and [n = 2], both routines
    reach the error channel with the top of the arena at 104. *)
Lemma sparse_scratch_held_at_fatal_exit :
  (exists msg s,
     mju_cholFactorSparse (N:=Float64) Sparse.combineSparse [2; 3]%float 2
                          1e-10%float [1; 1] [0; 1] [1; 1] 100
     = Fatal msg s /\ cs_pstack s = 104 /\ cs_pstack s <> 100)
  /\ (exists msg s,
     mju_cholUpdateSparse (N:=Float64) Sparse.combineSparse 10
       [2; 0; 2; 0]%float [1; 1]%float 2 1 [1; 1] [0; 2] [0; 0; 1; 0] 2
       [0; 1] 100
     = Some (Fatal msg s) /\ cs_pstack s = 104 /\ cs_pstack s <> 100).
Proof.
  split.
  - do 2 eexists. split; [vm_compute; reflexivity|].
    split; [reflexivity | discriminate].
  - do 2 eexists. split; [vm_compute; reflexivity|].
    split; [reflexivity | discriminate].
Qed.

(* ================================================================= *)
(** ** Loops that rewrite one cell per pass *)

Section CellLoops.
Context {A : Type} `{Inhabited A}.
Variable f : Z -> Z.
Variable h : Z -> A -> A.

Definition cell_body (i : Z) (m : list A) : list A :=
  wr m (f i) (h i (rd m (f i))).

Lemma cell_loop_length lo hi m :
  length (for_range lo hi cell_body m) = length m.
Proof.
  apply (for_range_ind (fun l => length l = length m)); [done|].
  intros i t _ Ht. unfold cell_body. now rewrite wr_length.
Qed.

Lemma cell_loop_other lo hi m c :
  (forall i, lo <= i < hi -> f i <> c) ->
  rd (for_range lo hi cell_body m) c = rd m c.
Proof.
  intros Hc. apply (for_range_ind (fun l => rd l c = rd m c)); [done|].
  intros i t Hi Ht. unfold cell_body. rewrite rd_wr_ne; [exact Ht|].
  now apply Hc.
Qed.

Lemma cell_loop_up_written (k : nat) lo m i :
  (forall a b, lo <= a < lo + Z.of_nat k -> lo <= b < lo + Z.of_nat k ->
     f a = f b -> a = b) ->
  (forall a, lo <= a < lo + Z.of_nat k ->
     0 <= f a < Z.of_nat (length m)) ->
  lo <= i < lo + Z.of_nat k ->
  rd (for_up k lo cell_body m) (f i) = h i (rd m (f i)).
Proof.
  revert i. induction k as [|k IH]; intros i Hinj Hin Hi; [lia|].
  rewrite for_up_snoc.
  assert (length (for_up k lo cell_body m) = length m) as Hlen.
  { apply (for_up_ind (fun l => length l = length m)); [done|].
    intros a t _ Ht. unfold cell_body. now rewrite wr_length. }
  destruct (decide (i = lo + Z.of_nat k)) as [->|Hne].
  - unfold cell_body at 1. rewrite rd_wr_eq.
    + f_equal.
      apply (for_up_ind (fun l => rd l (f (lo + Z.of_nat k))
                                  = rd m (f (lo + Z.of_nat k)))); [done|].
      intros a t Ha Ht. unfold cell_body. rewrite rd_wr_ne; [exact Ht|].
      intros Heq. apply Hinj in Heq; lia.
    + rewrite Hlen. apply Hin. lia.
  - unfold cell_body at 1. rewrite rd_wr_ne.
    + apply IH; [| |lia].
      * intros a b Ha Hb. apply Hinj; lia.
      * intros a Ha. apply Hin. lia.
    + intros Heq. apply Hinj in Heq; lia.
Qed.

Lemma cell_loop_written lo hi m i :
  (forall a b, lo <= a < hi -> lo <= b < hi -> f a = f b -> a = b) ->
  (forall a, lo <= a < hi -> 0 <= f a < Z.of_nat (length m)) ->
  lo <= i < hi ->
  rd (for_range lo hi cell_body m) (f i) = h i (rd m (f i)).
Proof.
  intros Hinj Hin Hi. unfold for_range. apply cell_loop_up_written.
  - intros a b Ha Hb. apply Hinj; lia.
  - intros a Ha. apply Hin. lia.
  - lia.
Qed.

End CellLoops.

(** Two buffers of one length that read the same in every cell are
    equal. *)
Lemma rd_ext {A} `{Inhabited A} (l1 l2 : list A) :
  length l1 = length l2 ->
  (forall i, 0 <= i < Z.of_nat (length l1) -> rd l1 i = rd l2 i) ->
  l1 = l2.
Proof.
  intros Hlen Hrd. apply list_eq_same_length with (length l1); try done.
  intros i x y Hi Hx Hy.
  specialize (Hrd (Z.of_nat i) ltac:(lia)). unfold rd in Hrd.
  rewrite !decide_True in Hrd by lia. rewrite Nat2Z.id in Hrd.
  rewrite (list_lookup_total_correct _ _ _ Hx) in Hrd.
  rewrite (list_lookup_total_correct _ _ _ Hy) in Hrd. exact Hrd.
Qed.

(** A cell of an [n x n] buffer has one row and one column. *)
Lemma cell_index_inj (n a k i j : Z) :
  0 <= k < n -> 0 <= j < n -> a * n + k = i * n + j -> a = i /\ k = j.
Proof.
  intros Hk Hj Heq. assert (a = i) as -> by nia. split; [reflexivity | lia].
Qed.

(* ================================================================= *)
(** ** One column of [mju_cholUpdate] *)

Section DenseUpdateFacts.
Context {N : Num}.
Local Open Scope num_scope.

Lemma cholUpdate_body_skip n flg k st :
  nonzero (rd (u_x st) k) = false -> cholUpdate_body n flg k st = st.
Proof. intros H. unfold cholUpdate_body. now rewrite H. Qed.

(** The matrix after column [k], as the loop over the rows leaves it. *)
Definition cholUpdate_col (n flg k : Z) (s cinv : num) (x mat : list num)
    : list num :=
  for_range (k + 1) n
    (cell_body (fun i => (i * n + k)%Z)
       (fun i v => if (flg =? 0)%Z then (v - s * rd x i) * cinv
                   else (v + s * rd x i) * cinv))
    mat.

Lemma cholUpdate_body_unfold n flg k st :
  nonzero (rd (u_x st) k) = true ->
  let Lkk := rd (u_mat st) (k * (n + 1)) in
  let '(r, c, cinv, s, low) := cholUpdate_consts flg Lkk (rd (u_x st) k) in
  let mat :=
    cholUpdate_col n flg k s cinv (u_x st) (wr (u_mat st) (k * (n + 1)) r) in
  cholUpdate_body n flg k st
  = {| u_mat := mat;
       u_x := for_range (k + 1) n
                (cell_body (fun i => i)
                   (fun i v => c * v - s * rd mat (i * n + k)))
                (u_x st);
       u_rank := if low then (u_rank st - 1)%Z else u_rank st |}.
Proof.
  intros Hnz. unfold cholUpdate_body. rewrite Hnz. cbv zeta.
  destruct (cholUpdate_consts _ _ _) as [[[[r c] cinv] s] low].
  unfold cholUpdate_col. destruct (flg =? 0)%Z; reflexivity.
Qed.

Lemma cholUpdate_body_length n flg k st :
  length (u_mat (cholUpdate_body n flg k st)) = length (u_mat st)
  /\ length (u_x (cholUpdate_body n flg k st)) = length (u_x st).
Proof.
  destruct (nonzero (rd (u_x st) k)) eqn:Hnz;
    [|now rewrite cholUpdate_body_skip].
  pose proof (cholUpdate_body_unfold n flg k st Hnz) as Hb. cbv zeta in Hb.
  destruct (cholUpdate_consts _ _ _) as [[[[r c] cinv] s] low].
  rewrite Hb. cbn [u_mat u_x]. unfold cholUpdate_col.
  now rewrite !cell_loop_length, wr_length.
Qed.

Lemma cholUpdate_body_rank_le n flg k st :
  (u_rank (cholUpdate_body n flg k st) <= u_rank st)%Z.
Proof.
  destruct (nonzero (rd (u_x st) k)) eqn:Hnz;
    [|rewrite cholUpdate_body_skip by exact Hnz; lia].
  pose proof (cholUpdate_body_unfold n flg k st Hnz) as Hb. cbv zeta in Hb.
  destruct (cholUpdate_consts _ _ _) as [[[[r c] cinv] s] low].
  rewrite Hb. cbn [u_rank]. destruct low; lia.
Qed.

(** A cell outside column [k], or above its diagonal, is not written by
    column [k]. *)
Lemma cholUpdate_body_other n flg k st i j :
  (0 <= k < n)%Z -> (0 <= i < n)%Z -> (0 <= j < n)%Z ->
  ~ (j = k /\ (k <= i)%Z) ->
  rd (u_mat (cholUpdate_body n flg k st)) (i * n + j)
  = rd (u_mat st) (i * n + j).
Proof.
  intros Hk Hi Hj Hne.
  destruct (nonzero (rd (u_x st) k)) eqn:Hnz;
    [|now rewrite cholUpdate_body_skip].
  pose proof (cholUpdate_body_unfold n flg k st Hnz) as Hb. cbv zeta in Hb.
  destruct (cholUpdate_consts _ _ _) as [[[[r c] cinv] s] low].
  rewrite Hb. cbn [u_mat]. unfold cholUpdate_col.
  rewrite cell_loop_other.
  - apply rd_wr_ne. replace (k * (n + 1))%Z with (k * n + k)%Z by lia.
    intros Heq. apply cell_index_inj in Heq; [|lia|lia].
    apply Hne. lia.
  - intros a Ha Heq. apply cell_index_inj in Heq; [|lia|lia].
    apply Hne. lia.
Qed.

(** The cells of [x] up to [k] are not written by column [k]. *)
Lemma cholUpdate_body_x_low n flg k st i :
  (i <= k)%Z ->
  rd (u_x (cholUpdate_body n flg k st)) i = rd (u_x st) i.
Proof.
  intros Hi.
  destruct (nonzero (rd (u_x st) k)) eqn:Hnz;
    [|now rewrite cholUpdate_body_skip].
  pose proof (cholUpdate_body_unfold n flg k st Hnz) as Hb. cbv zeta in Hb.
  destruct (cholUpdate_consts _ _ _) as [[[[r c] cinv] s] low].
  rewrite Hb. cbn [u_x]. apply cell_loop_other. intros a Ha. lia.
Qed.

(** What column [k] writes, when [x[k]] is not zero. *)
Lemma cholUpdate_body_written n flg k st :
  (0 <= k < n)%Z ->
  Z.of_nat (length (u_mat st)) = (n * n)%Z ->
  Z.of_nat (length (u_x st)) = n ->
  nonzero (rd (u_x st) k) = true ->
  let Lkk := rd (u_mat st) (k * (n + 1)) in
  let '(r, c, cinv, s, low) := cholUpdate_consts flg Lkk (rd (u_x st) k) in
  let st' := cholUpdate_body n flg k st in
  u_rank st' = (if low then (u_rank st - 1)%Z else u_rank st)
  /\ rd (u_mat st') (k * n + k) = r
  /\ (forall i, (k < i < n)%Z ->
        rd (u_mat st') (i * n + k)
        = if (flg =? 0)%Z
          then (rd (u_mat st) (i * n + k) - s * rd (u_x st) i) * cinv
          else (rd (u_mat st) (i * n + k) + s * rd (u_x st) i) * cinv)
  /\ (forall i, (k < i < n)%Z ->
        rd (u_x st') i
        = c * rd (u_x st) i - s * rd (u_mat st') (i * n + k)).
Proof.
  intros Hk Hlm Hlx Hnz.
  pose proof (cholUpdate_body_unfold n flg k st Hnz) as Hb. cbv zeta in Hb.
  cbv zeta.
  destruct (cholUpdate_consts _ _ _) as [[[[r c] cinv] s] low].
  rewrite Hb. cbn [u_mat u_x u_rank].
  assert (k * (n + 1) = k * n + k)%Z as Hd by lia.
  split; [reflexivity|]. split; [|split].
  - unfold cholUpdate_col.
    rewrite cell_loop_other.
    + rewrite Hd. apply rd_wr_eq. nia.
    + intros a Ha Heq. apply cell_index_inj in Heq; lia.
  - intros i Hi. unfold cholUpdate_col.
    rewrite (cell_loop_written (fun a => (a * n + k)%Z)).
    + rewrite rd_wr_ne; [reflexivity|]. rewrite Hd.
      intros Heq. apply cell_index_inj in Heq; lia.
    + intros a b Ha Hb' Hab. apply cell_index_inj in Hab; lia.
    + intros a Ha. rewrite wr_length. nia.
    + lia.
  - intros i Hi.
    rewrite (cell_loop_written (fun a => a)); [reflexivity | | | lia].
    + intros a b _ _ Hab. exact Hab.
    + intros a Ha. lia.
Qed.

(** The state after [j] columns. *)
Lemma cholUpdate_cols_S mat x n flg j :
  cholUpdate_cols mat x n flg (S j)
  = cholUpdate_body n flg (Z.of_nat j) (cholUpdate_cols mat x n flg j).
Proof. unfold cholUpdate_cols. now rewrite for_up_snoc, Z.add_0_l. Qed.

Lemma cholUpdate_cols_length mat x n flg j :
  length (u_mat (cholUpdate_cols mat x n flg j)) = length mat
  /\ length (u_x (cholUpdate_cols mat x n flg j)) = length x.
Proof.
  induction j as [|j [IH1 IH2]]; [done|].
  rewrite cholUpdate_cols_S.
  destruct (cholUpdate_body_length n flg (Z.of_nat j)
              (cholUpdate_cols mat x n flg j)) as [-> ->].
  now split.
Qed.

Lemma cholUpdate_cols_rank_le mat x n flg j m :
  (j <= m)%nat ->
  (u_rank (cholUpdate_cols mat x n flg m)
   <= u_rank (cholUpdate_cols mat x n flg j))%Z.
Proof.
  induction 1 as [|m Hjm IH]; [lia|].
  rewrite cholUpdate_cols_S.
  pose proof (cholUpdate_body_rank_le n flg (Z.of_nat m)
                (cholUpdate_cols mat x n flg m)). lia.
Qed.

(** The rank stays at [n] up to the end: it was [n] after every column. *)
Lemma cholUpdate_cols_rank_full mat x n flg j m :
  (j <= m)%nat -> u_rank (cholUpdate_cols mat x n flg m) = n ->
  u_rank (cholUpdate_cols mat x n flg j) = n.
Proof.
  intros Hjm Hm.
  pose proof (cholUpdate_cols_rank_le mat x n flg j m Hjm).
  pose proof (cholUpdate_cols_rank_le mat x n flg 0 j ltac:(lia)) as H0.
  simpl in H0. lia.
Qed.

(** A column not yet reached holds what it held at the start. *)
Lemma cholUpdate_cols_ahead mat x n flg j i c :
  (0 <= i < n)%Z -> (Z.of_nat j <= c < n)%Z ->
  rd (u_mat (cholUpdate_cols mat x n flg j)) (i * n + c)
  = rd mat (i * n + c).
Proof.
  intros Hi. induction j as [|j IH]; intros Hc; [reflexivity|].
  rewrite cholUpdate_cols_S, cholUpdate_body_other by lia.
  apply IH. lia.
Qed.

(** A column left behind holds what it held when it was left. *)
Lemma cholUpdate_cols_behind mat x n flg j m i c :
  (0 <= i < n)%Z -> (0 <= c)%Z -> (Z.to_nat c < j)%nat -> (j <= m)%nat ->
  (Z.of_nat m <= n)%Z ->
  rd (u_mat (cholUpdate_cols mat x n flg m)) (i * n + c)
  = rd (u_mat (cholUpdate_cols mat x n flg j)) (i * n + c).
Proof.
  intros Hi Hc Hcj Hjm. induction Hjm as [|m Hjm IH]; intros Hm;
    [reflexivity|].
  rewrite cholUpdate_cols_S, cholUpdate_body_other by lia.
  apply IH. lia.
Qed.

(** A cell above the diagonal is never written. *)
Lemma cholUpdate_cols_upper mat x n flg m i c :
  (0 <= i < c)%Z -> (c < n)%Z -> (Z.of_nat m <= n)%Z ->
  rd (u_mat (cholUpdate_cols mat x n flg m)) (i * n + c)
  = rd mat (i * n + c).
Proof.
  intros Hi Hc. induction m as [|m IH]; intros Hm; [reflexivity|].
  rewrite cholUpdate_cols_S, cholUpdate_body_other by lia.
  apply IH. lia.
Qed.

End DenseUpdateFacts.

(* ================================================================= *)
(** ** Update, then downdate, in exact arithmetic *)

Section RoundTrip.
Local Open Scope R_scope.

Abbreviation num_R := (@num Exact).

Lemma mjMINVAL_pos : 0 < @mjMINVAL Exact.
Proof.
  change (0 < / 10 ^ 15). apply Rinv_0_lt_compat. apply pow_lt. lra.
Qed.

(** The locals of a column that was not clamped. *)
Lemma exact_consts (flg : Z) (Lkk xk r c cinv s : num_R) :
  cholUpdate_consts (N:=Exact) flg Lkk xk = (r, c, cinv, s, false) ->
  let tmp := Lkk * Lkk + (if (flg =? 0)%Z then - xk * xk else xk * xk) in
  0 < tmp /\ r = sqrt tmp /\ c = r / Lkk /\ cinv = 1 / c /\ s = xk / Lkk.
Proof.
  unfold cholUpdate_consts. simpl. unfold Rnum.ltb.
  pose proof mjMINVAL_pos as Hm. simpl in Hm.
  destruct (Rlt_dec _ _) as [Hlt|Hge]; intros Heq; [discriminate|].
  injection Heq as <- <- <- <-. repeat split. lra.
Qed.

Lemma exact_consts_low (flg : Z) (Lkk xk : num_R) :
  snd (cholUpdate_consts (N:=Exact) flg Lkk xk)
  = Rnum.ltb (Lkk * Lkk + (if (flg =? 0)%Z then - xk * xk else xk * xk))
             (@mjMINVAL Exact).
Proof. reflexivity. Qed.

Variables (L x : list num_R) (n : Z).
Hypothesis Hn : (0 <= n)%Z.
Hypothesis HlenL : Z.of_nat (length L) = (n * n)%Z.
Hypothesis Hlenx : Z.of_nat (length x) = n.
Hypothesis Hdiag : forall k, (0 <= k < n)%Z -> 0 < rd L (k * n + k).

(** The update of [L] by [x], column after column. *)
Definition up (j : nat) : update_state (N:=Exact) :=
  cholUpdate_cols (N:=Exact) L x n 1 j.

(** The downdate of the updated factor by [x], column after column. *)
Definition down (j : nat) : update_state (N:=Exact) :=
  cholUpdate_cols (N:=Exact) (u_mat (up (Z.to_nat n))) x n 0 j.

(** No column is clamped: both runs return [n], or the squares of the
    diagonal of [L] are not below [mjMINVAL]. *)
Hypothesis Hclamp :
  (u_rank (up (Z.to_nat n)) = n /\ u_rank (down (Z.to_nat n)) = n)
  \/ (forall k, (0 <= k < n)%Z ->
        @mjMINVAL Exact <= rd L (k * n + k) * rd L (k * n + k)).

(** After [j] columns the downdate has restored the first [j] columns of
    [L], holds the same [x] as the update held after [j] columns, and has
    not touched the other columns; neither run has clamped. *)
Lemma round_trip_cols (j : nat) :
  (Z.of_nat j <= n)%Z ->
  (forall i, rd (u_x (down j)) i = rd (u_x (up j)) i)
  /\ (forall i c, (0 <= i < n)%Z -> (0 <= c < n)%Z ->
        rd (u_mat (down j)) (i * n + c)
        = if (c <? Z.of_nat j)%Z then rd L (i * n + c)
          else rd (u_mat (up (Z.to_nat n))) (i * n + c))
  /\ u_rank (up j) = n /\ u_rank (down j) = n.
Proof.
  induction j as [|j IH]; intros Hj.
  - split; [reflexivity|]. split; [|split; reflexivity].
    intros i c Hi Hc.
    destruct (Z.ltb_spec c (Z.of_nat 0)); [lia | reflexivity].
  - destruct (IH ltac:(lia)) as (IHx & IHm & HrP0 & HrQ0). clear IH.
    set (k := Z.of_nat j) in *.
    assert (k * (n + 1) = k * n + k)%Z as Hkk by lia.
    (* the column of the update the downdate is about to read *)
    assert (forall i, (0 <= i < n)%Z ->
              rd (u_mat (down j)) (i * n + k)
              = rd (u_mat (up (S j))) (i * n + k)) as Hcol.
    { intros i Hi. rewrite IHm by lia.
      rewrite (proj2 (Z.ltb_ge k k)) by lia.
      apply cholUpdate_cols_behind; lia. }
    assert (forall i, (0 <= i < n)%Z ->
              rd (u_mat (up j)) (i * n + k) = rd L (i * n + k)) as Hold.
    { intros i Hi. apply cholUpdate_cols_ahead; lia. }
    unfold down in *. unfold up in *.
    rewrite !cholUpdate_cols_S. fold k.
    set (P := cholUpdate_cols (N:=Exact) L x n 1 j) in *.
    set (Pn := cholUpdate_cols (N:=Exact) L x n 1 (Z.to_nat n)) in *.
    set (Q := cholUpdate_cols (N:=Exact) (u_mat Pn) x n 0 j) in *.
    rewrite cholUpdate_cols_S in Hcol. fold k P in Hcol.
    destruct (nonzero (rd (u_x P) k)) eqn:Hnz.
    + (* x[k] is not zero: both runs work on column k *)
      assert (nonzero (rd (u_x Q) k) = true) as HnzQ by now rewrite IHx.
      destruct (cholUpdate_cols_length (N:=Exact) L x n 1 j) as [HPm HPx].
      destruct (cholUpdate_cols_length (N:=Exact) (u_mat Pn) x n 0 j)
        as [HQm HQx].
      destruct (cholUpdate_cols_length (N:=Exact) L x n 1 (Z.to_nat n))
        as [HPnm _].
      fold P in HPm, HPx. fold Q in HQm, HQx. fold Pn in HPnm, HQm.
      pose proof (cholUpdate_body_written (N:=Exact) n 1 k P ltac:(lia)
                    ltac:(lia) ltac:(lia) Hnz) as HWP.
      pose proof (cholUpdate_body_written (N:=Exact) n 0 k Q ltac:(lia)
                    ltac:(lia) ltac:(lia) HnzQ) as HWQ.
      cbv zeta in HWP, HWQ.
      rewrite Hkk in HWP, HWQ.
      rewrite (Hold k ltac:(lia)) in HWP.
      rewrite (Hcol k ltac:(lia)) in HWQ.
      rewrite IHx in HWQ.
      set (Lkk := rd L (k * n + k)) in *.
      set (xk := rd (u_x P) k) in *.
      assert (0 < Lkk) as HLkk by (apply Hdiag; lia).
      pose proof (exact_consts_low 1 Lkk xk) as HlowP.
      change (1 =? 0)%Z with false in HlowP. cbv iota in HlowP.
      destruct (cholUpdate_consts (N:=Exact) 1 Lkk xk)
        as [[[[r c] cinv] s] low] eqn:EP.
      destruct HWP as (HP1 & HP2 & HP3 & HP4).
      rewrite HP2 in HWQ.
      cbn [snd] in HlowP.
      assert (low = false) as ->.
      { destruct Hclamp as [[HA _]|HB].
        - assert (u_rank (cholUpdate_body (N:=Exact) n 1 k P) = n) as HrP1.
          { unfold k, P. rewrite <- cholUpdate_cols_S.
            apply (cholUpdate_cols_rank_full (N:=Exact)) with (Z.to_nat n);
              [lia | exact HA]. }
          destruct low; [lia | reflexivity].
        - rewrite HlowP. unfold Rnum.ltb.
          destruct (Rlt_dec _ _) as [Hlt|]; [|reflexivity].
          specialize (HB k ltac:(lia)). fold Lkk in HB. nra. }
      apply exact_consts in EP. cbv zeta in EP.
      change (1 =? 0)%Z with false in EP. cbv iota in EP.
      destruct EP as (Htmp & Hr & -> & -> & ->).
      assert (0 < r) as Hrpos by (rewrite Hr; now apply sqrt_lt_R0).
      assert (r * r = Lkk * Lkk + xk * xk) as Hrr
          by (rewrite Hr; apply sqrt_sqrt; lra).
      pose proof (exact_consts_low 0 r xk) as HlowQ.
      change (0 =? 0)%Z with true in HlowQ. cbv iota in HlowQ.
      destruct (cholUpdate_consts (N:=Exact) 0 r xk)
        as [[[[r' c'] cinv'] s'] low'] eqn:EQ.
      destruct HWQ as (HQ1 & HQ2 & HQ3 & HQ4).
      cbn [snd] in HlowQ.
      assert (low' = false) as ->.
      { destruct Hclamp as [[_ HA]|HB].
        - assert (u_rank (cholUpdate_body (N:=Exact) n 0 k Q) = n) as HrQ1.
          { unfold k, Q. rewrite <- cholUpdate_cols_S.
            apply (cholUpdate_cols_rank_full (N:=Exact)) with (Z.to_nat n);
              [lia | exact HA]. }
          destruct low'; [lia | reflexivity].
        - rewrite HlowQ. unfold Rnum.ltb.
          destruct (Rlt_dec _ _) as [Hlt|]; [|reflexivity].
          specialize (HB k ltac:(lia)). fold Lkk in HB. nra. }
      apply exact_consts in EQ. cbv zeta in EQ.
      change (0 =? 0)%Z with true in EQ. cbv iota in EQ.
      destruct EQ as (Htmp' & Hr' & -> & -> & ->).
      assert (r' = Lkk) as ->.
      { rewrite Hr'. replace (r * r + - xk * xk) with (Lkk * Lkk) by lra.
        apply sqrt_square. lra. }
      change (1 =? 0)%Z with false in HP3.
      change (0 =? 0)%Z with true in HQ3.
      (* the column restored *)
      assert (forall i, (k < i < n)%Z ->
                rd (u_mat (cholUpdate_body (N:=Exact) n 0 k Q)) (i * n + k)
                = rd L (i * n + k)) as Hrest.
      { intros i Hi. rewrite (HQ3 i Hi), (Hcol i ltac:(lia)), (HP3 i Hi).
        rewrite (Hold i ltac:(lia)), IHx. simpl. field. lra. }
      split; [|split; [|split; [lia | lia]]].
      * intros i. destruct (Z_lt_le_dec k i) as [Hki|Hik].
        -- destruct (Z_lt_le_dec i n) as [Hin|Hni].
           ++ rewrite (HQ4 i ltac:(lia)), (HP4 i ltac:(lia)).
              rewrite (Hrest i ltac:(lia)), (HP3 i ltac:(lia)).
              rewrite (Hold i ltac:(lia)), IHx. simpl.
              assert (forall xi Lik : R,
                        Lkk / r * xi - xk / r * Lik
                        = r / Lkk * xi
                          - xk / Lkk
                            * ((Lik + xk / Lkk * xi) * (1 / (r / Lkk))))
                as Halg.
              { intros xi Lik.
                assert (xk * xk = r * r - Lkk * Lkk) as Hxx by lra.
                apply Rminus_diag_uniq.
                transitivity (xi * (xk * xk - (r * r - Lkk * Lkk))
                              / (Lkk * r)); [field; lra|].
                rewrite Hxx. field. lra. }
              apply Halg.
           ++ (* beyond the buffer: both reads are out of range *)
              unfold rd. rewrite !decide_True by lia.
              rewrite !list_lookup_total_alt, !lookup_ge_None_2;
                [reflexivity | |].
              ** destruct (cholUpdate_body_length (N:=Exact) n 1 k P)
                   as [_ ->]. lia.
              ** destruct (cholUpdate_body_length (N:=Exact) n 0 k Q)
                   as [_ ->]. lia.
        -- rewrite !cholUpdate_body_x_low by lia. apply IHx.
      * intros i c Hi Hc.
        destruct (decide (c = k)) as [->|Hck].
        -- rewrite (proj2 (Z.ltb_lt k (Z.of_nat (S j)))) by lia.
           destruct (Z_lt_le_dec k i) as [Hki|Hik].
           ++ apply Hrest. lia.
           ++ destruct (decide (i = k)) as [->|Hne].
              ** exact HQ2.
              ** rewrite cholUpdate_body_other by lia.
                 rewrite IHm by lia.
                 rewrite (proj2 (Z.ltb_ge k k)) by lia.
                 apply cholUpdate_cols_upper; lia.
        -- rewrite cholUpdate_body_other by lia.
           rewrite IHm by lia.
           destruct (Z.ltb_spec c k), (Z.ltb_spec c (Z.of_nat (S j)));
             try reflexivity; lia.
    + (* x[k] is zero: both runs skip column k *)
      assert (nonzero (rd (u_x Q) k) = false) as HnzQ by now rewrite IHx.
      rewrite !cholUpdate_body_skip by assumption.
      rewrite cholUpdate_body_skip in Hcol by assumption.
      split; [exact IHx|]. split; [|split; assumption].
      intros i c Hi Hc. rewrite IHm by lia.
      destruct (decide (c = k)) as [->|Hck].
      * rewrite (proj2 (Z.ltb_ge k k)) by lia.
        rewrite (proj2 (Z.ltb_lt k (Z.of_nat (S j)))) by lia.
        rewrite <- (Hold i Hi), <- (Hcol i Hi), IHm by lia.
        now rewrite (proj2 (Z.ltb_ge k k)) by lia.
      * destruct (Z.ltb_spec c k), (Z.ltb_spec c (Z.of_nat (S j)));
          try reflexivity; lia.
Qed.

(** The whole round trip. *)
Lemma round_trip_all :
  u_mat (down (Z.to_nat n)) = L
  /\ u_x (down (Z.to_nat n)) = u_x (up (Z.to_nat n))
  /\ u_rank (up (Z.to_nat n)) = n /\ u_rank (down (Z.to_nat n)) = n.
Proof.
  destruct (round_trip_cols (Z.to_nat n) ltac:(lia)) as (Hx & Hm & Hr1 & Hr2).
  destruct (cholUpdate_cols_length (N:=Exact) L x n 1 (Z.to_nat n))
    as [HPm HPx].
  destruct (cholUpdate_cols_length (N:=Exact) (u_mat (up (Z.to_nat n))) x n 0
              (Z.to_nat n)) as [HQm HQx].
  fold (up (Z.to_nat n)) in HPm, HPx. fold (down (Z.to_nat n)) in HQm, HQx.
  split; [|split; [|split; assumption]].
  - apply rd_ext; [congruence|]. intros idx Hidx.
    assert (0 < n)%Z as Hpos by nia.
    rewrite (Z.div_mod idx n) by lia.
    replace (n * (idx / n) + idx mod n)%Z
      with (idx / n * n + idx mod n)%Z by lia.
    pose proof (Z.mod_pos_bound idx n Hpos) as Hmod.
    assert (0 <= idx / n < n)%Z as Hdiv.
    { split; [apply Z.div_pos; lia|].
      apply Z.div_lt_upper_bound; [lia|]. nia. }
    rewrite Hm by lia.
    now rewrite (proj2 (Z.ltb_lt (idx mod n) (Z.of_nat (Z.to_nat n))))
      by lia.
  - apply rd_ext; [congruence|]. intros i _. apply Hx.
Qed.

End RoundTrip.

Lemma mju_cholUpdate_cols {N : Num} (mat x : list num) (n flg : Z) :
  mju_cholUpdate mat x n flg = cholUpdate_cols mat x n flg (Z.to_nat n).
Proof.
  unfold mju_cholUpdate, cholUpdate_cols, for_range. now rewrite Z.sub_0_r.
Qed.

(** C4, as the code has it.  In exact arithmetic, for a factor [L] with
    positive diagonal, the update [mju_cholUpdate(L, x, n, 1)] followed by
    the downdate [mju_cholUpdate(L, x0, n, 0)], where [x0] holds the
    contents [x] had before the first call (the first call overwrites
    [x]), restores [L] when neither call clamps (both return [n]); the two
    calls leave the same contents in their [x] buffers. *)
Theorem mju_cholUpdate_round_trip (L x : list (@num Exact)) (n : Z) :
  0 <= n ->
  Z.of_nat (length L) = n * n ->
  Z.of_nat (length x) = n ->
  (forall k, 0 <= k < n -> (0 < rd L (k * n + k))%R) ->
  u_rank (mju_cholUpdate (N:=Exact) L x n 1) = n ->
  u_rank (mju_cholUpdate (N:=Exact)
            (u_mat (mju_cholUpdate (N:=Exact) L x n 1)) x n 0) = n ->
  u_mat (mju_cholUpdate (N:=Exact)
           (u_mat (mju_cholUpdate (N:=Exact) L x n 1)) x n 0) = L
  /\ u_x (mju_cholUpdate (N:=Exact)
            (u_mat (mju_cholUpdate (N:=Exact) L x n 1)) x n 0)
     = u_x (mju_cholUpdate (N:=Exact) L x n 1).
Proof.
  intros Hn HL Hx Hdiag. rewrite !mju_cholUpdate_cols. intros Hr1 Hr2.
  destruct (round_trip_all L x n Hn HL Hx Hdiag (or_introl (conj Hr1 Hr2)))
    as (Hm & Hxx & _). split; [exact Hm | exact Hxx].
Qed.

(** The factor [[3 0; 2 1]] and [x = [4 0]]: neither call clamps, and the
    downdate by the original [x] gives the factor back. *)
Lemma mju_cholUpdate_round_trip_witness :
  let L : list (@num Exact) := [3; 0; 2; 1]%R in
  let x : list (@num Exact) := [4; 0]%R in
  u_rank (mju_cholUpdate (N:=Exact) L x 2 1) = 2
  /\ u_rank (mju_cholUpdate (N:=Exact)
               (u_mat (mju_cholUpdate (N:=Exact) L x 2 1)) x 2 0) = 2
  /\ u_mat (mju_cholUpdate (N:=Exact)
              (u_mat (mju_cholUpdate (N:=Exact) L x 2 1)) x 2 0) = L.
Proof.
  intros L x.
  assert (0 <= 2) as Hn by lia.
  assert (Z.of_nat (length L) = 2 * 2) as HL by reflexivity.
  assert (Z.of_nat (length x) = 2) as Hx by reflexivity.
  assert (forall k, 0 <= k < 2 -> (0 < rd L (k * 2 + k))%R) as Hdiag.
  { intros k Hk. assert (k = 0 \/ k = 1) as [-> | ->] by lia;
      [change (0 < 3)%R | change (0 < 1)%R]; lra. }
  assert (forall k, 0 <= k < 2 ->
            (@mjMINVAL Exact <= rd L (k * 2 + k) * rd L (k * 2 + k))%R)
    as Hmin.
  { intros k Hk.
    assert (@mjMINVAL Exact <= 1)%R as H1.
    { change (/ 10 ^ 15 <= 1)%R. rewrite <- Rinv_1.
      apply Rinv_le_contravar; [lra|]. apply pow_R1_Rle. lra. }
    assert (k = 0 \/ k = 1) as [-> | ->] by lia;
      [change (@mjMINVAL Exact <= 3 * 3)%R
      | change (@mjMINVAL Exact <= 1 * 1)%R]; lra. }
  destruct (round_trip_all L x 2 Hn HL Hx Hdiag (or_intror Hmin))
    as (_ & _ & Hr1 & Hr2).
  unfold up, down in Hr1, Hr2. rewrite <- !mju_cholUpdate_cols in Hr1, Hr2.
  split; [exact Hr1|]. split; [exact Hr2|].
  exact (proj1 (mju_cholUpdate_round_trip L x 2 Hn HL Hx Hdiag Hr1 Hr2)).
Defined.

(** C4 fails as stated, in binary64 arithmetic on the factor
    [[3 0; 0 1]] with [x = [4 1]]: after [mju_cholUpdate(L, x, 2, 1)] the
    buffer [x] no longer holds [[4 1]]; the call
    [mju_cholUpdate(L, x, 2, -1)] on the same buffers is again an update
    ([flg_plus] is tested for being non-zero), and the downdate
    [mju_cholUpdate(L, x, 2, 0)] on the same buffers leaves the cell (1,0)
    above 0.5 where [L] holds 0.  No call clamps. *)
Lemma mju_cholUpdate_same_buffers :
  let L := [3; 0; 0; 1]%float in
  let x := [4; 1]%float in
  let o1 := mju_cholUpdate (N:=Float64) L x 2 1 in
  let o2 := mju_cholUpdate (N:=Float64) (u_mat o1) (u_x o1) 2 (-1) in
  let o3 := mju_cholUpdate (N:=Float64) (u_mat o1) (u_x o1) 2 0 in
  u_rank o1 = 2 /\ u_rank o2 = 2 /\ u_rank o3 = 2
  /\ u_x o1 <> x
  /\ u_mat o2 <> L /\ u_mat o3 <> L
  /\ PrimFloat.ltb 6 (rd (u_mat o2) 0) = true
  /\ PrimFloat.ltb 0.5 (rd (u_mat o3) 2) = true.
Proof.
  vm_compute. repeat split; try discriminate; reflexivity.
Qed.

(** * Further properties of the routines *)

(* ================================================================= *)
(** ** What the dense routines leave untouched *)

Section DenseFrame.
Context {N : Num}.
Variable mju_dot : list num -> list num -> Z -> num.

(** Column [j] of [mju_cholFactor] writes the cells [(i, j)], [j <= i < n],
    and no other. *)
Lemma cholFactor_body_frame n mindiag j st c :
  j < n ->
  (forall i, j <= i < n -> c <> i * n + j) ->
  rd (fst (cholFactor_body mju_dot n mindiag j st)) c = rd (fst st) c.
Proof.
  intros Hj Hc. destruct st as [mat rank]. unfold cholFactor_body.
  assert (j * (n + 1) <> c) as Hd.
  { intros <-. apply (Hc j); lia. }
  destruct (nltb _ _); simpl;
    (rewrite cholFactor_offdiag_other by (intros i Hi; apply Hc; lia));
    now rewrite rd_wr_ne.
Qed.

Lemma cholSolve_fwd_frame mat n i res c :
  c <> i -> rd (cholSolve_fwd mju_dot mat n i res) c = rd res c.
Proof.
  intros Hc. unfold cholSolve_fwd. rewrite rd_wr_ne by congruence.
  destruct (i =? 0); [reflexivity|]. now rewrite rd_wr_ne by congruence.
Qed.

Lemma cholSolve_bwd_frame mat n i res c :
  c <> i -> rd (cholSolve_bwd mat n i res) c = rd res c.
Proof.
  intros Hc. unfold cholSolve_bwd. rewrite rd_wr_ne by congruence.
  destruct (i <? n - 1); [|reflexivity].
  apply (for_range_ind (fun l => rd l c = rd res c)); [reflexivity|].
  intros j t _ Ht. now rewrite rd_wr_ne by congruence.
Qed.

Lemma mju_copy_frame (res vec : list num) n c :
  ~ 0 <= c < n -> rd (mju_copy res vec n) c = rd res c.
Proof.
  intros Hc. unfold mju_copy.
  apply (for_range_ind (fun l => rd l c = rd res c)); [reflexivity|].
  intros i t Hi Ht. rewrite rd_wr_ne; [exact Ht | lia].
Qed.

Lemma mju_cholSolve_frame (res mat : list num) vec n c :
  ~ 0 <= c < n -> rd (mju_cholSolve mju_dot res mat vec n) c = rd res c.
Proof.
  intros Hc. unfold mju_cholSolve.
  apply (for_down_ind (fun l => rd l c = rd res c)).
  - apply (for_range_ind (fun l => rd l c = rd res c)).
    + destruct vec as [v|]; [now apply mju_copy_frame | reflexivity].
    + intros i t Hi Ht. rewrite cholSolve_fwd_frame; [exact Ht | lia].
  - intros i t Hi Ht. rewrite cholSolve_bwd_frame; [exact Ht | lia].
Qed.

End DenseFrame.

(** X1. [mju_cholFactor] works in place on the lower triangle: the buffer
    keeps its length, and every cell that is not a cell [(i, j)] with
    [0 <= j <= i < n] holds what it held before the call; so do the cells
    above the diagonal. *)
Theorem mju_cholFactor_writes_lower {N : Num}
    (mju_dot : list num -> list num -> Z -> num)
    (mat : list num) (n : Z) (mindiag : num) :
  let out := fst (mju_cholFactor mju_dot mat n mindiag) in
  length out = length mat
  /\ (forall c, (forall i j, 0 <= j <= i -> i < n -> c <> i * n + j) ->
        rd out c = rd mat c)
  /\ (forall i j, 0 <= i < j -> j < n -> rd out (i * n + j) = rd mat (i * n + j)).
Proof.
  intros out.
  assert (forall c, (forall i j, 0 <= j <= i -> i < n -> c <> i * n + j) ->
            rd out c = rd mat c) as Hframe.
  { intros c Hc. unfold out, mju_cholFactor.
    apply (for_range_ind (fun st => rd (fst st) c = rd mat c));
      [reflexivity|].
    intros j st Hj Hst. rewrite cholFactor_body_frame; [exact Hst | lia |].
    intros i Hi. apply Hc; lia. }
  split; [|split; [exact Hframe|]].
  - unfold out, mju_cholFactor.
    apply (for_range_ind (fun st => length (fst st) = length mat));
      [reflexivity|].
    intros j st _ Hst. now rewrite cholFactor_body_length.
  - intros i j Hi Hj. apply Hframe. intros i' j' Hj' Hi' Heq.
    apply cell_index_inj in Heq; lia.
Qed.

(** X2. [mju_cholSolve] writes the first [n] cells of [res] and no other:
    the buffer keeps its length and every cell outside [0 <= i < n] holds
    what it held before the call, whether [vec] is [res] itself or
    another buffer. *)
Theorem mju_cholSolve_writes_prefix {N : Num}
    (mju_dot : list num -> list num -> Z -> num)
    (res mat : list num) (vec : option (list num)) (n : Z) :
  let out := mju_cholSolve mju_dot res mat vec n in
  length out = length res
  /\ forall i, ~ 0 <= i < n -> rd out i = rd res i.
Proof.
  intros out. split; [apply mju_cholSolve_length|].
  intros c Hc. now apply mju_cholSolve_frame.
Qed.

(* ================================================================= *)
(** ** [mju_cholUpdate]: the columns it skips, and its frame *)

Section DenseUpdateFrame.
Context {N : Num}.

Lemma cholUpdate_body_rank_ge n flg k st :
  u_rank st - 1 <= u_rank (cholUpdate_body n flg k st).
Proof.
  destruct (nonzero (rd (u_x st) k)) eqn:Hnz;
    [|rewrite cholUpdate_body_skip by exact Hnz; lia].
  pose proof (cholUpdate_body_unfold n flg k st Hnz) as Hb. cbv zeta in Hb.
  destruct (cholUpdate_consts _ _ _) as [[[[r c] cinv] s] low].
  rewrite Hb. cbn [u_rank]. destruct low; lia.
Qed.

Lemma cholUpdate_cols_rank_ge mat x n flg j :
  n - Z.of_nat j <= u_rank (cholUpdate_cols mat x n flg j).
Proof.
  induction j as [|j IH]; [simpl; lia|].
  rewrite cholUpdate_cols_S.
  pose proof (cholUpdate_body_rank_ge n flg (Z.of_nat j)
                (cholUpdate_cols mat x n flg j)). lia.
Qed.

Lemma cholUpdate_cols_x_low mat x n flg j i :
  i <= 0 -> rd (u_x (cholUpdate_cols mat x n flg j)) i = rd x i.
Proof.
  intros Hi. induction j as [|j IH]; [reflexivity|].
  rewrite cholUpdate_cols_S, cholUpdate_body_x_low by lia. exact IH.
Qed.

Lemma cholUpdate_cols_skip mat x n flg j :
  (forall k, 0 <= k < Z.of_nat j -> nonzero (rd x k) = false) ->
  cholUpdate_cols mat x n flg j = {| u_mat := mat; u_x := x; u_rank := n |}.
Proof.
  induction j as [|j IH]; intros Hx; [reflexivity|].
  rewrite cholUpdate_cols_S, IH by (intros k Hk; apply Hx; lia).
  apply cholUpdate_body_skip. cbn [u_x]. apply Hx. lia.
Qed.

End DenseUpdateFrame.

(** X3. A rank-one update or downdate by a vector whose first [n] cells
    are zero changes nothing: every column is skipped, [mat] and [x] are
    left as they were and the rank returned is [n]. *)
Theorem mju_cholUpdate_zero_vector {N : Num}
    (mat x : list num) (n flg_plus : Z) :
  (forall k, 0 <= k < n -> nonzero (rd x k) = false) ->
  mju_cholUpdate mat x n flg_plus
  = {| u_mat := mat; u_x := x; u_rank := n |}.
Proof.
  intros Hx. rewrite mju_cholUpdate_cols. apply cholUpdate_cols_skip.
  intros k Hk. apply Hx. lia.
Qed.

(** The factor [[2 0; 1 3]] updated by [x = [0 0]] in binary64. *)
Lemma mju_cholUpdate_zero_vector_witness :
  mju_cholUpdate (N:=Float64) [2; 0; 1; 3]%float [0; 0]%float 2 1
  = {| u_mat := [2; 0; 1; 3]%float; u_x := [0; 0]%float; u_rank := 2 |}.
Proof.
  apply (mju_cholUpdate_zero_vector (N:=Float64)).
  intros k Hk. assert (k = 0 \/ k = 1) as [-> | ->] by lia; reflexivity.
Defined.

(** X4. [mju_cholUpdate] keeps the lengths of [mat] and [x], never writes
    a cell of [mat] above the diagonal nor the cell [x[0]], and returns a
    rank between 0 and [n]: each of the [n] columns lowers it by one at
    most. *)
Theorem mju_cholUpdate_frame {N : Num}
    (mat x : list num) (n flg_plus : Z) :
  0 <= n ->
  let out := mju_cholUpdate mat x n flg_plus in
  length (u_mat out) = length mat
  /\ length (u_x out) = length x
  /\ 0 <= u_rank out <= n
  /\ rd (u_x out) 0 = rd x 0
  /\ forall i j, 0 <= i < j -> j < n ->
       rd (u_mat out) (i * n + j) = rd mat (i * n + j).
Proof.
  intros Hn out. unfold out. rewrite mju_cholUpdate_cols.
  destruct (cholUpdate_cols_length mat x n flg_plus (Z.to_nat n))
    as [Hm Hx].
  pose proof (cholUpdate_cols_rank_ge mat x n flg_plus (Z.to_nat n)) as Hge.
  pose proof (cholUpdate_cols_rank_le mat x n flg_plus 0 (Z.to_nat n)
                ltac:(lia)) as Hle.
  simpl in Hle.
  split; [exact Hm|]. split; [exact Hx|]. split; [lia|].
  split; [apply cholUpdate_cols_x_low; lia|].
  intros i j Hi Hj. apply cholUpdate_cols_upper; lia.
Qed.

(** An update of the factor [[2 0; 1 3]] by [x = [1 2]] in binary64: the
    cell above the diagonal and [x[0]] are kept. *)
Lemma mju_cholUpdate_frame_witness :
  let out := mju_cholUpdate (N:=Float64) [2; 7; 1; 3]%float [1; 2]%float 2 1 in
  0 <= 2
  /\ u_rank out = 2 /\ rd (u_mat out) 1 = 7%float /\ rd (u_x out) 0 = 1%float.
Proof.
  intros out.
  assert (0 <= 2) as Hn by lia.
  pose proof (mju_cholUpdate_frame (N:=Float64) [2; 7; 1; 3]%float
                [1; 2]%float 2 1 Hn) as (_ & _ & _ & Hx & Hup).
  split; [exact Hn|]. split; [vm_compute; reflexivity|].
  split; [exact (Hup 0 1 ltac:(lia) ltac:(lia)) | exact Hx].
Defined.

(* ================================================================= *)
(** ** Invariants of a loop that can break or return *)

(** A property that every pass establishes holds when the loop is left,
    provided one pass at least is made. *)
Lemma iterate_established {St R} (P : St -> Prop) (Q : R -> Prop)
    (body : St -> iter_result St R) (K : nat) (s0 : St) :
  (forall s, match body s with
             | Continue s' | Break s' => P s'
             | Return r => Q r
             end) ->
  match iterate (S K) body s0 with inl s => P s | inr r => Q r end.
Proof.
  intros Hbody. revert s0. induction K as [|K IH]; intros s0.
  - simpl. specialize (Hbody s0). now destruct (body s0).
  - change (iterate (S (S K)) body s0)
      with (match body s0 with
            | Continue s' => iterate (S K) body s'
            | Break s' => inl s'
            | Return r => inr r
            end).
    pose proof (Hbody s0) as H0. destruct (body s0) as [s1|s1|r1];
      [apply IH | exact H0 | exact H0].
Qed.

(** A property that every pass keeps holds when the loop is left. *)
Lemma iterate_kept {St R} (P : St -> Prop) (Q : R -> Prop)
    (body : St -> iter_result St R) (K : nat) (s0 : St) :
  P s0 ->
  (forall s, P s -> match body s with
                    | Continue s' | Break s' => P s'
                    | Return r => Q r
                    end) ->
  match iterate K body s0 with inl s => P s | inr r => Q r end.
Proof.
  intros H0 Hbody. revert s0 H0. induction K as [|K IH]; intros s0 H0.
  - exact H0.
  - simpl. specialize (Hbody s0 H0).
    destruct (body s0) as [s1|s1|r1]; [now apply IH | exact Hbody
                                       | exact Hbody].
Qed.

(** Once a pass has ended the loop, no later pass has a head. *)
Lemma iter_head_after_break {St R} (body : St -> iter_result St R)
    (k K : nat) (s0 s s' : St) :
  iter_head k body s0 = Some s -> body s = Break s' -> (k < K)%nat ->
  iter_head K body s0 = None.
Proof.
  revert K s0. induction k as [|k IH]; intros K s0 Hh Hb HK.
  - simpl in Hh. injection Hh as ->. destruct K as [|K]; [lia|].
    simpl. now rewrite Hb.
  - destruct K as [|K]; [lia|]. simpl in *.
    destruct (body s0) as [s1|s1|r1]; try discriminate.
    apply (IH K s1 Hh Hb). lia.
Qed.

(* ================================================================= *)
(** ** [mju_eig3]: the value returned *)

Section Eig3Count.
Context {N : Num}.
Variable mju_quat2Mat : list num -> list num -> list num.
Variable mju_mulMatTMat :
  list num -> list num -> list num -> Z -> Z -> Z -> list num.
Variable mju_mulMatMat :
  list num -> list num -> list num -> Z -> Z -> Z -> list num.
Variable mju_normalize4 : list num -> list num.
Variable mju_mulQuat : list num -> list num -> list num -> list num.
Variable mju_copy4 : list num -> list num -> list num.

Abbreviation jbody :=
  (eig3_body mju_quat2Mat mju_mulMatTMat mju_mulMatMat mju_normalize4
             mju_mulQuat mju_copy4).

(** A pass of the Jacobi loop breaks with the count it started with, or
    goes on with the count raised by one; it never returns. *)
Lemma eig3_body_count mat s :
  match jbody mat s with
  | Continue s' => e_iter s' = e_iter s + 1
  | Break s' => e_iter s' = e_iter s
  | Return _ => False
  end.
Proof.
  unfold eig3_body. destruct (eig3_pick _) as [[rk ck] rotk].
  destruct (nltb _ eigEPS); [reflexivity|].
  destruct (nltb _ _); [reflexivity|].
  now destruct (eig3_rotate _ _ _ _ _).
Qed.

(** The loop is left by the break of pass [k], with count [k], or by
    exhausting its [K] passes, with count [K]. *)
Lemma eig3_iterate_count mat K s0 :
  exists s, iterate K (jbody mat) s0 = inl s
    /\ ((iter_head K (jbody mat) s0 = Some s
         /\ e_iter s = e_iter s0 + Z.of_nat K)
        \/ exists k sk, (k < K)%nat
             /\ iter_head k (jbody mat) s0 = Some sk
             /\ jbody mat sk = Break s
             /\ e_iter s = e_iter s0 + Z.of_nat k).
Proof.
  revert s0. induction K as [|K IH]; intros s0.
  - exists s0. split; [reflexivity|]. left. split; [reflexivity|]. lia.
  - simpl. pose proof (eig3_body_count mat s0) as Hc.
    destruct (jbody mat s0) as [s1|s1|r1] eqn:E; [| |contradiction].
    + destruct (IH s1) as (s & Hit & Hs). exists s. split; [exact Hit|].
      destruct Hs as [[Hh He]|(k & sk & Hk & Hh & Hb & He)].
      * left. split; [exact Hh | lia].
      * right. exists (S k), sk. simpl. rewrite E.
        repeat split; [lia | exact Hh | exact Hb | lia].
    + exists s1. split; [reflexivity|]. right. exists 0%nat, s0.
      repeat split; [lia | exact E | lia].
Qed.

Lemma eig3_sort_step_count j s :
  e_iter (eig3_sort_step mju_normalize4 mju_mulQuat mju_copy4 j s)
  = e_iter s.
Proof.
  unfold eig3_sort_step. cbv zeta. destruct (nltb _ _); [|reflexivity].
  now destruct (eig3_rotate _ _ _ _ _).
Qed.

End Eig3Count.

(** The state the Jacobi loop of [mju_eig3] starts from: the unit
    quaternion, the local [tmp], and the count 0. *)
Definition eig3_start {N : Num} (eigval eigvec quat : list num)
    : eig3_state :=
  {| e_quat := wr (wr (wr (wr quat 0 n_one) 3 nzero) 2 nzero) 1 nzero;
     e_eigvec := eigvec; e_eigval := eigval;
     e_tmp := replicate 9 nzero; e_iter := 0 |}.

(** X5. The value [mju_eig3] returns is the number of Jacobi rotations it
    applied, between 0 and 500.  A value below 500 is the index of the
    pass that met one of the two [break] tests; the value 500 is returned
    exactly when none of the 500 passes met one. *)
Theorem mju_eig3_iter_count {N : Num}
    (mju_quat2Mat : list num -> list num -> list num)
    (mju_mulMatTMat mju_mulMatMat :
       list num -> list num -> list num -> Z -> Z -> Z -> list num)
    (mju_normalize4 : list num -> list num)
    (mju_mulQuat : list num -> list num -> list num -> list num)
    (mju_copy4 : list num -> list num -> list num)
    (eigval eigvec quat mat : list num) :
  let body := eig3_body mju_quat2Mat mju_mulMatTMat mju_mulMatMat
                mju_normalize4 mju_mulQuat mju_copy4 mat in
  let s0 := eig3_start eigval eigvec quat in
  let iter := e_iter (mju_eig3 mju_quat2Mat mju_mulMatTMat mju_mulMatMat
                        mju_normalize4 mju_mulQuat mju_copy4
                        eigval eigvec quat mat) in
  0 <= iter <= 500
  /\ (iter = 500 <-> exists s, iter_head 500 body s0 = Some s)
  /\ (iter < 500 ->
      exists s s', iter_head (Z.to_nat iter) body s0 = Some s
                   /\ body s = Break s').
Proof.
  intros body s0 iter.
  assert (iter = e_iter (match iterate 500 body s0 with
                         | inl s => s
                         | inr _ => s0
                         end)) as Hiter.
  { unfold iter, mju_eig3. cbn [e_iter].
    apply (for_range_ind
             (fun t => e_iter t = e_iter (match iterate 500 body s0 with
                                          | inl s => s
                                          | inr _ => s0
                                          end))); [reflexivity|].
    intros j t _ Ht. now rewrite eig3_sort_step_count. }
  destruct (eig3_iterate_count mju_quat2Mat mju_mulMatTMat mju_mulMatMat
              mju_normalize4 mju_mulQuat mju_copy4 mat 500 s0)
    as (s & Hit & Hs).
  fold body in Hit, Hs. rewrite Hit in Hiter.
  change (e_iter s0) with 0 in Hs.
  destruct Hs as [[Hh He]|(k & sk & Hk & Hh & Hb & He)].
  - assert (iter = 500) as -> by lia.
    split; [lia|]. split; [|lia]. split; [|reflexivity].
    intros _. now exists s.
  - assert (iter = Z.of_nat k) as -> by lia.
    split; [lia|]. split.
    + split; [lia|]. intros [s5 H5].
      rewrite (iter_head_after_break body k 500 s0 sk s Hh Hb Hk) in H5.
      discriminate.
    + intros _. rewrite Nat2Z.id. now exists sk, s.
Qed.

(* ================================================================= *)
(** ** The QCQP routines: the shape of what they return *)

Section QCQPShape.
Context {N : Num}.
Variable mju_dot : list num -> list num -> Z -> num.

Local Open Scope num_scope.

Lemma QCQP2_body_shape res p r s :
  match QCQP2_body res p r s with
  | Continue s' | Break s' =>
      exists v1 v2, q2_v1 s' = Some v1 /\ q2_v2 s' = Some v2
  | Return out => out = QRet (wr (wr res 0 nzero) 1 nzero) 0
  end.
Proof.
  unfold QCQP2_body. destruct (nltb _ eps10); [reflexivity|].
  destruct (nltb _ eps10); [simpl; eauto|].
  destruct (nltb _ eps10); simpl; eauto.
Qed.

Lemma QCQP3_body_shape res p r s :
  match QCQP3_body res p r s with
  | Continue s' | Break s' =>
      exists v1 v2 v3,
        q3_v1 s' = Some v1 /\ q3_v2 s' = Some v2 /\ q3_v3 s' = Some v3
  | Return out => out = QRet (wr (wr (wr res 0 nzero) 1 nzero) 2 nzero) 0
  end.
Proof.
  unfold QCQP3_body.
  destruct (QCQP3_cof p (q3_la s)) as [[[[[P11 P22] P33] P12] P13] P23].
  destruct (nltb _ eps10); [reflexivity|].
  destruct (nltb _ eps10); [simpl; eauto 6|].
  destruct (nltb _ eps10); simpl; eauto 6.
Qed.

Lemma mju_zero_frame (res : list num) n c :
  ~ (0 <= c < n)%Z -> rd (mju_zero res n) c = rd res c.
Proof.
  intros Hc. unfold mju_zero.
  apply (for_range_ind (fun l => rd l c = rd res c)); [reflexivity|].
  intros i t Hi Ht. rewrite rd_wr_ne; [exact Ht | lia].
Qed.

Lemma mju_scl_frame (res vec : list num) scl n c :
  ~ (0 <= c < n)%Z -> rd (mju_scl res vec scl n) c = rd res c.
Proof.
  intros Hc. unfold mju_scl.
  apply (for_range_ind (fun l => rd l c = rd res c)); [reflexivity|].
  intros i t Hi Ht. rewrite rd_wr_ne; [exact Ht | lia].
Qed.

End QCQPShape.

Lemma mju_QCQP2_shape {N : Num} (res Ain bin d : list num) (r : num) :
  exists out flag,
    mju_QCQP2 res Ain bin d r = QRet out flag
    /\ (flag = 0 \/ flag = 1)
    /\ length out = length res
    /\ forall i, i <> 0 -> i <> 1 -> rd out i = rd res i.
Proof.
  unfold mju_QCQP2.
  pose proof (iterate_established _ _ _ 19 QCQP2_init
                (QCQP2_body_shape res (QCQP2_scale Ain bin d) r)) as H.
  destruct (iterate 20 _ _) as [s|out].
  - destruct H as (v1 & v2 & H1 & H2). unfold QCQP2_finish.
    rewrite H1, H2. do 2 eexists. split; [reflexivity|].
    split; [destruct (nonzero _); auto|].
    split; [now rewrite !wr_length|].
    intros i H0 H1'. now rewrite !rd_wr_ne by congruence.
  - subst out. do 2 eexists. split; [reflexivity|].
    split; [auto|]. split; [now rewrite !wr_length|].
    intros i H0 H1'. now rewrite !rd_wr_ne by congruence.
Qed.

Lemma mju_QCQP3_shape {N : Num} (res Ain bin d : list num) (r : num) :
  exists out flag,
    mju_QCQP3 res Ain bin d r = QRet out flag
    /\ (flag = 0 \/ flag = 1)
    /\ length out = length res
    /\ forall i, i <> 0 -> i <> 1 -> i <> 2 -> rd out i = rd res i.
Proof.
  unfold mju_QCQP3.
  pose proof (iterate_established _ _ _ 19 QCQP3_init
                (QCQP3_body_shape res (QCQP3_scale Ain bin d) r)) as H.
  destruct (iterate 20 _ _) as [s|out].
  - destruct H as (v1 & v2 & v3 & H1 & H2 & H3). unfold QCQP3_finish.
    rewrite H1, H2, H3. do 2 eexists. split; [reflexivity|].
    split; [destruct (nonzero _); auto|].
    split; [now rewrite !wr_length|].
    intros i H0 H1' H2'. now rewrite !rd_wr_ne by congruence.
  - subst out. do 2 eexists. split; [reflexivity|].
    split; [auto|]. split; [now rewrite !wr_length|].
    intros i H0 H1' H2'. now rewrite !rd_wr_ne by congruence.
Qed.

(** X6. [mju_QCQP2] and [mju_QCQP3] always return: a flag that is 0 or 1,
    and [res] with its length kept and no cell written other than the
    first two (three). *)
Theorem QCQP23_result_shape {N : Num} :
  (forall (res Ain bin d : list num) (r : num),
      exists out flag,
        mju_QCQP2 res Ain bin d r = QRet out flag
        /\ (flag = 0 \/ flag = 1)
        /\ length out = length res
        /\ forall i, i <> 0 -> i <> 1 -> rd out i = rd res i)
  /\ (forall (res Ain bin d : list num) (r : num),
      exists out flag,
        mju_QCQP3 res Ain bin d r = QRet out flag
        /\ (flag = 0 \/ flag = 1)
        /\ length out = length res
        /\ forall i, i <> 0 -> i <> 1 -> i <> 2 -> rd out i = rd res i).
Proof. split; [exact mju_QCQP2_shape | exact mju_QCQP3_shape]. Qed.

Section QCQPnShape.
Context {N : Num}.
Variable mju_dot : list num -> list num -> Z -> num.

(** The cells of [res] outside the first [n] are those of the caller's
    buffer. *)
Definition same_frame (res : list num) (n : Z) (l : list num) : Prop :=
  length l = length res /\ forall i, ~ 0 <= i < n -> rd l i = rd res i.

Lemma QCQP_body_shape A b r n res s :
  same_frame res n (qn_res s) ->
  match QCQP_body mju_dot A b r n s with
  | Continue s' | Break s' => same_frame res n (qn_res s')
  | Return out => exists l, out = QRet l 0 /\ same_frame res n l
  end.
Proof.
  intros [Hl Hf].
  assert (same_frame res n
            (mju_scl
               (mju_cholSolve mju_dot (qn_res s)
                  (fst (mju_cholFactor mju_dot
                          (QCQP_Ala A (qn_Ala s) (qn_la s) n) n eps10))
                  (Some b) n)
               (mju_cholSolve mju_dot (qn_res s)
                  (fst (mju_cholFactor mju_dot
                          (QCQP_Ala A (qn_Ala s) (qn_la s) n) n eps10))
                  (Some b) n)
               (- n_one)%num n)) as Hres.
  { split.
    - now rewrite mju_scl_length, mju_cholSolve_length.
    - intros i Hi.
      now rewrite mju_scl_frame, mju_cholSolve_frame, Hf by exact Hi. }
  unfold QCQP_body. destruct (mju_cholFactor _ _ _ _) as [Ala rank].
  cbn [fst] in Hres.
  destruct (rank <? n).
  { eexists. split; [reflexivity|]. split.
    - now rewrite mju_zero_length.
    - intros i Hi. now rewrite mju_zero_frame, Hf by exact Hi. }
  destruct (nltb _ eps10); [exact Hres|].
  destruct (nltb _ eps10); exact Hres.
Qed.

End QCQPnShape.

(** [mju_QCQP] returns for [n <= 5]. *)
Lemma mju_QCQP_returns {N : Num}
    (mju_dot : list num -> list num -> Z -> num)
    (res Ain bin d : list num) (r : num) (n : Z) :
  n <= 5 ->
  exists out flag,
    mju_QCQP mju_dot res Ain bin d r n = QRet out flag
    /\ (flag = 0 \/ flag = 1)
    /\ length out = length res
    /\ forall i, ~ 0 <= i < n -> rd out i = rd res i.
Proof.
  intros Hn. unfold mju_QCQP.
  rewrite (proj2 (Z.ltb_ge 5 n) Hn).
  destruct (QCQP_scale Ain bin d n) as [A b].
  pose proof (iterate_kept (fun s => same_frame res n (qn_res s))
                (fun out => exists l, out = QRet l 0 /\ same_frame res n l)
                (QCQP_body mju_dot A b r n) 20 (QCQP_init res)) as H.
  specialize (H ltac:(split; [reflexivity | intros; reflexivity])
                (fun s => QCQP_body_shape mju_dot A b r n res s)).
  destruct (iterate 20 _ _) as [s|out].
  - destruct H as [Hl Hf]. unfold QCQP_finish. do 2 eexists.
    split; [reflexivity|]. split; [destruct (nonzero _); auto|].
    split.
    + apply (for_range_ind (fun l => length l = length res));
        [exact Hl|].
      intros i t _ Ht. now rewrite wr_length.
    + intros i Hi.
      apply (for_range_ind (fun l => rd l i = rd res i));
        [now apply Hf|].
      intros j t Hj Ht. rewrite rd_wr_ne; [exact Ht | lia].
  - destruct H as (l & -> & Hl & Hf). do 2 eexists.
    split; [reflexivity|]. split; [auto|]. split; [exact Hl | exact Hf].
Qed.

(** X7. [mju_QCQP] stops in [mju_error] exactly when [n > 5]; for
    [n <= 5] it returns a flag that is 0 or 1, and [res] with its length
    kept and no cell written outside the first [n]. *)
Theorem mju_QCQP_result_shape {N : Num}
    (mju_dot : list num -> list num -> Z -> num)
    (res Ain bin d : list num) (r : num) (n : Z) :
  (5 < n ->
   mju_QCQP mju_dot res Ain bin d r n = QFatal "mju_QCQP supports n up to 5")
  /\ (n <= 5 ->
      exists out flag,
        mju_QCQP mju_dot res Ain bin d r n = QRet out flag
        /\ (flag = 0 \/ flag = 1)
        /\ length out = length res
        /\ forall i, ~ 0 <= i < n -> rd out i = rd res i).
Proof.
  split; intros Hn.
  - unfold mju_QCQP. now rewrite (proj2 (Z.ltb_lt 5 n) Hn).
  - now apply mju_QCQP_returns.
Qed.

(* ================================================================= *)
(** ** Loops with an error exit that end normally *)

Lemma for_down_m_done {St} (P : Z -> St -> Prop)
    (body : Z -> St -> outcome St) (k : nat) (hi : Z) (s s' : St) :
  P hi s ->
  (forall i t t', hi - Z.of_nat k < i <= hi -> P i t -> body i t = Done t' ->
     P (i - 1) t') ->
  for_down_m k hi body s = Done s' -> P (hi - Z.of_nat k) s'.
Proof.
  revert hi s. induction k as [|k IH]; intros hi s Hs Hstep Hdone.
  - simpl in Hdone. injection Hdone as <-.
    now replace (hi - Z.of_nat 0) with hi by lia.
  - simpl in Hdone. destruct (body hi s) as [t|msg t] eqn:E; [|discriminate].
    replace (hi - Z.of_nat (S k)) with (hi - 1 - Z.of_nat k) by lia.
    apply (IH (hi - 1) t).
    + apply (Hstep hi s t); [lia | exact Hs | exact E].
    + intros i u u' Hi. apply Hstep. lia.
    + exact Hdone.
Qed.

Lemma for_up_m_done {St} (P : Z -> St -> Prop)
    (body : Z -> St -> outcome St) (k : nat) (lo : Z) (s s' : St) :
  P lo s ->
  (forall i t t', lo <= i < lo + Z.of_nat k -> P i t -> body i t = Done t' ->
     P (i + 1) t') ->
  for_up_m k lo body s = Done s' -> P (lo + Z.of_nat k) s'.
Proof.
  revert lo s. induction k as [|k IH]; intros lo s Hs Hstep Hdone.
  - simpl in Hdone. injection Hdone as <-.
    now replace (lo + Z.of_nat 0) with lo by lia.
  - simpl in Hdone. destruct (body lo s) as [t|msg t] eqn:E; [|discriminate].
    replace (lo + Z.of_nat (S k)) with (lo + 1 + Z.of_nat k) by lia.
    apply (IH (lo + 1) t).
    + apply (Hstep lo s t); [lia | exact Hs | exact E].
    + intros i u u' Hi. apply Hstep. lia.
    + exact Hdone.
Qed.

(* ================================================================= *)
(** ** [mju_factorLUSparse]: the counters left in [scratch] *)

Section SparseLUScratch.
Context {N : Num}.

(** The counters [a] are those of [b], some of them lowered. *)
Definition counters_le (a b : list Z) : Prop :=
  length a = length b /\ forall i, rd a i <= rd b i.

Lemma counters_le_refl a : counters_le a a.
Proof. split; [reflexivity | intros; lia]. Qed.

Lemma counters_le_trans a b c :
  counters_le a b -> counters_le b c -> counters_le a c.
Proof.
  intros [H1 H2] [H3 H4]. split; [congruence|].
  intros i. specialize (H2 i). specialize (H4 i). lia.
Qed.

Lemma counters_le_dec a j : counters_le (wr a j (rd a j - 1)) a.
Proof.
  split; [apply wr_length|]. intros i.
  destruct (decide (i = j)) as [->|Hne].
  - destruct (decide (0 <= j < Z.of_nat (length a))) as [Hj|Hj].
    + rewrite rd_wr_eq by exact Hj. lia.
    + unfold wr, rd. destruct (decide (0 <= j)); [|lia].
      rewrite list_insert_ge by lia. lia.
  - rewrite rd_wr_ne by congruence. lia.
Qed.

Lemma LU_merge_length k colind LUji icnt jcnt (LU : list num) :
  match LU_merge k colind LUji icnt jcnt LU with
  | Done (LU', _, _) | Fatal _ (LU', _, _) => length LU' = length LU
  end.
Proof.
  revert icnt jcnt LU. induction k as [|k IH]; intros icnt jcnt LU;
    [reflexivity|].
  simpl. destruct (_ =? _).
  - specialize (IH (icnt + 1) (jcnt + 1)
                  (wr LU jcnt (rd LU jcnt - rd LU icnt * LUji)%num)).
    destruct (LU_merge _ _ _ _ _ _) as [[[L ?] ?]|? [[L ?] ?]];
      now rewrite wr_length in IH.
  - destruct (_ <? _); [apply IH | reflexivity].
Qed.

Lemma LU_row_done rowadr colind i ii j LU rem LU' rem' :
  LU_row rowadr colind i ii j (LU, rem) = Done (LU', rem') ->
  length LU' = length LU /\ counters_le rem' rem
  /\ forall q, q <> j -> rd rem' q = rd rem q.
Proof.
  unfold LU_row. destruct (_ =? i).
  - unfold LU_merge_rows.
    match goal with
    | |- context [LU_merge ?k ?c ?v ?a ?b ?l] =>
        pose proof (LU_merge_length k c v a b l) as Hl;
        destruct (LU_merge k c v a b l) as [[[L ic] jc]|msg [[L ic] jc]]
    end; [|discriminate].
    destruct (_ || _); [discriminate|].
    intros H. injection H as <- <-. rewrite wr_length in Hl.
    split; [exact Hl|]. split; [apply counters_le_dec|].
    intros q Hq. now rewrite rd_wr_ne by congruence.
  - intros H. injection H as <- <-.
    split; [reflexivity|]. split; [apply counters_le_refl | reflexivity].
Qed.

Lemma LU_diag_done rowadr colind i LU rem LU' rem' :
  0 <= i < Z.of_nat (length rem) ->
  LU_diag rowadr colind i (LU, rem) = Done (LU', rem') ->
  length LU' = length LU /\ counters_le rem' rem
  /\ rd rem' i = rd rem i - 1
  /\ rd colind (rd rowadr i + rd rem' i) = i.
Proof.
  intros Hi. unfold LU_diag.
  destruct (rd colind (rd rowadr i + rd rem i - 1) =? i) eqn:Ed;
    [|discriminate].
  simpl negb. cbv iota.
  destruct (nltb _ mjMINVAL); [discriminate|].
  intros Hdone.
  pose (P := fun (j : Z) (st : list num * list Z) =>
               length (fst st) = length LU
               /\ counters_le (snd st) rem
               /\ rd (snd st) i = rd rem i - 1).
  assert (P (i - 1 - Z.of_nat (Z.to_nat i)) (LU', rem')) as (H1 & H2 & H3).
  { refine (for_down_m_done P _ _ _ _ _ _ _ Hdone).
    - unfold P. cbn [fst snd]. split; [reflexivity|].
      split; [apply counters_le_dec | now apply rd_wr_eq].
    - intros j [L1 r1] [L2 r2] Hj (Ha & Hb & Hc) Hrow. unfold P.
      cbn [fst snd] in *.
      apply LU_row_done in Hrow. destruct Hrow as (Hl & Hle & Hne).
      split; [congruence|]. split; [eapply counters_le_trans; eassumption|].
      rewrite Hne by lia. exact Hc. }
  cbn [fst snd] in H1, H2, H3.
  split; [exact H1|]. split; [exact H2|]. split; [exact H3|].
  rewrite H3. replace (rd rowadr i + (rd rem i - 1))
    with (rd rowadr i + rd rem i - 1) by lia.
  now apply Z.eqb_eq.
Qed.

(** The final loop reports an error or leaves the state as it found it,
    every counter pointing at its diagonal. *)
Lemma LU_check_done rowadr colind k lo (st st' : list num * list Z) :
  for_up_m k lo (LU_check rowadr colind) st = Done st' ->
  st' = st
  /\ forall i, lo <= i < lo + Z.of_nat k ->
       0 <= rd (snd st) i /\ rd colind (rd rowadr i + rd (snd st) i) = i.
Proof.
  revert lo. induction k as [|k IH]; intros lo Hdone.
  - simpl in Hdone. injection Hdone as <-. split; [reflexivity | lia].
  - simpl in Hdone. unfold LU_check at 1 in Hdone.
    destruct st as [LU rem].
    destruct (rd rem lo <? 0) eqn:E1; [discriminate|].
    destruct (rd colind (rd rowadr lo + rd rem lo) =? lo) eqn:E2;
      [|discriminate].
    simpl in Hdone. destruct (IH (lo + 1) Hdone) as [-> Hall].
    split; [reflexivity|]. intros i Hi.
    destruct (decide (i = lo)) as [->|Hne].
    + cbn [snd]. split; [now apply Z.ltb_ge | now apply Z.eqb_eq].
    + apply Hall. lia.
Qed.

Lemma memcpy_int_copied (dst src : list Z) n i :
  0 <= i < n -> i < Z.of_nat (length dst) ->
  rd (memcpy_int dst src n) i = rd src i.
Proof.
  intros Hi Hl. unfold memcpy_int.
  change (fun (i : Z) (acc : list Z) => wr acc i (rd src i))
    with (cell_body (fun i : Z => i) (fun (i : Z) (_ : Z) => rd src i)).
  destruct (decide (n <= Z.of_nat (length dst))) as [Hn|Hn].
  - rewrite (cell_loop_written (fun i : Z => i)
               (fun (i : Z) (_ : Z) => rd src i) 0 n dst i);
      [reflexivity | auto | intros; lia | lia].
  - (* the cells beyond the buffer are not written *)
    unfold for_range. rewrite Z.sub_0_r.
    assert (forall k, (Z.to_nat i < k)%nat ->
              rd (for_up k 0
                    (cell_body (fun i : Z => i)
                       (fun (i : Z) (_ : Z) => rd src i)) dst) i
              = rd src i
              /\ length (for_up k 0
                    (cell_body (fun i : Z => i)
                       (fun (i : Z) (_ : Z) => rd src i)) dst)
                 = length dst) as H.
    { induction k as [|k IH]; intros Hk; [lia|].
      rewrite for_up_snoc, Z.add_0_l.
      assert (length (for_up k 0
                    (cell_body (fun i : Z => i)
                       (fun (i : Z) (_ : Z) => rd src i)) dst)
              = length dst) as Hlen.
      { apply (for_up_ind (fun l => length l = length dst)); [done|].
        intros j t _ Ht. unfold cell_body. now rewrite wr_length. }
      unfold cell_body at 1 3. split; [|now rewrite wr_length].
      destruct (decide (Z.of_nat k = i)) as [->|Hne].
      - apply rd_wr_eq. lia.
      - rewrite rd_wr_ne by exact Hne. apply IH. lia. }
    apply H. lia.
Qed.

Lemma memcpy_int_length (dst src : list Z) n :
  length (memcpy_int dst src n) = length dst.
Proof.
  unfold memcpy_int.
  apply (for_range_ind (fun l => length l = length dst)); [done|].
  intros i t _ Ht. now rewrite wr_length.
Qed.

End SparseLUScratch.

(** The counters [mju_factorLUSparse] leaves in [scratch]. *)
Lemma factorLUSparse_offsets {N : Num}
    (LU : list num) (n : Z) (scratch rownnz rowadr colind : list Z)
    (LU' : list num) (remaining : list Z) :
  n <= Z.of_nat (length scratch) ->
  mju_factorLUSparse LU n scratch rownnz rowadr colind
  = Done (LU', remaining) ->
  length LU' = length LU
  /\ length remaining = length scratch
  /\ forall i, 0 <= i < n ->
       0 <= rd remaining i < rd rownnz i
       /\ rd colind (rd rowadr i + rd remaining i) = i.
Proof.
  intros Hn. unfold mju_factorLUSparse.
  destruct (for_down_m _ _ _ _) as [[L1 r1]|msg st] eqn:E1; [|discriminate].
  intros E2. apply LU_check_done in E2. destruct E2 as [E2 Hchk].
  injection E2 as -> ->. cbn [snd] in Hchk.
  pose (P := fun (j : Z) (st : list num * list Z) =>
               length (fst st) = length LU
               /\ counters_le (snd st) (memcpy_int scratch rownnz n)
               /\ forall i, j < i < n ->
                    rd (snd st) i <= rd (memcpy_int scratch rownnz n) i - 1).
  assert (P (n - 1 - Z.of_nat (Z.to_nat n)) (L1, r1)) as (H1 & H2 & H3).
  { refine (for_down_m_done P _ _ _ _ _ _ _ E1).
    - unfold P. cbn [fst snd]. split; [reflexivity|].
      split; [apply counters_le_refl | intros; lia].
    - intros j [La ra] [Lb rb] Hj (Ha & Hb & Hc) Hd. unfold P.
      cbn [fst snd] in *.
      apply LU_diag_done in Hd.
      + destruct Hd as (Hl & Hle & Hdec & _).
        split; [congruence|].
        split; [eapply counters_le_trans; eassumption|].
        intros i Hi. destruct (decide (i = j)) as [->|Hne].
        * rewrite Hdec. destruct Hb as [_ Hb]. specialize (Hb j). lia.
        * destruct Hle as [_ Hle]. specialize (Hle i).
          specialize (Hc i ltac:(lia)). lia.
      + destruct Hb as [Hb _]. rewrite Hb, memcpy_int_length. lia. }
  cbn [fst snd] in H1, H2, H3.
  split; [exact H1|].
  split; [destruct H2 as [-> _]; apply memcpy_int_length|].
  intros i Hi. destruct (Hchk i ltac:(lia)) as [Hge Hcol].
  split; [|exact Hcol]. split; [exact Hge|].
  specialize (H3 i ltac:(lia)).
  rewrite memcpy_int_copied in H3 by lia. lia.
Qed.

(** X8. When [mju_factorLUSparse] returns, [LU] and [scratch] have kept
    their lengths, and for every row [i] the counter [scratch[i]] is the
    offset of the diagonal cell within the row: it lies in
    [0 <= scratch[i] < rownnz[i]] and [colind[rowadr[i] + scratch[i]]] is
    [i]. *)
Theorem mju_factorLUSparse_scratch {N : Num}
    (LU : list num) (n : Z) (scratch rownnz rowadr colind : list Z)
    (LU' : list num) (remaining : list Z) :
  n <= Z.of_nat (length scratch) ->
  mju_factorLUSparse LU n scratch rownnz rowadr colind
  = Done (LU', remaining) ->
  length LU' = length LU
  /\ length remaining = length scratch
  /\ forall i, 0 <= i < n ->
       0 <= rd remaining i < rd rownnz i
       /\ rd colind (rd rowadr i + rd remaining i) = i.
Proof.
  intros Hn Hrun. now apply (factorLUSparse_offsets LU n scratch).
Qed.

(** The matrix [[2 1; 1 3]], stored in full, in binary64. *)
Lemma mju_factorLUSparse_scratch_witness :
  exists LU' remaining,
    mju_factorLUSparse (N:=Float64) [2; 1; 1; 3]%float 2 [0; 0] [2; 2]
                       [0; 2] [0; 1; 0; 1]
    = Done (LU', remaining)
    /\ remaining = [0; 1]
    /\ forall i, 0 <= i < 2 ->
         0 <= rd remaining i < rd [2; 2] i
         /\ rd [0; 1; 0; 1] (rd [0; 2] i + rd remaining i) = i.
Proof.
  eexists _, _.
  assert (mju_factorLUSparse (N:=Float64) [2; 1; 1; 3]%float 2 [0; 0] [2; 2]
                             [0; 2] [0; 1; 0; 1]
          = Done ([1.6666666666666667; 0.33333333333333331; 1; 3]%float, [0; 1])) as Hrun
      by (vm_compute; reflexivity).
  assert (2 <= Z.of_nat (length [0; 0])) as Hlen by (simpl; lia).
  split; [exact Hrun|]. split; [reflexivity|].
  exact (proj2 (proj2 (mju_factorLUSparse_scratch (N:=Float64) _ _ _ _ _ _ _ _
                         Hlen Hrun))).
Defined.

(* ================================================================= *)
(** ** [mju_cholFactorSparse]: the rank returned *)

Section SparseCholRank.
Context {N : Num}.
Variable mju_combineSparse :
  list num -> list num -> Z -> num -> num -> Z -> Z -> list Z -> list Z ->
  list num * list Z * Z.

Lemma cholFactorSparse_combine_rank rowadr r i s :
  cs_rank (cholFactorSparse_combine mju_combineSparse rowadr r i s)
  = cs_rank s.
Proof.
  unfold cholFactorSparse_combine.
  now destruct (mju_combineSparse _ _ _ _ _ _ _ _ _) as [[dst dst_ind] nn].
Qed.

(** A row of the backpass lowers the rank by one, when its diagonal is
    below [mindiag], or keeps it. *)
Lemma cholFactorSparse_row_rank mindiag rowadr r s :
  cs_rank s - 1
  <= cs_rank (cholFactorSparse_row mju_combineSparse mindiag rowadr r s)
  <= cs_rank s.
Proof.
  unfold cholFactorSparse_row. cbv zeta.
  destruct (nltb _ mindiag);
    match goal with
    | |- _ <= cs_rank (for_range ?lo ?hi ?b ?s0) <= _ =>
        assert (cs_rank (for_range lo hi b s0) = cs_rank s0) as ->
          by (apply (for_range_ind (fun t => cs_rank t = cs_rank s0));
              [reflexivity
              | intros i t _ Ht; now rewrite cholFactorSparse_combine_rank])
    end; cbn [cs_rank]; lia.
Qed.

Lemma cholFactorSparse_shrink_rank rowadr k i s s' :
  for_up_m k i (cholFactorSparse_shrink rowadr) s = Done s' ->
  cs_rank s' = cs_rank s.
Proof.
  revert i s. induction k as [|k IH]; intros i s H.
  - simpl in H. now injection H as <-.
  - simpl in H. unfold cholFactorSparse_shrink at 1 in H. cbv zeta in H.
    destruct (_ || _); [discriminate|]. now rewrite (IH _ _ H).
Qed.

Lemma cholFactorSparse_rows_rank mindiag rowadr k hi s :
  cs_rank s - Z.of_nat k
  <= cs_rank (for_down k hi
                (cholFactorSparse_row mju_combineSparse mindiag rowadr) s)
  <= cs_rank s.
Proof.
  revert hi s. induction k as [|k IH]; intros hi s; [simpl; lia|].
  simpl for_down.
  pose proof (cholFactorSparse_row_rank mindiag rowadr hi s) as H1.
  specialize (IH (hi - 1)
                (cholFactorSparse_row mju_combineSparse mindiag rowadr hi s)).
  lia.
Qed.

End SparseCholRank.

(** X9. The rank [mju_cholFactorSparse] returns lies between 0 and [n]:
    it starts at [n] and each of the [n] rows of the backpass lowers it
    by one at most, whatever the row combine does. *)
Theorem mju_cholFactorSparse_rank_range {N : Num}
    (mju_combineSparse :
       list num -> list num -> Z -> num -> num -> Z -> Z -> list Z -> list Z ->
       list num * list Z * Z)
    (mat : list num) (n : Z) (mindiag : num)
    (rownnz rowadr colind : list Z) (pstack : Z) (s : chol_state) :
  0 <= n ->
  mju_cholFactorSparse mju_combineSparse mat n mindiag rownnz rowadr colind
                       pstack = Done s ->
  0 <= cs_rank s <= n.
Proof.
  intros Hn. unfold mju_cholFactorSparse, cholFactorSparse_check.
  destruct (for_up_m _ _ _ _) as [s1|msg s1] eqn:E; [|discriminate].
  intros H. injection H as <-. cbn [free_stack cs_rank].
  apply cholFactorSparse_shrink_rank in E. cbn [enter_sparse cs_rank] in E.
  pose proof (cholFactorSparse_rows_rank mju_combineSparse mindiag rowadr
                (Z.to_nat n) (n - 1) s1) as H.
  lia.
Qed.

(** The factor of [[4 2; 2 3]], stored in full, in binary64: no diagonal
    is below [1e-10] and the rank is 2. *)
Lemma mju_cholFactorSparse_rank_range_witness :
  exists s,
    mju_cholFactorSparse (N:=Float64) Sparse.combineSparse
      [4; 0; 2; 3]%float 2 1e-10%float [1; 2] [0; 2] [0; 0; 0; 1] 100
    = Done s
    /\ cs_rank s = 2 /\ 0 <= cs_rank s <= 2.
Proof.
  destruct (mju_cholFactorSparse (N:=Float64) Sparse.combineSparse
              [4; 0; 2; 3]%float 2 1e-10%float [1; 2] [0; 2] [0; 0; 0; 1]
              100) as [s|msg s] eqn:Hrun; [|vm_compute in Hrun; discriminate].
  exists s. split; [reflexivity|].
  split; [vm_compute in Hrun; now injection Hrun as <-|].
  assert (0 <= 2) as Hn by lia.
  exact (mju_cholFactorSparse_rank_range (N:=Float64) _ _ _ _ _ _ _ _ _
           Hn Hrun).
Defined.

(* ================================================================= *)
(** ** The QCQP routines in exact arithmetic *)


Section QCQPExact.
Local Open Scope R_scope.

Abbreviation numR := (@num Exact).


Lemma exact_ltb_false (a b : R) : Rnum.ltb a b = false -> b <= a.
Proof. unfold Rnum.ltb. destruct (Rlt_dec a b); [discriminate | lra]. Qed.


Lemma exact_nonzero (a : R) : nonzero (N:=Exact) a = true <-> a <> 0.
Proof.
  unfold nonzero. simpl. unfold Rnum.eqb.
  destruct (Req_dec_T a 0); simpl; split; intros; try congruence; lra.
Qed.

Lemma exact_nonzero_false (a : R) : nonzero (N:=Exact) a = false -> a = 0.
Proof.
  unfold nonzero. simpl. unfold Rnum.eqb.
  destruct (Req_dec_T a 0); simpl; [auto | discriminate].
Qed.







End QCQPExact.




Section QCQP3Exact.
Local Open Scope R_scope.








End QCQP3Exact.



(* ================================================================= *)
(** ** Sums in exact arithmetic *)

Lemma rd_ptr {A} `{Inhabited A} (l : list A) (off i : Z) :
  0 <= off -> 0 <= i -> rd (ptr l off) i = rd l (off + i).
Proof.
  intros Ho Hi. unfold rd, ptr. rewrite !decide_True by lia.
  rewrite lookup_total_drop. f_equal. lia.
Qed.

(** The values of the exact carrier. *)
Abbreviation numE := (@num Exact).

Section ExactSums.
Local Open Scope R_scope.

(** The sum of [f t] for [lo <= t < hi], added left to right from 0, as
    [mju_dot] adds its products. *)
Definition sumR (lo hi : Z) (f : Z -> R) : R :=
  for_range lo hi (fun t (acc : R) => acc + f t) 0.

Lemma sumR_nil lo hi f : (hi <= lo)%Z -> sumR lo hi f = 0.
Proof.
  intros H. unfold sumR, for_range.
  now replace (Z.to_nat (hi - lo)) with 0%nat by lia.
Qed.

Lemma sumR_snoc lo hi f :
  (lo <= hi)%Z -> sumR lo (hi + 1) f = sumR lo hi f + f hi.
Proof.
  intros H. unfold sumR, for_range.
  replace (Z.to_nat (hi + 1 - lo)) with (S (Z.to_nat (hi - lo))) by lia.
  rewrite for_up_snoc. do 2 f_equal. lia.
Qed.

(** Induction over the upper end of a sum. *)
Lemma sumR_ind (P : Z -> R -> Prop) lo f :
  P lo 0 ->
  (forall hi acc, (lo <= hi)%Z -> P hi acc -> P (hi + 1)%Z (acc + f hi)) ->
  forall hi, (lo <= hi)%Z -> P hi (sumR lo hi f).
Proof.
  intros H0 Hstep hi Hhi.
  replace hi with (lo + Z.of_nat (Z.to_nat (hi - lo)))%Z by lia.
  induction (Z.to_nat (hi - lo)) as [|k IH].
  - rewrite Z.add_0_r, sumR_nil by lia. exact H0.
  - replace (lo + Z.of_nat (S k))%Z with (lo + Z.of_nat k + 1)%Z by lia.
    rewrite sumR_snoc by lia. apply Hstep; [lia | exact IH].
Qed.

Lemma sumR_ext lo hi f g :
  (forall t, (lo <= t < hi)%Z -> f t = g t) -> sumR lo hi f = sumR lo hi g.
Proof.
  destruct (Z_le_gt_dec lo hi) as [Hle|Hgt];
    [|intros _; now rewrite !sumR_nil by lia].
  revert hi Hle.
  apply (sumR_ind (fun hi acc =>
           (forall t, (lo <= t < hi)%Z -> f t = g t) -> acc = sumR lo hi g)).
  - intros _. now rewrite sumR_nil by lia.
  - intros hi acc Hhi IH Hfg. rewrite sumR_snoc by lia.
    rewrite IH by (intros t Ht; apply Hfg; lia).
    now rewrite Hfg by lia.
Qed.

Lemma sumR_zero lo hi f :
  (forall t, (lo <= t < hi)%Z -> f t = 0) -> sumR lo hi f = 0.
Proof.
  intros H. rewrite (sumR_ext lo hi f (fun _ => 0) H). clear H.
  destruct (Z_le_gt_dec lo hi) as [Hle|Hgt]; [|now rewrite sumR_nil by lia].
  revert hi Hle. apply (sumR_ind (fun _ acc => acc = 0)); [reflexivity|].
  intros hi acc _ ->. lra.
Qed.

Lemma sumR_add lo hi f g :
  sumR lo hi (fun t => f t + g t) = sumR lo hi f + sumR lo hi g.
Proof.
  destruct (Z_le_gt_dec lo hi) as [Hle|Hgt];
    [|rewrite !sumR_nil by lia; lra].
  revert hi Hle.
  apply (sumR_ind (fun hi acc => acc = sumR lo hi f + sumR lo hi g)).
  - rewrite !sumR_nil by lia. lra.
  - intros hi acc Hhi ->. rewrite !sumR_snoc by lia. lra.
Qed.

Lemma sumR_scal lo hi c f :
  sumR lo hi (fun t => c * f t) = c * sumR lo hi f.
Proof.
  destruct (Z_le_gt_dec lo hi) as [Hle|Hgt];
    [|rewrite !sumR_nil by lia; lra].
  revert hi Hle.
  apply (sumR_ind (fun hi acc => acc = c * sumR lo hi f)).
  - rewrite !sumR_nil by lia. lra.
  - intros hi acc Hhi ->. rewrite !sumR_snoc by lia. lra.
Qed.

Lemma sumR_split lo m hi f :
  (lo <= m <= hi)%Z -> sumR lo hi f = sumR lo m f + sumR m hi f.
Proof.
  intros [Hlo Hhi]. revert hi Hhi.
  intros hi Hhi.
  replace hi with (m + Z.of_nat (Z.to_nat (hi - m)))%Z by lia.
  induction (Z.to_nat (hi - m)) as [|k IH].
  - rewrite Z.add_0_r, (sumR_nil m m) by lia. lra.
  - replace (m + Z.of_nat (S k))%Z with (m + Z.of_nat k + 1)%Z by lia.
    rewrite !sumR_snoc by lia. rewrite IH. lra.
Qed.

Lemma sumR_first lo hi f :
  (lo < hi)%Z -> sumR lo hi f = f lo + sumR (lo + 1) hi f.
Proof.
  intros H. rewrite (sumR_split lo (lo + 1) hi) by lia.
  rewrite sumR_snoc, sumR_nil by lia. lra.
Qed.

(** A sum over a rectangle, by rows or by columns. *)
Lemma sumR_swap a b c d (f : Z -> Z -> R) :
  sumR a b (fun i => sumR c d (fun j => f i j))
  = sumR c d (fun j => sumR a b (fun i => f i j)).
Proof.
  destruct (Z_le_gt_dec a b) as [Hle|Hgt].
  - revert b Hle.
    apply (sumR_ind (fun b acc =>
             acc = sumR c d (fun j => sumR a b (fun i => f i j)))).
    + symmetry. apply sumR_zero. intros j _. now rewrite sumR_nil by lia.
    + intros b acc Hb ->. rewrite <- sumR_add. apply sumR_ext.
      intros j _. now rewrite sumR_snoc by lia.
  - rewrite sumR_nil by lia. symmetry. apply sumR_zero.
    intros j _. now rewrite sumR_nil by lia.
Qed.

(** A sum whose terms vanish beyond [m]. *)
Lemma sumR_trim lo m hi f :
  (lo <= m <= hi)%Z -> (forall t, (m <= t < hi)%Z -> f t = 0) ->
  sumR lo hi f = sumR lo m f.
Proof.
  intros Hm Hz. rewrite (sumR_split lo m hi) by lia.
  rewrite (sumR_zero m hi) by exact Hz. lra.
Qed.

(** A sum whose terms vanish before [m]. *)
Lemma sumR_skip lo m hi f :
  (lo <= m <= hi)%Z -> (forall t, (lo <= t < m)%Z -> f t = 0) ->
  sumR lo hi f = sumR m hi f.
Proof.
  intros Hm Hz. rewrite (sumR_split lo m hi) by lia.
  rewrite (sumR_zero lo m) by exact Hz. lra.
Qed.

(** [mju_dot] as a sum. *)
Lemma dot_seq_sumR (a b : list (@num Exact)) (n : Z) :
  dot_seq (N:=Exact) a b n = sumR 0 n (fun t => rd a t * rd b t).
Proof. reflexivity. Qed.

End ExactSums.

(* ================================================================= *)
(** ** [mju_cholFactor] in exact arithmetic: [L*L' = mat] *)

(** An equation between values of the exact carrier, read as an equation
    between real numbers. *)
Ltac eqR :=
  match goal with |- @eq _ ?a ?b => change (@eq R a b) end.

Section FactorExact.
Local Open Scope R_scope.

(** The product of the first [m] cells of row [i] and of row [j] of an
    [n x n] buffer. *)
Definition rowdot (n : Z) (M : list numE) (i j m : Z) : R :=
  sumR 0 m (fun t => rd M (i * n + t) * rd M (j * n + t)).

Lemma dot_seq_rowdot n (M : list numE) i j m :
  (0 <= n)%Z -> (0 <= i)%Z -> (0 <= j)%Z ->
  dot_seq (N:=Exact) (ptr M (i * n)) (ptr M (j * n)) m = rowdot n M i j m.
Proof.
  intros Hn Hi Hj. rewrite dot_seq_sumR. unfold rowdot. apply sumR_ext.
  intros t Ht. now rewrite !rd_ptr by nia.
Qed.

Lemma rowdot_ext n (M M' : list numE) i j m :
  (forall t, (0 <= t < m)%Z ->
     rd M (i * n + t) = rd M' (i * n + t)
     /\ rd M (j * n + t) = rd M' (j * n + t)) ->
  rowdot n M i j m = rowdot n M' i j m.
Proof.
  intros H. unfold rowdot. apply sumR_ext. intros t Ht.
  destruct (H t Ht) as [-> ->]. reflexivity.
Qed.

Variables (n : Z) (mindiag : R).
Hypothesis Hn : (0 <= n)%Z.

(** The loop over the rows below the diagonal of column [j] writes, in
    the cell [(i, j)], the value computed from the buffer the loop
    started with. *)
Lemma cholFactor_offdiag_written (j : Z) (tmp : R) (M : list numE)
    (m : nat) :
  (0 <= j < n)%Z -> (j + 1 + Z.of_nat m <= n)%Z ->
  (n * n <= Z.of_nat (length M))%Z ->
  forall i, (j < i < j + 1 + Z.of_nat m)%Z ->
    rd (for_range (j + 1) (j + 1 + Z.of_nat m)
          (cholFactor_offdiag (N:=Exact) dot_seq n j tmp) M) (i * n + j)
    = (rd M (i * n + j) - rowdot n M i j j) * tmp.
Proof.
  intros Hj. induction m as [|m IH]; intros Hm Hlen i Hi; [lia|].
  unfold for_range in *.
  replace (Z.to_nat (j + 1 + Z.of_nat (S m) - (j + 1))) with (S m) by lia.
  replace (Z.to_nat (j + 1 + Z.of_nat m - (j + 1))) with m in IH by lia.
  rewrite for_up_snoc.
  set (M' := for_up m (j + 1)
               (cholFactor_offdiag (N:=Exact) dot_seq n j tmp) M) in *.
  assert (forall c, (forall a, (j + 1 <= a < j + 1 + Z.of_nat m)%Z ->
                       c <> (a * n + j)%Z) -> rd M' c = rd M c) as Hframe.
  { intros c Hc.
    pose proof (cholFactor_offdiag_other (N:=Exact) dot_seq n j tmp (j + 1)
                  (j + 1 + Z.of_nat m) M c Hc) as H.
    unfold for_range in H.
    now replace (Z.to_nat (j + 1 + Z.of_nat m - (j + 1))) with m in H
      by lia. }
  assert (length M' = length M) as Hlen'.
  { pose proof (cholFactor_offdiag_length (N:=Exact) dot_seq n j tmp (j + 1)
                  (j + 1 + Z.of_nat m) M) as H.
    unfold for_range in H.
    now replace (Z.to_nat (j + 1 + Z.of_nat m - (j + 1))) with m in H
      by lia. }
  unfold cholFactor_offdiag at 1.
  destruct (decide (i = j + 1 + Z.of_nat m)%Z) as [->|Hne].
  - rewrite rd_wr_eq by (rewrite Hlen'; nia).
    rewrite dot_seq_rowdot by lia.
    rewrite Hframe by (intros a Ha Heq; apply cell_index_inj in Heq; lia).
    rewrite (rowdot_ext n M' M); [reflexivity|].
    intros t Ht. split; apply Hframe; intros a Ha Heq;
      apply cell_index_inj in Heq; lia.
  - rewrite rd_wr_ne by (intros Heq; apply cell_index_inj in Heq; lia).
    apply IH; lia.
Qed.

Variable A : list numE.
Hypothesis Hlen : (n * n <= Z.of_nat (length A))%Z.
Hypothesis Hmin : 0 < mindiag.

(** The buffer after [k] columns. *)
Definition factor_cols (k : nat) : list numE :=
  fst (cholFactor_cols (N:=Exact) dot_seq A n mindiag k).

(** No pivot is replaced by [mindiag]. *)
Hypothesis Hfull :
  forall j, (j < Z.to_nat n)%nat ->
    clamped (N:=Exact) dot_seq A n mindiag j = false.

Lemma factor_cols_length k : length (factor_cols k) = length A.
Proof. apply cholFactor_cols_length. Qed.

Lemma factor_cols_S k :
  factor_cols (S k)
  = fst (cholFactor_body (N:=Exact) dot_seq n mindiag (Z.of_nat k)
           (cholFactor_cols (N:=Exact) dot_seq A n mindiag k)).
Proof. unfold factor_cols. now rewrite cholFactor_cols_S. Qed.

(** A column not yet reached holds the cells of [A]. *)
Lemma factor_cols_ahead k i c :
  (Z.of_nat k <= c < n)%Z -> (0 <= i < n)%Z ->
  rd (factor_cols k) (i * n + c) = rd A (i * n + c).
Proof.
  intros Hc Hi. induction k as [|k IH]; [reflexivity|].
  rewrite factor_cols_S, cholFactor_body_frame.
  - apply IH. lia.
  - lia.
  - intros a Ha Heq. apply cell_index_inj in Heq; lia.
Qed.

(** A column left behind is not written again. *)
Lemma factor_cols_behind k i c :
  (0 <= c < Z.of_nat k)%Z -> (Z.of_nat k < n)%Z -> (0 <= i < n)%Z ->
  rd (factor_cols (S k)) (i * n + c) = rd (factor_cols k) (i * n + c).
Proof.
  intros Hc Hk Hi. rewrite factor_cols_S, cholFactor_body_frame;
    [reflexivity | lia |].
  intros a Ha Heq. apply cell_index_inj in Heq; lia.
Qed.

(** The pivot of column [k]. *)
Lemma factor_pivot k :
  (Z.of_nat k < n)%Z ->
  let M := factor_cols k in
  let piv := rd A (Z.of_nat k * n + Z.of_nat k)
             - rowdot n M (Z.of_nat k) (Z.of_nat k) (Z.of_nat k) in
  pivot_of (N:=Exact) dot_seq A n mindiag k = piv /\ mindiag <= piv.
Proof.
  intros Hk M piv.
  assert (pivot_of (N:=Exact) dot_seq A n mindiag k = piv) as Hp.
  { unfold pivot_of, cholFactor_pivot. fold (factor_cols k). fold M.
    replace (Z.of_nat k * (n + 1))%Z with (Z.of_nat k * n + Z.of_nat k)%Z
      by lia.
    assert (rd M (Z.of_nat k * n + Z.of_nat k)
            = rd A (Z.of_nat k * n + Z.of_nat k)) as ->
      by (apply factor_cols_ahead; lia).
    unfold piv.
    destruct (Z.eqb_spec (Z.of_nat k) 0) as [E|E].
    - rewrite E. unfold rowdot. rewrite sumR_nil by lia.
      eqR. lra.
    - now rewrite dot_seq_rowdot by lia. }
  split; [exact Hp|].
  pose proof (Hfull k ltac:(lia)) as Hc. unfold clamped in Hc.
  rewrite Hp in Hc. now apply exact_ltb_false in Hc.
Qed.

(** What column [k] writes. *)
Lemma factor_col_written k :
  (Z.of_nat k < n)%Z ->
  let M := factor_cols k in
  let M' := factor_cols (S k) in
  let d := sqrt (rd A (Z.of_nat k * n + Z.of_nat k)
                 - rowdot n M (Z.of_nat k) (Z.of_nat k) (Z.of_nat k)) in
  0 < d
  /\ rd M' (Z.of_nat k * n + Z.of_nat k) = d
  /\ forall i, (Z.of_nat k < i < n)%Z ->
       rd M' (i * n + Z.of_nat k)
       = (rd A (i * n + Z.of_nat k) - rowdot n M i (Z.of_nat k) (Z.of_nat k))
         * (1 / d).
Proof.
  intros Hk M M' d.
  destruct (factor_pivot k Hk) as [Hp Hge]. cbv zeta in Hp, Hge.
  fold M in Hp, Hge.
  assert (0 < d) as Hd by (apply sqrt_lt_R0; lra).
  pose proof (Hfull k ltac:(lia)) as Hc. unfold clamped in Hc.
  assert (Z.of_nat k * (n + 1) = Z.of_nat k * n + Z.of_nat k)%Z as Hkk
    by lia.
  assert (length M = length A) as HlM by apply factor_cols_length.
  unfold pivot_of in Hp, Hc. fold (factor_cols k) in Hp, Hc.
  fold M in Hp, Hc.
  (* the buffer the loop over the rows starts with *)
  set (M1 := wr M (Z.of_nat k * (n + 1))%Z d).
  assert (M' = for_range (Z.of_nat k + 1) n
                 (cholFactor_offdiag (N:=Exact) dot_seq n (Z.of_nat k)
                    (1 / rd M1 (Z.of_nat k * (n + 1))%Z)%R) M1) as HM'.
  { unfold M'. rewrite factor_cols_S.
    destruct (cholFactor_cols (N:=Exact) dot_seq A n mindiag k)
      as [M0 rank] eqn:E.
    assert (M = M0) as <- by (unfold M, factor_cols; now rewrite E).
    unfold cholFactor_body.
    change (@nltb Exact
              (cholFactor_pivot (N:=Exact) dot_seq n (Z.of_nat k) M)
              mindiag)
      with (Rnum.ltb (cholFactor_pivot (N:=Exact) dot_seq n (Z.of_nat k) M)
              mindiag).
    change (Rnum.ltb (cholFactor_pivot (N:=Exact) dot_seq n (Z.of_nat k) M)
              mindiag = false) in Hc.
    rewrite Hc. cbn [fst]. unfold M1, d. rewrite <- Hp. reflexivity. }
  assert (rd M1 (Z.of_nat k * (n + 1))%Z = d) as Hd1
    by (unfold M1; apply rd_wr_eq; nia).
  rewrite Hd1 in HM'.
  split; [exact Hd|]. split.
  - rewrite HM', <- Hkk. rewrite cholFactor_offdiag_other; [exact Hd1|].
    intros a Ha. nia.
  - intros i Hi. rewrite HM'.
    replace n with (Z.of_nat k + 1 + Z.of_nat (Z.to_nat (n - Z.of_nat k - 1)))%Z
      at 1 by lia.
    rewrite cholFactor_offdiag_written;
      [|lia|lia|unfold M1; rewrite wr_length; lia|lia].
    assert (Z.of_nat k * (n + 1) <> i * n + Z.of_nat k)%Z as Hne by nia.
    unfold M1 at 1. rewrite rd_wr_ne by exact Hne.
    unfold M. rewrite factor_cols_ahead by lia. fold M.
    rewrite (rowdot_ext n M1 M); [reflexivity|].
    intros t Ht. unfold M1. split; apply rd_wr_ne; nia.
Qed.

(** After [k] columns the first [k] columns of [L*L'] are those of [A],
    and the diagonal cells of these columns are positive. *)
Lemma factor_inv k :
  (Z.of_nat k <= n)%Z ->
  (forall c, (0 <= c < Z.of_nat k)%Z -> 0 < rd (factor_cols k) (c * n + c))
  /\ forall i c, (0 <= c < Z.of_nat k)%Z -> (c <= i < n)%Z ->
       rowdot n (factor_cols k) i c (c + 1) = rd A (i * n + c).
Proof.
  induction k as [|k IH]; intros Hk; [split; intros; lia|].
  destruct (IH ltac:(lia)) as [IHd IHs]. clear IH.
  destruct (factor_col_written k ltac:(lia)) as (Hd & Hkk & Hcol).
  cbv zeta in Hd, Hkk, Hcol.
  set (M := factor_cols k) in *. set (M' := factor_cols (S k)) in *.
  set (kz := Z.of_nat k) in *.
  set (piv := rd A (kz * n + kz) - rowdot n M kz kz kz) in *.
  assert (0 <= piv) as Hpiv.
  { destruct (Rle_or_lt 0 piv) as [H|H]; [exact H|].
    rewrite sqrt_neg_0 in Hd by lra. lra. }
  assert (forall i c, (0 <= c < kz)%Z -> (0 <= i < n)%Z ->
            rd M' (i * n + c) = rd M (i * n + c)) as Hold.
  { intros i c Hc Hi. apply factor_cols_behind; lia. }
  split.
  - intros c Hc. destruct (decide (c = kz)) as [->|Hne].
    + now rewrite Hkk.
    + rewrite Hold by lia. apply IHd. lia.
  - intros i c Hc Hi. destruct (decide (c = kz)) as [->|Hne].
    + unfold rowdot. rewrite sumR_snoc by lia. fold (rowdot n M' i kz kz).
      rewrite (rowdot_ext n M' M)
        by (intros t Ht; split; apply Hold; lia).
      rewrite Hkk. destruct (decide (i = kz)) as [->|Hik].
      * rewrite Hkk. unfold piv in *.
        rewrite sqrt_sqrt by exact Hpiv. lra.
      * rewrite Hcol by lia.
        set (S := rowdot n M i kz kz). set (a := rd A (i * n + kz)).
        field. lra.
    + rewrite (rowdot_ext n M' M).
      * apply IHs; lia.
      * intros t Ht; split; apply Hold; lia.
Qed.

End FactorExact.

Lemma mju_cholFactor_is_cols {N : Num}
    (mju_dot : list num -> list num -> Z -> num) mat n mindiag :
  mju_cholFactor mju_dot mat n mindiag
  = cholFactor_cols mju_dot mat n mindiag (Z.to_nat n).
Proof.
  unfold mju_cholFactor, cholFactor_cols, for_range. now rewrite Z.sub_0_r.
Qed.

(** A factorisation that returns [n] has clamped no pivot. *)
Lemma mju_cholFactor_full {N : Num}
    (mju_dot : list num -> list num -> Z -> num) mat n mindiag :
  snd (mju_cholFactor mju_dot mat n mindiag) = n ->
  forall j, (j < Z.to_nat n)%nat -> clamped mju_dot mat n mindiag j = false.
Proof.
  rewrite mju_cholFactor_is_cols, cholFactor_cols_rank. intros H.
  apply clamped_count_zero. lia.
Qed.

(** X12. In exact arithmetic, with [mju_dot] the sum of the products and
    [mindiag > 0]: when [mju_cholFactor] returns rank [n] (no pivot was
    replaced by [mindiag]), the lower triangle [L] it leaves in [mat] has a
    positive diagonal and is the Cholesky factor of the matrix handed in,
    [L*L' = mat] on and below the diagonal:
    [sum_{t <= j} L(i,t)*L(j,t) = mat(i,j)] for [j <= i < n]. *)
Theorem mju_cholFactor_exact (A : list (@num Exact)) (n : Z)
    (mindiag : @num Exact) :
  0 <= n -> n * n <= Z.of_nat (length A) -> (0 < mindiag)%R ->
  snd (mju_cholFactor (N:=Exact) dot_seq A n mindiag) = n ->
  let L := fst (mju_cholFactor (N:=Exact) dot_seq A n mindiag) in
  (forall j, 0 <= j < n -> (0 < rd L (j * n + j))%R)
  /\ forall i j, 0 <= j <= i -> i < n ->
       sumR 0 (j + 1) (fun t => (rd L (i * n + t) * rd L (j * n + t))%R)
       = rd A (i * n + j).
Proof.
  intros Hn Hlen Hmin Hrank L.
  pose proof (mju_cholFactor_full _ _ _ _ Hrank) as Hfull.
  destruct (factor_inv n mindiag Hn A Hlen Hmin Hfull (Z.to_nat n)
              ltac:(lia)) as [Hd Hs].
  unfold factor_cols in Hd, Hs.
  rewrite <- mju_cholFactor_is_cols in Hd, Hs. fold L in Hd, Hs.
  split.
  - intros j Hj. apply Hd. lia.
  - intros i j Hj Hi. apply (Hs i j); lia.
Qed.

(** The matrix [[4]] with [mindiag = 1]: the factor is [[sqrt 4]]. *)
Lemma mju_cholFactor_exact_witness :
  let A : list (@num Exact) := [4]%R in
  let L := fst (mju_cholFactor (N:=Exact) dot_seq A 1 1%R) in
  snd (mju_cholFactor (N:=Exact) dot_seq A 1 1%R) = 1
  /\ sumR 0 (0 + 1) (fun t => (rd L (0 * 1 + t) * rd L (0 * 1 + t))%R)
     = 4%R.
Proof.
  intros A L.
  assert (snd (mju_cholFactor (N:=Exact) dot_seq A 1 1%R) = 1) as Hrank.
  { unfold mju_cholFactor, for_range. simpl for_up.
    unfold cholFactor_body, cholFactor_pivot. simpl. unfold Rnum.ltb.
    destruct (Rlt_dec _ 1) as [H|_]; [|reflexivity].
    change (4 < 1)%R in H. lra. }
  split; [exact Hrank|].
  assert (0 <= 1) as Hn by lia.
  assert (1 * 1 <= Z.of_nat (length A)) as Hlen by (simpl; lia).
  assert (0 < 1)%R as Hmin by lra.
  exact (proj2 (mju_cholFactor_exact A 1 1%R Hn Hlen Hmin Hrank)
           0 0 ltac:(lia) ltac:(lia)).
Defined.

(* ================================================================= *)
(** ** Loops whose invariant follows the counter *)

Lemma for_up_counted {St} (P : Z -> St -> Prop) (body : Z -> St -> St)
    (k : nat) (lo : Z) (s : St) :
  P lo s ->
  (forall i t, lo <= i < lo + Z.of_nat k -> P i t -> P (i + 1) (body i t)) ->
  P (lo + Z.of_nat k) (for_up k lo body s).
Proof.
  intros H0 Hstep. induction k as [|k IH].
  - now rewrite Z.add_0_r.
  - rewrite for_up_snoc.
    replace (lo + Z.of_nat (S k)) with (lo + Z.of_nat k + 1) by lia.
    apply Hstep; [lia|]. apply IH. intros i t Hi. apply Hstep. lia.
Qed.

Lemma for_range_counted {St} (P : Z -> St -> Prop) (body : Z -> St -> St)
    (lo hi : Z) (s : St) :
  lo <= hi -> P lo s ->
  (forall i t, lo <= i < hi -> P i t -> P (i + 1) (body i t)) ->
  P hi (for_range lo hi body s).
Proof.
  intros Hle H0 Hstep. unfold for_range.
  replace hi with (lo + Z.of_nat (Z.to_nat (hi - lo))) at 1 by lia.
  apply for_up_counted; [exact H0|]. intros i t Hi. apply Hstep. lia.
Qed.

Lemma for_down_counted {St} (P : Z -> St -> Prop) (body : Z -> St -> St)
    (k : nat) (hi : Z) (s : St) :
  P hi s ->
  (forall i t, hi - Z.of_nat k < i <= hi -> P i t -> P (i - 1) (body i t)) ->
  P (hi - Z.of_nat k) (for_down k hi body s).
Proof.
  revert hi s. induction k as [|k IH]; intros hi s H0 Hstep.
  - now rewrite Z.sub_0_r.
  - simpl for_down.
    replace (hi - Z.of_nat (S k)) with (hi - 1 - Z.of_nat k) by lia.
    apply IH.
    + apply Hstep; [lia | exact H0].
    + intros i t Hi. apply Hstep. lia.
Qed.

(* ================================================================= *)
(** ** [mju_cholSolve] in exact arithmetic: [L*L'*res = vec] *)

Section SolveExact.
Local Open Scope R_scope.

Variables (n : Z) (L : list numE).
Hypothesis Hn : (0 <= n)%Z.
Hypothesis Hdiag : forall i, (0 <= i < n)%Z -> rd L (i * n + i) <> 0.

(** Row [i] of the product [L*y]. *)
Definition lower_row (y : list numE) (i : Z) : R :=
  sumR 0 (i + 1) (fun t => rd L (i * n + t) * rd y t).

(** Row [i] of the product [L'*x]. *)
Definition upper_row (x : list numE) (i : Z) : R :=
  sumR i n (fun t => rd L (t * n + i) * rd x t).

(** What row [i] of the forward substitution writes. *)
Lemma cholSolve_fwd_written (y : list numE) i :
  (0 <= i < n)%Z -> (n <= Z.of_nat (length y))%Z ->
  rd (cholSolve_fwd (N:=Exact) dot_seq L n i y) i
  = (rd y i - sumR 0 i (fun t => rd L (i * n + t) * rd y t))
    / rd L (i * n + i).
Proof.
  intros Hi Hlen. unfold cholSolve_fwd.
  replace (i * (n + 1))%Z with (i * n + i)%Z by lia.
  destruct (Z.eqb_spec i 0) as [->|Hne].
  - rewrite !rd_wr_eq by lia. rewrite sumR_nil by lia.
    eqR. unfold Rdiv. change (@ndiv Exact) with Rdiv. unfold Rdiv.
    now rewrite Rminus_0_r.
  - rewrite !rd_wr_eq by (rewrite ?wr_length; lia).
    rewrite dot_seq_sumR. eqR.
    change (@ndiv Exact) with Rdiv. change (@nsub Exact) with Rminus.
    f_equal. f_equal. apply sumR_ext. intros t Ht.
    now rewrite rd_ptr by nia.
Qed.

(** The loop of the backward substitution over the rows below [i]. *)
Lemma cholSolve_bwd_inner (x : list numE) i hi :
  (0 <= i < n)%Z -> (i + 1 <= hi)%Z -> (n <= Z.of_nat (length x))%Z ->
  let x' := for_range (i + 1) hi
              (fun j acc =>
                 wr acc i (@nsub Exact (rd acc i)
                             (@nmul Exact (rd L (j * n + i)) (rd acc j))))
              x in
  length x' = length x
  /\ (forall c, c <> i -> rd x' c = rd x c)
  /\ rd x' i
     = rd x i - sumR (i + 1) hi (fun j => rd L (j * n + i) * rd x j).
Proof.
  intros Hi Hhi Hlen. cbv zeta.
  apply (for_range_counted
    (fun h (acc : list numE) =>
       length acc = length x
       /\ (forall c, c <> i -> rd acc c = rd x c)
       /\ rd acc i
          = rd x i - sumR (i + 1) h (fun j => rd L (j * n + i) * rd x j)));
    [exact Hhi| |].
  - split; [reflexivity|]. split; [reflexivity|].
    rewrite sumR_nil by lia. eqR. lra.
  - intros j acc Hj (Hl & Hc & Hs).
    split; [now rewrite wr_length|]. split.
    + intros c Hci. rewrite rd_wr_ne by congruence. now apply Hc.
    + rewrite rd_wr_eq by lia. rewrite sumR_snoc by lia.
      rewrite Hs, (Hc j) by lia. eqR.
      change (@nsub Exact) with Rminus. change (@nmul Exact) with Rmult.
      lra.
Qed.

(** What row [i] of the backward substitution writes. *)
Lemma cholSolve_bwd_written (x : list numE) i :
  (0 <= i < n)%Z -> (n <= Z.of_nat (length x))%Z ->
  let x' := cholSolve_bwd (N:=Exact) L n i x in
  length x' = length x
  /\ (forall c, c <> i -> rd x' c = rd x c)
  /\ rd x' i
     = (rd x i - sumR (i + 1) n (fun j => rd L (j * n + i) * rd x j))
       / rd L (i * n + i).
Proof.
  intros Hi Hlen. cbv zeta. unfold cholSolve_bwd.
  replace (i * (n + 1))%Z with (i * n + i)%Z by lia.
  destruct (Z.ltb_spec i (n - 1)) as [Hlt|Hge].
  - destruct (cholSolve_bwd_inner x i n Hi ltac:(lia) Hlen)
      as (Hl & Hc & Hs). cbv zeta in Hl, Hc, Hs.
    split; [now rewrite wr_length|]. split.
    + intros c Hci. rewrite rd_wr_ne by congruence. now apply Hc.
    + rewrite rd_wr_eq by lia. rewrite Hs. reflexivity.
  - split; [now rewrite wr_length|]. split.
    + intros c Hci. now rewrite rd_wr_ne by congruence.
    + rewrite rd_wr_eq by lia. rewrite sumR_nil by lia.
      eqR. change (@ndiv Exact) with Rdiv. now rewrite Rminus_0_r.
Qed.

(** The forward substitution solves [L*y = b]. *)
Lemma cholSolve_forward (b : list numE) :
  (n <= Z.of_nat (length b))%Z ->
  let y := for_range 0 n (cholSolve_fwd (N:=Exact) dot_seq L n) b in
  length y = length b
  /\ forall i, (0 <= i < n)%Z -> lower_row y i = rd b i.
Proof.
  intros Hlen. cbv zeta.
  assert (length (for_range 0 n (cholSolve_fwd (N:=Exact) dot_seq L n) b)
          = length b
          /\ (forall i, (n <= i)%Z ->
                rd (for_range 0 n (cholSolve_fwd (N:=Exact) dot_seq L n) b)
                   i = rd b i)
          /\ forall i, (0 <= i < n)%Z ->
               lower_row (for_range 0 n
                            (cholSolve_fwd (N:=Exact) dot_seq L n) b) i
               = rd b i) as (H1 & _ & H3); [|now split].
  apply (for_range_counted
    (fun k (y : list numE) =>
       length y = length b
       /\ (forall i, (k <= i)%Z -> rd y i = rd b i)
       /\ forall i, (0 <= i < k)%Z -> lower_row y i = rd b i));
    [exact Hn| |].
  - split; [reflexivity|]. split; [reflexivity|]. intros i Hi. lia.
  - intros k y Hk (Hl & Hhi & Hlo).
    assert (length (cholSolve_fwd (N:=Exact) dot_seq L n k y) = length y)
      as Hl'.
    { unfold cholSolve_fwd. rewrite wr_length.
      destruct (k =? 0)%Z; [reflexivity | now rewrite wr_length]. }
    split; [congruence|]. split.
    + intros i Hi. rewrite cholSolve_fwd_frame by lia. apply Hhi. lia.
    + intros i Hi. unfold lower_row.
      destruct (decide (i = k)) as [->|Hne].
      * rewrite sumR_snoc by lia.
        rewrite cholSolve_fwd_written by lia.
        rewrite (sumR_ext 0 k _ (fun t => rd L (k * n + t) * rd y t))
          by (intros t Ht; now rewrite cholSolve_fwd_frame by lia).
        rewrite (Hhi k) by lia.
        set (S := sumR 0 k _). set (d := rd L (k * n + k)).
        assert (d <> 0) as Hd by (apply Hdiag; lia).
        field. exact Hd.
      * rewrite (sumR_ext 0 (i + 1) _ (fun t => rd L (i * n + t) * rd y t))
          by (intros t Ht; now rewrite cholSolve_fwd_frame by lia).
        apply Hlo. lia.
Qed.

(** The backward substitution solves [L'*x = y]. *)
Lemma cholSolve_backward (y : list numE) :
  (n <= Z.of_nat (length y))%Z ->
  let x := for_down (Z.to_nat n) (n - 1) (cholSolve_bwd (N:=Exact) L n) y in
  length x = length y
  /\ forall i, (0 <= i < n)%Z -> upper_row x i = rd y i.
Proof.
  intros Hlen. cbv zeta.
  pose proof (for_down_counted
    (fun k (x : list numE) =>
       length x = length y
       /\ (forall i, (i <= k)%Z -> rd x i = rd y i)
       /\ forall i, (k < i < n)%Z -> upper_row x i = rd y i)
    (cholSolve_bwd (N:=Exact) L n) (Z.to_nat n) (n - 1) y) as H.
  cbv beta in H.
  destruct H as (H1 & _ & H3).
  - split; [reflexivity|]. split; [reflexivity|]. intros i Hi. lia.
  - intros k x Hk (Hl & Hlo & Hhi).
    destruct (cholSolve_bwd_written x k ltac:(lia) ltac:(lia))
      as (Hl' & Hc & Hw). cbv zeta in Hl', Hc, Hw.
    split; [congruence|]. split.
    + intros i Hi. rewrite Hc by lia. apply Hlo. lia.
    + intros i Hi. unfold upper_row.
      destruct (decide (i = k)) as [->|Hne].
      * rewrite sumR_first by lia.
        rewrite (sumR_ext (k + 1) n _ (fun t => rd L (t * n + k) * rd x t))
          by (intros t Ht; now rewrite Hc by lia).
        rewrite Hw, (Hlo k) by lia.
        set (S := sumR (k + 1) n _). set (d := rd L (k * n + k)).
        assert (d <> 0) as Hd by (apply Hdiag; lia).
        field. exact Hd.
      * rewrite (sumR_ext i n _ (fun t => rd L (t * n + i) * rd x t))
          by (intros t Ht; now rewrite Hc by lia).
        apply Hhi. lia.
  - split; [exact H1|]. intros i Hi. apply H3. lia.
Qed.

End SolveExact.

Lemma mju_copy_copied {N : Num} (res vec : list num) n i :
  0 <= i < n -> n <= Z.of_nat (length res) ->
  rd (mju_copy res vec n) i = rd vec i.
Proof.
  intros Hi Hl. unfold mju_copy.
  change (fun (i : Z) (acc : list num) => wr acc i (rd vec i))
    with (cell_body (fun i : Z => i) (fun (i : Z) (_ : num) => rd vec i)).
  rewrite (cell_loop_written (fun i : Z => i)
             (fun (i : Z) (_ : num) => rd vec i) 0 n res i);
    [reflexivity | auto | intros; lia | lia].
Qed.

(** X13. In exact arithmetic, with [mju_dot] the sum of the products, for
    a buffer [mat] whose diagonal cells are not zero and [n] cells at
    least in [res]: [mju_cholSolve] leaves in [res] the solution of
    [L*L'*res = vec], [L] the lower triangle of [mat].  There is a [y]
    with [L*y = vec] (forward substitution) and [L'*res = y] (backward
    substitution); [vec] is [res] as handed in when the caller passes the
    same buffer. *)
Theorem mju_cholSolve_exact (res L : list (@num Exact))
    (vec : option (list (@num Exact))) (n : Z) :
  0 <= n -> n <= Z.of_nat (length res) ->
  (forall i, 0 <= i < n -> rd L (i * n + i) <> 0%R) ->
  let b := match vec with Some v => v | None => res end in
  let x := mju_cholSolve (N:=Exact) dot_seq res L vec n in
  exists y : list (@num Exact),
    (forall i, 0 <= i < n -> lower_row n L y i = rd b i)
    /\ (forall i, 0 <= i < n -> upper_row n L x i = rd y i).
Proof.
  intros Hn Hlen Hdiag b x.
  set (b0 := match vec with
             | Some v => mju_copy (N:=Exact) res v n
             | None => res
             end).
  assert (length b0 = length res) as Hl0.
  { unfold b0. destruct vec; [apply mju_copy_length | reflexivity]. }
  assert (forall i, 0 <= i < n -> rd b0 i = rd b i) as Hb0.
  { intros i Hi. unfold b0, b. destruct vec; [|reflexivity].
    now apply mju_copy_copied. }
  destruct (cholSolve_forward n L Hn Hdiag b0 ltac:(lia)) as [Hly Hy].
  cbv zeta in Hly, Hy.
  set (y := for_range 0 n (cholSolve_fwd (N:=Exact) dot_seq L n) b0) in *.
  destruct (cholSolve_backward n L Hdiag y ltac:(lia)) as [_ Hx].
  cbv zeta in Hx.
  exists y. split.
  - intros i Hi. rewrite Hy by exact Hi. now apply Hb0.
  - exact Hx.
Qed.

(** The factor [[2]] and the right-hand side [[6]]. *)
Lemma mju_cholSolve_exact_witness :
  let L : list (@num Exact) := [2]%R in
  let res : list (@num Exact) := [0]%R in
  let vec : list (@num Exact) := [6]%R in
  exists y : list (@num Exact),
    lower_row 1 L y 0 = 6%R
    /\ upper_row 1 L (mju_cholSolve (N:=Exact) dot_seq res L (Some vec) 1) 0
       = rd y 0.
Proof.
  intros L res vec.
  assert (0 <= 1) as Hn by lia.
  assert (1 <= Z.of_nat (length res)) as Hlen by (simpl; lia).
  assert (forall i, 0 <= i < 1 -> rd L (i * 1 + i) <> 0%R) as Hd.
  { intros i Hi. assert (i = 0) as -> by lia. change (2 <> 0)%R. lra. }
  destruct (mju_cholSolve_exact res L (Some vec) 1 Hn Hlen Hd)
    as (y & Hy & Hx).
  exists y. split; [exact (Hy 0 ltac:(lia)) | exact (Hx 0 ltac:(lia))].
Defined.

(* ================================================================= *)
(** ** Factor, then solve *)

(** The cell [(i, j)] of the symmetric matrix whose lower triangle is
    stored in [A]. *)
Definition sym_entry (n : Z) (A : list numE) (i j : Z) : R :=
  rd A (Z.max i j * n + Z.min i j).

Section FactorSolve.
Local Open Scope R_scope.

Variables (n : Z) (A L x y b : list numE).
Hypothesis Hn : (0 <= n)%Z.
Hypothesis HL :
  forall i j, (0 <= j <= i)%Z -> (i < n)%Z ->
    sumR 0 (j + 1) (fun t => rd L (i * n + t) * rd L (j * n + t))
    = rd A (i * n + j).
Hypothesis Hy : forall i, (0 <= i < n)%Z -> lower_row n L y i = rd b i.
Hypothesis Hx : forall i, (0 <= i < n)%Z -> upper_row n L x i = rd y i.

Lemma factor_solve_row i :
  (0 <= i < n)%Z ->
  sumR 0 n (fun j => sym_entry n A i j * rd x j) = rd b i.
Proof.
  intros Hi. rewrite <- Hy by exact Hi. unfold lower_row.
  set (g := fun t j : Z =>
              if (t <=? j)%Z
              then rd L (i * n + t) * (rd L (j * n + t) * rd x j)
              else 0).
  transitivity (sumR 0 n (fun j => sumR 0 (i + 1) (fun t => g t j))).
  - apply sumR_ext. intros j Hj.
    destruct (Z_le_gt_dec j i) as [Hji|Hji].
    + rewrite (sumR_trim 0 (j + 1) (i + 1)); [|lia|].
      * rewrite (sumR_ext 0 (j + 1) _
                   (fun t => rd x j
                             * (rd L (i * n + t) * rd L (j * n + t)))).
        -- rewrite sumR_scal, HL by lia. unfold sym_entry.
           rewrite Z.max_l, Z.min_r by lia. eqR. lra.
        -- intros t Ht. unfold g.
           rewrite (proj2 (Z.leb_le t j)) by lia. lra.
      * intros t Ht. unfold g.
        now rewrite (proj2 (Z.leb_gt t j)) by lia.
    + rewrite (sumR_ext 0 (i + 1) _
                 (fun t => rd x j * (rd L (j * n + t) * rd L (i * n + t)))).
      * rewrite sumR_scal, HL by lia. unfold sym_entry.
        rewrite Z.max_r, Z.min_l by lia. eqR. lra.
      * intros t Ht. unfold g.
        rewrite (proj2 (Z.leb_le t j)) by lia. lra.
  - rewrite <- sumR_swap. apply sumR_ext. intros t Ht.
    rewrite <- Hx by lia. unfold upper_row. rewrite <- sumR_scal.
    rewrite (sumR_skip 0 t n); [|lia|].
    + apply sumR_ext. intros j Hj. unfold g.
      now rewrite (proj2 (Z.leb_le t j)) by lia.
    + intros j Hj. unfold g. now rewrite (proj2 (Z.leb_gt t j)) by lia.
Qed.

End FactorSolve.

(** Factor, then solve: the rows of [mat*res = vec]. *)
Lemma factor_solve_sym (A res : list (@num Exact))
    (vec : option (list (@num Exact))) (n : Z) (mindiag : @num Exact) :
  0 <= n -> n * n <= Z.of_nat (length A) -> n <= Z.of_nat (length res) ->
  (0 < mindiag)%R ->
  snd (mju_cholFactor (N:=Exact) dot_seq A n mindiag) = n ->
  let L := fst (mju_cholFactor (N:=Exact) dot_seq A n mindiag) in
  let b := match vec with Some v => v | None => res end in
  let x := mju_cholSolve (N:=Exact) dot_seq res L vec n in
  forall i, 0 <= i < n ->
    sumR 0 n (fun j => (sym_entry n A i j * rd x j)%R) = rd b i.
Proof.
  intros Hn HlA Hlr Hmin Hrank L b x i Hi.
  pose proof (mju_cholFactor_full _ _ _ _ Hrank) as Hfull.
  destruct (factor_inv n mindiag Hn A HlA Hmin Hfull (Z.to_nat n)
              ltac:(lia)) as [Hd Hs].
  unfold factor_cols in Hd, Hs.
  rewrite <- mju_cholFactor_is_cols in Hd, Hs. fold L in Hd, Hs.
  assert (forall k, 0 <= k < n -> rd L (k * n + k) <> 0%R) as Hdiag.
  { intros k Hk. specialize (Hd k ltac:(lia)). lra. }
  set (b0 := match vec with
             | Some v => mju_copy (N:=Exact) res v n
             | None => res
             end).
  assert (length b0 = length res) as Hl0.
  { unfold b0. destruct vec; [apply mju_copy_length | reflexivity]. }
  assert (forall k, 0 <= k < n -> rd b0 k = rd b k) as Hb0.
  { intros k Hk. unfold b0, b. destruct vec; [|reflexivity].
    now apply mju_copy_copied. }
  destruct (cholSolve_forward n L Hn Hdiag b0 ltac:(lia)) as [Hly Hy].
  cbv zeta in Hly, Hy.
  set (y := for_range 0 n (cholSolve_fwd (N:=Exact) dot_seq L n) b0) in *.
  destruct (cholSolve_backward n L Hdiag y ltac:(lia)) as [_ Hx].
  cbv zeta in Hx.
  apply (factor_solve_row n A L x y b).
  - intros i' j' Hj' Hi'. apply (Hs i' j'); lia.
  - intros k Hk. rewrite Hy by exact Hk. now apply Hb0.
  - exact Hx.
  - exact Hi.
Qed.

(** X14. Factor, then solve, in exact arithmetic with [mju_dot] the sum of
    the products and [mindiag > 0]: when [mju_cholFactor] returns rank
    [n], [mju_cholSolve] on the factor it left solves [mat*res = vec],
    [mat] the symmetric matrix whose lower triangle was handed to
    [mju_cholFactor]. *)
Theorem cholFactor_cholSolve_exact (A res : list (@num Exact))
    (vec : option (list (@num Exact))) (n : Z) (mindiag : @num Exact) :
  0 <= n -> n * n <= Z.of_nat (length A) -> n <= Z.of_nat (length res) ->
  (0 < mindiag)%R ->
  snd (mju_cholFactor (N:=Exact) dot_seq A n mindiag) = n ->
  let L := fst (mju_cholFactor (N:=Exact) dot_seq A n mindiag) in
  let b := match vec with Some v => v | None => res end in
  let x := mju_cholSolve (N:=Exact) dot_seq res L vec n in
  forall i, 0 <= i < n ->
    sumR 0 n (fun j => (sym_entry n A i j * rd x j)%R) = rd b i.
Proof.
  intros Hn HlA Hlr Hmin Hrank. now apply factor_solve_sym.
Qed.

(** The matrix [[4]] and the right-hand side [[6]]: [4 * res[0] = 6]. *)
Lemma cholFactor_cholSolve_exact_witness :
  let A : list (@num Exact) := [4]%R in
  let res : list (@num Exact) := [0]%R in
  let vec : list (@num Exact) := [6]%R in
  let L := fst (mju_cholFactor (N:=Exact) dot_seq A 1 1%R) in
  sumR 0 1
    (fun j => (sym_entry 1 A 0 j
               * rd (mju_cholSolve (N:=Exact) dot_seq res L (Some vec) 1) j)%R)
  = 6%R.
Proof.
  intros A res vec L.
  assert (snd (mju_cholFactor (N:=Exact) dot_seq A 1 1%R) = 1) as Hrank.
  { unfold mju_cholFactor, for_range. simpl for_up.
    unfold cholFactor_body, cholFactor_pivot. simpl. unfold Rnum.ltb.
    destruct (Rlt_dec _ 1) as [H|_]; [|reflexivity].
    change (4 < 1)%R in H. lra. }
  assert (0 <= 1) as Hn by lia.
  assert (1 * 1 <= Z.of_nat (length A)) as HlA by (simpl; lia).
  assert (1 <= Z.of_nat (length res)) as Hlr by (simpl; lia).
  assert (0 < 1)%R as Hmin by lra.
  exact (cholFactor_cholSolve_exact A res (Some vec) 1 1%R Hn HlA Hlr Hmin
           Hrank 0 ltac:(lia)).
Defined.

(* ================================================================= *)
(** ** [mju_cholUpdate] in exact arithmetic: [L*L' +/- x*x'] *)

Section SumChange.
Local Open Scope R_scope.

(** Two sums that differ in the term [k] only. *)
Lemma sumR_change lo hi k f g :
  (lo <= k < hi)%Z ->
  (forall t, (lo <= t < hi)%Z -> t <> k -> f t = g t) ->
  sumR lo hi g = sumR lo hi f - f k + g k.
Proof.
  intros Hk Hfg.
  rewrite (sumR_split lo (k + 1) hi f), (sumR_split lo (k + 1) hi g) by lia.
  rewrite !sumR_snoc by lia.
  rewrite (sumR_ext lo k f g) by (intros t Ht; apply Hfg; lia).
  rewrite (sumR_ext (k + 1) hi f g) by (intros t Ht; apply Hfg; lia).
  lra.
Qed.

End SumChange.

Section UpdateExact.
Local Open Scope R_scope.

Variables (L x : list numE) (n flg : Z).
Hypothesis Hn : (0 <= n)%Z.
Hypothesis HlenL : Z.of_nat (length L) = (n * n)%Z.
Hypothesis Hlenx : Z.of_nat (length x) = n.
Hypothesis Hdiag : forall k, (0 <= k < n)%Z -> 0 < rd L (k * n + k).

(** The sign of the update. *)
Definition update_sign : R := if (flg =? 0)%Z then -1 else 1.

(** The state after [j] columns. *)
Definition upd (j : nat) : update_state (N:=Exact) :=
  cholUpdate_cols (N:=Exact) L x n flg j.

Hypothesis Hrank : u_rank (upd (Z.to_nat n)) = n.

(** What a column whose [x[k]] is not zero has written, in terms of the
    diagonal cell [Lkk], of [xk = x[k]] and of the new diagonal [r]. *)
Lemma update_col_exact (k : nat) :
  (Z.of_nat k < n)%Z ->
  let kz := Z.of_nat k in
  let P := upd k in
  let Q := upd (S k) in
  let Lkk := rd (u_mat P) (kz * n + kz) in
  let xk := rd (u_x P) kz in
  0 < Lkk ->
  nonzero (N:=Exact) xk = true ->
  exists r : R,
    0 < r /\ r * r = Lkk * Lkk + update_sign * (xk * xk)
    /\ rd (u_mat Q) (kz * n + kz) = r
    /\ (forall i, (kz < i < n)%Z ->
          rd (u_mat Q) (i * n + kz)
          = (rd (u_mat P) (i * n + kz) * Lkk
             + update_sign * (xk * rd (u_x P) i)) / r)
    /\ (forall i, (kz < i < n)%Z ->
          rd (u_x Q) i
          = (Lkk * rd (u_x P) i - xk * rd (u_mat P) (i * n + kz)) / r).
Proof.
  intros Hk kz P Q Lkk xk HLkk Hnz.
  destruct (cholUpdate_cols_length (N:=Exact) L x n flg k) as [HPm HPx].
  fold (upd k) in HPm, HPx. fold P in HPm, HPx.
  pose proof (cholUpdate_body_written (N:=Exact) n flg kz P ltac:(lia)
                ltac:(lia) ltac:(lia) Hnz) as HW.
  cbv zeta in HW.
  replace (kz * (n + 1))%Z with (kz * n + kz)%Z in HW by lia.
  fold Lkk xk in HW.
  assert (Q = cholUpdate_body (N:=Exact) n flg kz P) as HQ
    by (unfold Q, P, upd; apply cholUpdate_cols_S).
  rewrite <- HQ in HW.
  pose proof (exact_consts_low flg Lkk xk) as Hlow.
  destruct (cholUpdate_consts (N:=Exact) flg Lkk xk)
    as [[[[r c] cinv] s] low] eqn:EC.
  destruct HW as (HW1 & HW2 & HW3 & HW4). cbn [snd] in Hlow.
  assert (low = false) as ->.
  { assert (u_rank P = n) as HrP.
    { apply (cholUpdate_cols_rank_full (N:=Exact)) with (Z.to_nat n);
        [lia | exact Hrank]. }
    assert (u_rank Q = n) as HrQ.
    { apply (cholUpdate_cols_rank_full (N:=Exact)) with (Z.to_nat n);
        [lia | exact Hrank]. }
    destruct low; [lia | reflexivity]. }
  apply exact_consts in EC. cbv zeta in EC.
  destruct EC as (Htmp & Hr & -> & -> & ->).
  assert (0 < r) as Hrpos by (rewrite Hr; now apply sqrt_lt_R0).
  assert (r * r = Lkk * Lkk + update_sign * (xk * xk)) as Hrr.
  { rewrite Hr, sqrt_sqrt by lra. unfold update_sign.
    destruct (flg =? 0)%Z; lra. }
  exists r. split; [exact Hrpos|]. split; [exact Hrr|].
  split; [exact HW2|].
  assert (forall i, (kz < i < n)%Z ->
            rd (u_mat Q) (i * n + kz)
            = (rd (u_mat P) (i * n + kz) * Lkk
               + update_sign * (xk * rd (u_x P) i)) / r) as Hcol.
  { intros i Hi. rewrite (HW3 i Hi). unfold update_sign.
    set (a := rd (u_mat P) (i * n + kz)). set (xi := rd (u_x P) i).
    destruct (flg =? 0)%Z; eqR;
      change (@nmul Exact) with Rmult; change (@nsub Exact) with Rminus;
      change (@nadd Exact) with Rplus; field; lra. }
  split; [exact Hcol|].
  intros i Hi. rewrite (HW4 i Hi), (Hcol i Hi).
  set (a := rd (u_mat P) (i * n + kz)). set (xi := rd (u_x P) i).
  eqR. change (@nmul Exact) with Rmult. change (@nsub Exact) with Rminus.
  apply Rminus_diag_uniq.
  transitivity (xi * (r * r - (Lkk * Lkk + update_sign * (xk * xk)))
                / (r * Lkk)); [field; lra|].
  rewrite Hrr. field. lra.
Qed.

(** The invariant of the loop over the columns: what is still to be
    added to [L*L'] is the product of the cells of [x] from [k] on. *)
Lemma update_inv (k : nat) :
  (Z.of_nat k <= n)%Z ->
  let P := upd k in
  (forall c, (0 <= c < n)%Z -> 0 < rd (u_mat P) (c * n + c))
  /\ forall i j, (0 <= j <= i)%Z -> (i < n)%Z ->
       rowdot n (u_mat P) i j (j + 1)
       + (if (Z.of_nat k <=? j)%Z
          then update_sign * (rd (u_x P) i * rd (u_x P) j) else 0)
       = rowdot n L i j (j + 1) + update_sign * (rd x i * rd x j).
Proof.
  induction k as [|k IH]; intros Hk; cbv zeta.
  - split; [exact Hdiag|]. intros i j Hj Hi.
    rewrite (proj2 (Z.leb_le (Z.of_nat 0) j)) by lia. reflexivity.
  - destruct (IH ltac:(lia)) as [IHd IHs]. clear IH. cbv zeta in IHd, IHs.
    set (kz := Z.of_nat k) in *.
    set (P := upd k) in *. set (Q := upd (S k)).
    assert (Q = cholUpdate_body (N:=Exact) n flg kz P) as HQ
      by (unfold Q, P, upd; apply cholUpdate_cols_S).
    destruct (nonzero (N:=Exact) (rd (u_x P) kz)) eqn:Hnz.
    + (* column k is worked on *)
      destruct (update_col_exact k ltac:(lia) (IHd kz ltac:(lia)) Hnz)
        as (r & Hr & Hrr & Hkk & Hcol & Hxs).
      fold kz P Q in Hrr, Hkk, Hcol, Hxs.
      set (Lkk := rd (u_mat P) (kz * n + kz)) in *.
      set (xk := rd (u_x P) kz) in *.
      assert (forall i j, (0 <= i < n)%Z -> (0 <= j < n)%Z ->
                ~ (j = kz /\ (kz <= i)%Z) ->
                rd (u_mat Q) (i * n + j) = rd (u_mat P) (i * n + j))
        as Hother.
      { intros i j Hi Hj Hne. rewrite HQ.
        apply cholUpdate_body_other; [lia | lia | lia | exact Hne]. }
      assert (forall i, (i <= kz)%Z -> rd (u_x Q) i = rd (u_x P) i) as Hxlow.
      { intros i Hi. rewrite HQ. now apply cholUpdate_body_x_low. }
      split.
      * intros c Hc. destruct (decide (c = kz)) as [->|Hne].
        -- now rewrite Hkk.
        -- rewrite Hother by lia. now apply IHd.
      * intros i j Hj Hi. rewrite <- (IHs i j Hj Hi).
        destruct (Z_lt_le_dec j kz) as [Hjk|Hjk].
        { (* the column is beyond the cells summed *)
          rewrite (proj2 (Z.leb_gt (Z.of_nat (S k)) j)) by lia.
          rewrite (proj2 (Z.leb_gt kz j)) by lia.
          f_equal. apply rowdot_ext. intros t Ht.
          split; apply Hother; lia. }
        rewrite (proj2 (Z.leb_le kz j)) by lia.
        (* the sums differ in the term of column k *)
        unfold rowdot.
        rewrite (sumR_change 0 (j + 1) kz
                   (fun t => rd (u_mat P) (i * n + t)
                             * rd (u_mat P) (j * n + t))
                   (fun t => rd (u_mat Q) (i * n + t)
                             * rd (u_mat Q) (j * n + t)))
          by (lia || (intros t Ht Hne; rewrite !Hother by lia;
                      reflexivity)).
        set (S0 := sumR 0 (j + 1) _).
        destruct (decide (j = kz)) as [->|Hjne].
        { rewrite (proj2 (Z.leb_gt (Z.of_nat (S k)) kz)) by lia.
          rewrite Hkk. fold Lkk.
          destruct (decide (i = kz)) as [->|Hine].
          - rewrite Hkk. fold Lkk xk. lra.
          - rewrite (Hcol i) by lia. fold xk.
            set (a := rd (u_mat P) (i * n + kz)).
            set (xi := rd (u_x P) i).
            assert ((a * Lkk + update_sign * (xk * xi)) / r * r
                    = a * Lkk + update_sign * (xk * xi)) as E
              by (eqR; field; lra).
            lra. }
        rewrite (proj2 (Z.leb_le (Z.of_nat (S k)) j)) by lia.
        rewrite (Hcol i), (Hcol j), (Hxs i), (Hxs j) by lia.
        set (a := rd (u_mat P) (i * n + kz)).
        set (b := rd (u_mat P) (j * n + kz)).
        set (xi := rd (u_x P) i). set (xj := rd (u_x P) j).
        assert (update_sign * update_sign = 1) as Hss
          by (unfold update_sign; destruct (flg =? 0)%Z; lra).
        assert ((a * Lkk + update_sign * (xk * xi)) / r
                * ((b * Lkk + update_sign * (xk * xj)) / r)
                + update_sign
                  * ((Lkk * xi - xk * a) / r * ((Lkk * xj - xk * b) / r))
                = a * b + update_sign * (xi * xj)) as E.
        { eqR. clear Hss. unfold update_sign in *.
          destruct (flg =? 0)%Z.
          - transitivity ((a * b + -1 * (xi * xj))
                          * (Lkk * Lkk + -1 * (xk * xk)) / (r * r));
              [field; lra|].
            rewrite <- Hrr. field. lra.
          - transitivity ((a * b + 1 * (xi * xj))
                          * (Lkk * Lkk + 1 * (xk * xk)) / (r * r));
              [field; lra|].
            rewrite <- Hrr. field. lra. }
        lra.
    + (* column k is skipped *)
      assert (Q = P) as HQP
        by (rewrite HQ; now apply cholUpdate_body_skip).
      fold Q. rewrite HQP.
      split; [exact IHd|]. intros i j Hj Hi. rewrite <- (IHs i j Hj Hi).
      f_equal.
      destruct (decide (j = kz)) as [->|Hjne].
      * rewrite (proj2 (Z.leb_gt (Z.of_nat (S k)) kz)) by lia.
        rewrite (proj2 (Z.leb_le kz kz)) by lia.
        apply exact_nonzero_false in Hnz. rewrite Hnz. lra.
      * destruct (Z.leb_spec (Z.of_nat (S k)) j), (Z.leb_spec kz j);
          try reflexivity; lia.
Qed.

End UpdateExact.

Lemma mjMINVAL_le_1 : (@mjMINVAL Exact <= 1)%R.
Proof.
  change (/ 10 ^ 15 <= 1)%R. rewrite <- Rinv_1.
  apply Rinv_le_contravar; [lra|]. apply pow_R1_Rle. lra.
Qed.

(** X15. In exact arithmetic, for a factor [L] with positive diagonal:
    when [mju_cholUpdate] returns rank [n] (no column was clamped), the
    lower triangle [L'] it leaves in [mat] has a positive diagonal and is
    the factor of the updated matrix, [L'*L'' = L*L' + x*x'] when
    [flg_plus] is not zero and [L'*L'' = L*L' - x*x'] when it is zero, [x]
    as handed in:
    [sum_{t <= j} L'(i,t)*L'(j,t) = sum_{t <= j} L(i,t)*L(j,t) +/- x[i]*x[j]]
    for [j <= i < n]. *)
Theorem mju_cholUpdate_exact (L x : list (@num Exact)) (n flg_plus : Z) :
  0 <= n ->
  Z.of_nat (length L) = n * n ->
  Z.of_nat (length x) = n ->
  (forall k, 0 <= k < n -> (0 < rd L (k * n + k))%R) ->
  u_rank (mju_cholUpdate (N:=Exact) L x n flg_plus) = n ->
  let L' := u_mat (mju_cholUpdate (N:=Exact) L x n flg_plus) in
  (forall k, 0 <= k < n -> (0 < rd L' (k * n + k))%R)
  /\ forall i j, 0 <= j <= i -> i < n ->
       rowdot n L' i j (j + 1)
       = (rowdot n L i j (j + 1)
          + (if flg_plus =? 0 then -1 else 1) * (rd x i * rd x j))%R.
Proof.
  intros Hn HL Hx Hdiag Hrank L'. unfold L'.
  rewrite mju_cholUpdate_cols in *.
  destruct (update_inv L x n flg_plus HL Hx Hdiag Hrank (Z.to_nat n)
              ltac:(lia)) as [Hd Hs].
  cbv zeta in Hd, Hs. unfold upd in Hd, Hs.
  split; [exact Hd|]. intros i j Hj Hi.
  specialize (Hs i j Hj Hi).
  rewrite (proj2 (Z.leb_gt (Z.of_nat (Z.to_nat n)) j)) in Hs by lia.
  unfold update_sign in Hs. rewrite <- Hs. eqR. lra.
Qed.

(** The factor [[3]] updated by [x = [4]]: the new factor is [[5]], as
    [5*5 = 3*3 + 4*4]. *)
Lemma mju_cholUpdate_exact_witness :
  let L : list (@num Exact) := [3]%R in
  let x : list (@num Exact) := [4]%R in
  let L' := u_mat (mju_cholUpdate (N:=Exact) L x 1 1) in
  u_rank (mju_cholUpdate (N:=Exact) L x 1 1) = 1
  /\ rowdot 1 L' 0 0 (0 + 1) = (rowdot 1 L 0 0 (0 + 1) + 1 * (4 * 4))%R.
Proof.
  intros L x L'.
  assert (u_rank (mju_cholUpdate (N:=Exact) L x 1 1) = 1) as Hrank.
  { unfold mju_cholUpdate, for_range. simpl for_up.
    unfold cholUpdate_body. cbn [u_x u_mat u_rank].
    assert (nonzero (N:=Exact) (rd x 0) = true) as ->.
    { apply exact_nonzero. change (4 <> 0)%R. lra. }
    pose proof (exact_consts_low 1 (rd L (0 * (1 + 1))) (rd x 0)) as Hlow.
    destruct (cholUpdate_consts (N:=Exact) 1 _ _)
      as [[[[r c] cinv] s] low].
    cbn [snd] in Hlow. cbn [u_rank].
    assert (low = false) as ->; [|reflexivity].
    rewrite Hlow. unfold Rnum.ltb.
    destruct (Rlt_dec _ _) as [H|_]; [|reflexivity].
    exfalso. pose proof mjMINVAL_le_1.
    change (3 * 3 + 4 * 4 < @mjMINVAL Exact)%R in H. lra. }
  split; [exact Hrank|].
  assert (0 <= 1) as Hn by lia.
  assert (Z.of_nat (length L) = 1 * 1) as HL by reflexivity.
  assert (Z.of_nat (length x) = 1) as Hx by reflexivity.
  assert (forall k, 0 <= k < 1 -> (0 < rd L (k * 1 + k))%R) as Hd.
  { intros k Hk. assert (k = 0) as -> by lia. change (0 < 3)%R. lra. }
  exact (proj2 (mju_cholUpdate_exact L x 1 1 Hn HL Hx Hd Hrank)
           0 0 ltac:(lia) ltac:(lia)).
Defined.

(* ================================================================= *)
(** ** [mju_solveLUSparse] on rows that hold their diagonal *)

(** Row [i] of the pattern holds its diagonal at the offset [p]: the
    cells before it lie in the columns below [i], the cells after it in
    the columns above [i] and below [n]. *)
Definition LU_row_ok (rownnz rowadr colind : list Z) (n i p : Z) : Prop :=
  0 <= p < rd rownnz i
  /\ rd colind (rd rowadr i + p) = i
  /\ (forall q, 0 <= q < p -> 0 <= rd colind (rd rowadr i + q) < i)
  /\ (forall q, p < q < rd rownnz i ->
        i < rd colind (rd rowadr i + q) < n).

Lemma for_down_om_done {St} (P : Z -> St -> Prop)
    (body : Z -> St -> option (outcome St)) (k : nat) (hi : Z) (s : St) :
  P hi s ->
  (forall i t, hi - Z.of_nat k < i <= hi -> P i t ->
     exists t', body i t = Some (Done t') /\ P (i - 1) t') ->
  exists s', for_down_om k hi body s = Some (Done s')
             /\ P (hi - Z.of_nat k) s'.
Proof.
  revert hi s. induction k as [|k IH]; intros hi s H0 Hstep.
  - exists s. split; [reflexivity|]. now rewrite Z.sub_0_r.
  - destruct (Hstep hi s ltac:(lia) H0) as (t & Ht & HP).
    destruct (IH (hi - 1) t HP) as (s' & Hs' & HP').
    { intros i u Hi. apply Hstep. lia. }
    exists s'. simpl. rewrite Ht. split; [exact Hs'|].
    now replace (hi - Z.of_nat (S k)) with (hi - 1 - Z.of_nat k) by lia.
Qed.

Lemma for_up_om_done {St} (P : Z -> St -> Prop)
    (body : Z -> St -> option (outcome St)) (k : nat) (lo : Z) (s : St) :
  P lo s ->
  (forall i t, lo <= i < lo + Z.of_nat k -> P i t ->
     exists t', body i t = Some (Done t') /\ P (i + 1) t') ->
  exists s', for_up_om k lo body s = Some (Done s')
             /\ P (lo + Z.of_nat k) s'.
Proof.
  revert lo s. induction k as [|k IH]; intros lo s H0 Hstep.
  - exists s. split; [reflexivity|]. now rewrite Z.add_0_r.
  - destruct (Hstep lo s ltac:(lia) H0) as (t & Ht & HP).
    destruct (IH (lo + 1) t HP) as (s' & Hs' & HP').
    { intros i u Hi. apply Hstep. lia. }
    exists s'. simpl. rewrite Ht. split; [exact Hs'|].
    now replace (lo + Z.of_nat (S k)) with (lo + 1 + Z.of_nat k) by lia.
Qed.

Section SolveLURuns.
Context {N : Num}.
Variables (LU : list num) (rowadr colind : list Z).

(** The walk down the cells after the diagonal ends at the diagonal. *)
Lemma solveLU_upper_run fuel i p j (res : list num) :
  p <= j ->
  (forall q, p < q <= j -> i < rd colind (rd rowadr i + q)) ->
  ~ i < rd colind (rd rowadr i + p) ->
  j - p <= Z.of_nat fuel ->
  exists res',
    solveLU_upper fuel LU rowadr colind i j res = Some (res', p)
    /\ length res' = length res
    /\ forall c, c <> i -> rd res' c = rd res c.
Proof.
  revert j res. induction fuel as [|fuel IH]; intros j res Hpj Hup Hp Hf.
  - assert (j = p) as -> by lia. simpl.
    rewrite (proj2 (Z.ltb_ge _ _)) by lia. now exists res.
  - destruct (decide (j = p)) as [->|Hne].
    + simpl. rewrite (proj2 (Z.ltb_ge _ _)) by lia. now exists res.
    + simpl. rewrite (proj2 (Z.ltb_lt _ _)) by (apply Hup; lia).
      destruct (IH (j - 1)
                  (wr res i (rd res i
                             - rd res (rd colind (rd rowadr i + j))
                               * rd LU (rd rowadr i + j))%num))
        as (res' & Hrun & Hl & Hfr); [lia | | exact Hp | lia |].
      { intros q Hq. apply Hup. lia. }
      exists res'. split; [exact Hrun|]. rewrite wr_length in Hl.
      split; [exact Hl|]. intros c Hc. rewrite Hfr by exact Hc.
      now rewrite rd_wr_ne by congruence.
Qed.

(** The walk up the cells before the diagonal ends at the diagonal. *)
Lemma solveLU_lower_run fuel i p j (res : list num) :
  j <= p ->
  (forall q, j <= q < p -> rd colind (rd rowadr i + q) < i) ->
  ~ rd colind (rd rowadr i + p) < i ->
  p - j <= Z.of_nat fuel ->
  exists res',
    solveLU_lower fuel LU rowadr colind i j res = Some (res', p)
    /\ length res' = length res
    /\ forall c, c <> i -> rd res' c = rd res c.
Proof.
  revert j res. induction fuel as [|fuel IH]; intros j res Hpj Hup Hp Hf.
  - assert (j = p) as -> by lia. simpl.
    rewrite (proj2 (Z.ltb_ge _ _)) by lia. now exists res.
  - destruct (decide (j = p)) as [->|Hne].
    + simpl. rewrite (proj2 (Z.ltb_ge _ _)) by lia. now exists res.
    + simpl. rewrite (proj2 (Z.ltb_lt _ _)) by (apply Hup; lia).
      destruct (IH (j + 1)
                  (wr res i (rd res i
                             - rd res (rd colind (rd rowadr i + j))
                               * rd LU (rd rowadr i + j))%num))
        as (res' & Hrun & Hl & Hfr); [lia | | exact Hp | lia |].
      { intros q Hq. apply Hup. lia. }
      exists res'. split; [exact Hrun|]. rewrite wr_length in Hl.
      split; [exact Hl|]. intros c Hc. rewrite Hfr by exact Hc.
      now rewrite rd_wr_ne by congruence.
Qed.

End SolveLURuns.

(** [mju_solveLUSparse] on rows that hold their diagonal. *)
Lemma solveLUSparse_runs {N : Num} (fuel : nat)
    (res LU vec : list num) (n : Z) (rownnz rowadr colind : list Z)
    (diag : Z -> Z) :
  (forall i, 0 <= i < n -> LU_row_ok rownnz rowadr colind n i (diag i)) ->
  (forall i, 0 <= i < n -> rd rownnz i <= Z.of_nat fuel) ->
  exists res',
    mju_solveLUSparse fuel res LU vec n rownnz rowadr colind
    = Some (Done res')
    /\ length res' = length res
    /\ forall c, ~ 0 <= c < n -> rd res' c = rd res c.
Proof.
  intros Hok Hfuel. unfold mju_solveLUSparse.
  pose (P := fun (_ : Z) (t : list num) =>
               length t = length res
               /\ forall c, ~ 0 <= c < n -> rd t c = rd res c).
  destruct (for_down_om_done P
              (solveLU_U_row fuel LU vec rownnz rowadr colind)
              (Z.to_nat n) (n - 1) res) as (y & Hy & HPy).
  { split; [reflexivity | intros; reflexivity]. }
  { intros i t Hi [Hl Hf].
    destruct (Hok i ltac:(lia)) as (Hp & Hd & Hlo & Hhi).
    unfold solveLU_U_row.
    destruct (solveLU_upper_run LU rowadr colind fuel i (diag i)
                (rd rownnz i - 1) (wr t i (rd vec i)))
      as (t' & Hrun & Hl' & Hf'); [lia | | lia | |].
    - intros q Hq. apply Hhi. lia.
    - specialize (Hfuel i ltac:(lia)). lia.
    - rewrite Hrun, Hd, Z.eqb_refl. simpl. exists t'.
      split; [reflexivity|]. rewrite wr_length in Hl'.
      split; [congruence|]. intros c Hc.
      rewrite Hf' by lia. rewrite rd_wr_ne by lia. now apply Hf. }
  rewrite Hy.
  destruct (for_up_om_done P (solveLU_L_row fuel LU rowadr colind)
              (Z.to_nat n) 0 y HPy) as (x & Hx & HPx).
  { intros i t Hi [Hl Hf].
    destruct (Hok i ltac:(lia)) as (Hp & Hd & Hlo & Hhi).
    unfold solveLU_L_row.
    destruct (solveLU_lower_run LU rowadr colind fuel i (diag i) 0 t)
      as (t' & Hrun & Hl' & Hf'); [lia | | lia | |].
    - intros q Hq. apply Hlo. lia.
    - specialize (Hfuel i ltac:(lia)). lia.
    - rewrite Hrun, Hd, Z.eqb_refl. simpl. eexists.
      split; [reflexivity|]. unfold P. rewrite wr_length.
      split; [congruence|]. intros c Hc.
      rewrite rd_wr_ne by lia. rewrite Hf' by lia. now apply Hf. }
  exists x. split; [exact Hx|]. exact HPx.
Qed.

(** X16. When every row of the pattern holds its diagonal, with the
    columns below it before and the columns above it after, and [fuel] is
    no less than the longest row, [mju_solveLUSparse] reports no error:
    it returns with [res] of the same length, no cell written outside
    the first [n]. *)
Theorem mju_solveLUSparse_returns {N : Num} (fuel : nat)
    (res LU vec : list num) (n : Z) (rownnz rowadr colind : list Z)
    (diag : Z -> Z) :
  (forall i, 0 <= i < n -> LU_row_ok rownnz rowadr colind n i (diag i)) ->
  (forall i, 0 <= i < n -> rd rownnz i <= Z.of_nat fuel) ->
  exists res',
    mju_solveLUSparse fuel res LU vec n rownnz rowadr colind
    = Some (Done res')
    /\ length res' = length res
    /\ forall c, ~ 0 <= c < n -> rd res' c = rd res c.
Proof.
  intros Hok Hfuel. now apply (solveLUSparse_runs fuel res LU vec n rownnz rowadr colind diag).
Qed.

(** The pattern of a full 2x2 matrix, in binary64: the routine solves
    [[2 1; 1 3] * res = [3 4]] from the factors of [[2 1; 1 3]]. *)
Lemma mju_solveLUSparse_returns_witness :
  exists res',
    mju_solveLUSparse (N:=Float64) 2 [0; 0]%float
      [1.6666666666666667; 0.33333333333333331; 1; 3]%float [3; 4]%float 2
      [2; 2] [0; 2] [0; 1; 0; 1]
    = Some (Done res')
    /\ length res' = 2%nat.
Proof.
  assert (forall i, 0 <= i < 2 ->
            LU_row_ok [2; 2] [0; 2] [0; 1; 0; 1] 2 i i) as Hok.
  { intros i Hi. assert (i = 0 \/ i = 1) as [-> | ->] by lia.
    - split; [change (0 <= 0 < 2); lia|]. split; [reflexivity|].
      split; [intros; lia|].
      intros q Hq. change (0 < q < 2) in Hq. assert (q = 1) as -> by lia.
      change (0 < 1 < 2). lia.
    - split; [change (0 <= 1 < 2); lia|]. split; [reflexivity|]. split.
      + intros q Hq. assert (q = 0) as -> by lia. change (0 <= 0 < 1). lia.
      + intros q Hq. change (1 < q < 2) in Hq. lia. }
  assert (forall i, 0 <= i < 2 -> rd [2; 2] i <= Z.of_nat 2) as Hfuel.
  { intros i Hi.
    assert (i = 0 \/ i = 1) as [-> | ->] by lia; change (2 <= 2); lia. }
  destruct (mju_solveLUSparse_returns (N:=Float64) 2 [0; 0]%float
              [1.6666666666666667; 0.33333333333333331; 1; 3]%float
              [3; 4]%float 2 [2; 2] [0; 2] [0; 1; 0; 1] (fun i => i)
              Hok Hfuel) as (res' & Hrun & Hl & _).
  exists res'. split; [exact Hrun | exact Hl].
Defined.

(* ================================================================= *)
(** ** [mju_solveLUSparse] in exact arithmetic: [(U+I)*L*res = vec] *)

Section SolveLUExact.
Local Open Scope R_scope.

Lemma sub_last (a b c s : R) : a - b * c - s = a - (s + c * b).
Proof. ring. Qed.

Lemma sub_first (a b c s : R) : a - b * c - s = a - (c * b + s).
Proof. ring. Qed.

Lemma div_row (s d a tv yv : R) :
  d <> 0 -> a = tv - s -> tv = yv -> s + d * (a / d) = yv.
Proof. intros Hd -> <-. field. exact Hd. Qed.

Variables (LU : list numE) (rownnz rowadr colind : list Z) (n : Z).

(** The cell at the offset [q] of row [i], times the cell of [v] in its
    column. *)
Definition LU_term (v : list numE) (i q : Z) : R :=
  rd LU (rd rowadr i + q) * rd v (rd colind (rd rowadr i + q)).

(** Row [i] of [(U+I)*y], the diagonal of the row at the offset [p]. *)
Definition LU_upper_row (y : list numE) (i p : Z) : R :=
  rd y i + sumR (p + 1) (rd rownnz i) (LU_term y i).

(** Row [i] of [L*x]. *)
Definition LU_lower_row (x : list numE) (i p : Z) : R :=
  sumR 0 p (LU_term x i) + rd LU (rd rowadr i + p) * rd x i.

Lemma solveLU_upper_exact fuel i p j (res : list numE) :
  (0 <= i < Z.of_nat (length res))%Z ->
  (p <= j)%Z ->
  (forall q, (p < q <= j)%Z -> (i < rd colind (rd rowadr i + q))%Z) ->
  ~ (i < rd colind (rd rowadr i + p))%Z ->
  (j - p <= Z.of_nat fuel)%Z ->
  exists res',
    solveLU_upper (N:=Exact) fuel LU rowadr colind i j res = Some (res', p)
    /\ length res' = length res
    /\ (forall c, c <> i -> rd res' c = rd res c)
    /\ rd res' i = rd res i - sumR (p + 1) (j + 1) (LU_term res i).
Proof.
  revert j res. induction fuel as [|fuel IH]; intros j res Hi Hpj Hup Hp Hf.
  - assert (j = p) as -> by lia. simpl.
    rewrite (proj2 (Z.ltb_ge _ _)) by lia. exists res.
    repeat split; try reflexivity. rewrite sumR_nil by lia. eqR. lra.
  - destruct (decide (j = p)) as [->|Hne].
    + simpl. rewrite (proj2 (Z.ltb_ge _ _)) by lia. exists res.
      repeat split; try reflexivity. rewrite sumR_nil by lia. eqR. lra.
    + simpl. rewrite (proj2 (Z.ltb_lt _ _)) by (apply Hup; lia).
      match goal with |- context [wr res i ?v] => set (res1 := wr res i v) end.
      destruct (IH (j - 1)%Z res1) as (res' & Hrun & Hl & Hfr & Hv);
        [unfold res1; rewrite wr_length; lia | lia | | exact Hp | lia |].
      { intros q Hq. apply Hup. lia. }
      exists res'. split; [exact Hrun|].
      unfold res1 in Hl. rewrite wr_length in Hl.
      split; [exact Hl|]. split.
      * intros c Hc. rewrite Hfr by exact Hc. unfold res1.
        now rewrite rd_wr_ne by congruence.
      * etransitivity; [exact Hv|]. replace (j - 1 + 1)%Z with j by lia.
        rewrite (sumR_snoc (p + 1) j) by lia.
        rewrite (sumR_ext (p + 1) j (LU_term res1 i) (LU_term res i)).
        -- unfold res1. rewrite rd_wr_eq by lia. unfold LU_term.
           apply sub_last.
        -- intros q Hq. unfold LU_term, res1.
           rewrite rd_wr_ne; [reflexivity|].
           specialize (Hup q ltac:(lia)). lia.
Qed.

Lemma solveLU_lower_exact fuel i p j (res : list numE) :
  (0 <= i < Z.of_nat (length res))%Z ->
  (j <= p)%Z ->
  (forall q, (j <= q < p)%Z -> (rd colind (rd rowadr i + q) < i)%Z) ->
  ~ (rd colind (rd rowadr i + p) < i)%Z ->
  (p - j <= Z.of_nat fuel)%Z ->
  exists res',
    solveLU_lower (N:=Exact) fuel LU rowadr colind i j res = Some (res', p)
    /\ length res' = length res
    /\ (forall c, c <> i -> rd res' c = rd res c)
    /\ rd res' i = rd res i - sumR j p (LU_term res i).
Proof.
  revert j res. induction fuel as [|fuel IH]; intros j res Hi Hpj Hup Hp Hf.
  - assert (j = p) as -> by lia. simpl.
    rewrite (proj2 (Z.ltb_ge _ _)) by lia. exists res.
    repeat split; try reflexivity. rewrite sumR_nil by lia. eqR. lra.
  - destruct (decide (j = p)) as [->|Hne].
    + simpl. rewrite (proj2 (Z.ltb_ge _ _)) by lia. exists res.
      repeat split; try reflexivity. rewrite sumR_nil by lia. eqR. lra.
    + simpl. rewrite (proj2 (Z.ltb_lt _ _)) by (apply Hup; lia).
      match goal with |- context [wr res i ?v] => set (res1 := wr res i v) end.
      destruct (IH (j + 1)%Z res1) as (res' & Hrun & Hl & Hfr & Hv);
        [unfold res1; rewrite wr_length; lia | lia | | exact Hp | lia |].
      { intros q Hq. apply Hup. lia. }
      exists res'. split; [exact Hrun|].
      unfold res1 in Hl. rewrite wr_length in Hl.
      split; [exact Hl|]. split.
      * intros c Hc. rewrite Hfr by exact Hc. unfold res1.
        now rewrite rd_wr_ne by congruence.
      * etransitivity; [exact Hv|]. rewrite (sumR_first j p) by lia.
        rewrite (sumR_ext (j + 1) p (LU_term res1 i) (LU_term res i)).
        -- unfold res1. rewrite rd_wr_eq by lia. unfold LU_term.
           apply sub_first.
        -- intros q Hq. unfold LU_term, res1.
           rewrite rd_wr_ne; [reflexivity|].
           specialize (Hup q ltac:(lia)). lia.
Qed.

Variable diag : Z -> Z.
Hypothesis Hn : (0 <= n)%Z.
Hypothesis Hok :
  forall i, (0 <= i < n)%Z -> LU_row_ok rownnz rowadr colind n i (diag i).
Hypothesis Hnz :
  forall i, (0 <= i < n)%Z -> rd LU (rd rowadr i + diag i) <> 0.

Variable fuel : nat.
Hypothesis Hfuel : forall i, (0 <= i < n)%Z -> (rd rownnz i <= Z.of_nat fuel)%Z.

(** The first loop solves [(U+I)*y = vec]. *)
Lemma solveLU_U_exact (res vec : list numE) :
  (n <= Z.of_nat (length res))%Z ->
  exists y,
    for_down_om (Z.to_nat n) (n - 1)
      (solveLU_U_row (N:=Exact) fuel LU vec rownnz rowadr colind) res
    = Some (Done y)
    /\ length y = length res
    /\ forall i, (0 <= i < n)%Z -> LU_upper_row y i (diag i) = rd vec i.
Proof.
  intros Hlen.
  pose (P := fun (k : Z) (t : list numE) =>
               length t = length res
               /\ forall i, (k < i < n)%Z ->
                    LU_upper_row t i (diag i) = rd vec i).
  destruct (for_down_om_done P
              (solveLU_U_row (N:=Exact) fuel LU vec rownnz rowadr colind)
              (Z.to_nat n) (n - 1) res) as (y & Hy & Hl & HP).
  { split; [reflexivity | intros; lia]. }
  { intros i t Hi [Hl Hrows].
    destruct (Hok i ltac:(lia)) as (Hp & Hd & Hlo & Hhi).
    unfold solveLU_U_row.
    destruct (solveLU_upper_exact fuel i (diag i) (rd rownnz i - 1)
                (wr t i (rd vec i)))
      as (t' & Hrun & Hl' & Hf' & Hv);
      [rewrite wr_length; lia | lia | | lia | |].
    - intros q Hq. apply Hhi. lia.
    - specialize (Hfuel i ltac:(lia)). lia.
    - rewrite Hrun, Hd, Z.eqb_refl. simpl. exists t'.
      split; [reflexivity|]. rewrite wr_length in Hl'.
      split; [congruence|]. intros r Hr. unfold LU_upper_row.
      destruct (decide (r = i)) as [->|Hne].
      + rewrite Hv, rd_wr_eq by lia.
        replace (rd rownnz i - 1 + 1)%Z with (rd rownnz i) by lia.
        rewrite (sumR_ext _ _ (LU_term t' i) (LU_term (wr t i (rd vec i)) i)).
        * eqR. lra.
        * intros q Hq. unfold LU_term. rewrite Hf'; [reflexivity|].
          specialize (Hhi q ltac:(lia)). lia.
      + destruct (Hok r ltac:(lia)) as (_ & _ & _ & Hhir).
        rewrite Hf', rd_wr_ne by lia.
        rewrite (sumR_ext _ _ (LU_term t' r) (LU_term t r)).
        * apply Hrows. lia.
        * intros q Hq. unfold LU_term.
          specialize (Hhir q ltac:(lia)).
          now rewrite Hf', rd_wr_ne by lia. }
  exists y. split; [exact Hy|]. split; [exact Hl|].
  intros i Hi. apply HP. lia.
Qed.

(** The second loop solves [L*x = y]. *)
Lemma solveLU_L_exact (y : list numE) :
  (n <= Z.of_nat (length y))%Z ->
  exists x,
    for_up_om (Z.to_nat n) 0
      (solveLU_L_row (N:=Exact) fuel LU rowadr colind) y
    = Some (Done x)
    /\ length x = length y
    /\ forall i, (0 <= i < n)%Z -> LU_lower_row x i (diag i) = rd y i.
Proof.
  intros Hlen.
  pose (P := fun (k : Z) (t : list numE) =>
               length t = length y
               /\ (forall i, (k <= i)%Z -> rd t i = rd y i)
               /\ forall i, (0 <= i < k)%Z ->
                    LU_lower_row t i (diag i) = rd y i).
  destruct (for_up_om_done P (solveLU_L_row (N:=Exact) fuel LU rowadr colind)
              (Z.to_nat n) 0 y) as (x & Hx & Hl & _ & HP).
  { split; [reflexivity|]. split; [reflexivity | intros; lia]. }
  { intros i t Hi (Hl & Hhi' & Hrows).
    destruct (Hok i ltac:(lia)) as (Hp & Hd & Hlo & Hhi).
    unfold solveLU_L_row.
    destruct (solveLU_lower_exact fuel i (diag i) 0 t)
      as (t' & Hrun & Hl' & Hf' & Hv); [lia | lia | | lia | |].
    - intros q Hq. apply Hlo. lia.
    - specialize (Hfuel i ltac:(lia)). lia.
    - rewrite Hrun, Hd, Z.eqb_refl. simpl. eexists.
      split; [reflexivity|]. unfold P. rewrite wr_length.
      split; [congruence|]. split.
      + intros r Hr. rewrite rd_wr_ne by lia. rewrite Hf' by lia.
        apply Hhi'. lia.
      + intros r Hr. unfold LU_lower_row.
        destruct (decide (r = i)) as [->|Hne].
        * rewrite rd_wr_eq by lia.
          rewrite (sumR_ext 0 (diag i) _ (LU_term t i)).
          -- apply (div_row _ _ _ (rd t i));
               [apply Hnz; lia | exact Hv | apply Hhi'; lia].
          -- intros q Hq. unfold LU_term.
             specialize (Hlo q ltac:(lia)).
             now rewrite rd_wr_ne, Hf' by lia.
        * destruct (Hok r ltac:(lia)) as (_ & _ & Hlor & _).
          rewrite rd_wr_ne, (Hf' r) by lia.
          rewrite (sumR_ext 0 (diag r) _ (LU_term t r)).
          -- apply Hrows. lia.
          -- intros q Hq. unfold LU_term.
             specialize (Hlor q ltac:(lia)).
             now rewrite rd_wr_ne, Hf' by lia. }
  exists x. split; [exact Hx|]. split; [exact Hl|].
  intros i Hi. apply HP. lia.
Qed.

End SolveLUExact.

(** X17. In exact arithmetic, on a pattern whose every row holds its
    diagonal (the columns below it before, the columns above it after),
    with the diagonal cells of [LU] not zero, [n] cells at least in [res]
    and [fuel] no less than the longest row: [mju_solveLUSparse] returns
    [x] with [(U+I)*L*x = vec], [L] the cells of [LU] up to the diagonal
    and [U] the cells beyond it.  There is a [y] with [(U+I)*y = vec]
    (first loop) and [L*x = y] (second loop). *)
Theorem mju_solveLUSparse_exact (fuel : nat)
    (res LU vec : list (@num Exact)) (n : Z)
    (rownnz rowadr colind : list Z) (diag : Z -> Z) :
  0 <= n -> n <= Z.of_nat (length res) ->
  (forall i, 0 <= i < n -> LU_row_ok rownnz rowadr colind n i (diag i)) ->
  (forall i, 0 <= i < n -> rd LU (rd rowadr i + diag i) <> 0%R) ->
  (forall i, 0 <= i < n -> rd rownnz i <= Z.of_nat fuel) ->
  exists x y : list (@num Exact),
    mju_solveLUSparse (N:=Exact) fuel res LU vec n rownnz rowadr colind
    = Some (Done x)
    /\ (forall i, 0 <= i < n ->
          LU_upper_row LU rownnz rowadr colind y i (diag i) = rd vec i)
    /\ (forall i, 0 <= i < n ->
          LU_lower_row LU rowadr colind x i (diag i) = rd y i).
Proof.
  intros Hn Hlen Hok Hnz Hfuel. unfold mju_solveLUSparse.
  destruct (solveLU_U_exact LU rownnz rowadr colind n diag Hn Hok fuel Hfuel
              res vec Hlen) as (y & Hy & Hly & Hupper).
  rewrite Hy.
  destruct (solveLU_L_exact LU rownnz rowadr colind n diag Hok Hnz fuel
              Hfuel y ltac:(lia)) as (x & Hx & _ & Hlower).
  exists x, y. split; [exact Hx|]. split; [exact Hupper | exact Hlower].
Qed.

(** The 1x1 system [2 * x = 6]. *)
Lemma mju_solveLUSparse_exact_witness :
  exists x y : list (@num Exact),
    mju_solveLUSparse (N:=Exact) 1 [0%R] [2%R] [6%R] 1 [1] [0] [0]
    = Some (Done x)
    /\ rd y 0 = 6%R
    /\ (2 * rd x 0 = rd y 0)%R.
Proof.
  assert (0 <= 1) as Hn by lia.
  assert (1 <= Z.of_nat (length [0%R])) as Hlen by (simpl; lia).
  assert (forall i, 0 <= i < 1 -> LU_row_ok [1] [0] [0] 1 i 0) as Hok.
  { intros i Hi. assert (i = 0) as -> by lia.
    split; [change (0 <= 0 < 1); lia|]. split; [reflexivity|].
    split; [intros; lia|]. intros q Hq. change (0 < q < 1) in Hq. lia. }
  assert (forall i, 0 <= i < 1 ->
            rd ([2%R] : list (@num Exact)) (rd [0] i + 0) <> 0%R) as Hnz.
  { intros i Hi. assert (i = 0) as -> by lia. change (2 <> 0)%R. lra. }
  assert (forall i, 0 <= i < 1 -> rd [1] i <= Z.of_nat 1) as Hfuel.
  { intros i Hi. assert (i = 0) as -> by lia. change (1 <= 1). lia. }
  destruct (mju_solveLUSparse_exact 1 [0%R] [2%R] [6%R] 1 [1] [0] [0]
              (fun _ => 0) Hn Hlen Hok Hnz Hfuel) as (x & y & Hrun & Hu & Hl).
  exists x, y. split; [exact Hrun|].
  specialize (Hu 0 ltac:(lia)). specialize (Hl 0 ltac:(lia)).
  unfold LU_upper_row in Hu. unfold LU_lower_row in Hl.
  rewrite sumR_nil in Hu by (change (1 <= 0 + 1); lia).
  rewrite sumR_nil in Hl by lia.
  split.
  - change (rd y 0 + 0 = 6)%R in Hu. lra.
  - change (0 + 2 * rd x 0 = rd y 0)%R in Hl. lra.
Defined.

(* ================================================================= *)
(** ** [mju_cholSolveSparse] in exact arithmetic: [L'*L*res = vec] *)

(** Row [i] of the pattern ends with its diagonal, the cells before it in
    the columns below [i]. *)
Definition chol_row_ok (rownnz rowadr colind : list Z) (i : Z) : Prop :=
  0 <= rd rowadr i
  /\ 1 <= rd rownnz i
  /\ rd colind (rd rowadr i + rd rownnz i - 1) = i
  /\ forall q, 0 <= q < rd rownnz i - 1 ->
       0 <= rd colind (rd rowadr i + q) < i.

Section SumPick.
Local Open Scope R_scope.

(** A sum with one term. *)
Lemma sumR_pick lo hi c (g : Z -> R) :
  (lo <= c < hi)%Z ->
  sumR lo hi (fun i => if (i =? c)%Z then g i else 0) = g c.
Proof.
  intros Hc.
  rewrite (sumR_split lo c hi) by lia.
  rewrite (sumR_first c hi) by lia.
  rewrite Z.eqb_refl.
  rewrite !sumR_zero; [lra | |];
    intros t Ht; now rewrite (proj2 (Z.eqb_neq t c)) by lia.
Qed.

Lemma sub_hit (a s m tmp : R) : a - s * tmp - m * tmp = a - (s + m) * tmp.
Proof. ring. Qed.

Lemma sub_miss (a s tmp : R) : a - s * tmp = a - (s + 0) * tmp.
Proof. ring. Qed.

Lemma sub_none (a tmp : R) : a = a - 0 * tmp.
Proof. ring. Qed.

Lemma bwd_below (v tc tk o d s : R) :
  v = tc + s -> v = tc - o * (tk / d) + (o * (tk / d) + s).
Proof. intros ->. ring. Qed.

Lemma bwd_at (v tk d s : R) :
  d <> 0 -> v = tk + s -> v = d * (tk / d) + (0 * (tk / d) + s).
Proof. intros Hd ->. field. exact Hd. Qed.

Lemma bwd_above (v tc tk d dc s : R) :
  v = dc * tc + s -> v = dc * (tc - 0 * (tk / d)) + (0 * (tk / d) + s).
Proof. intros ->. unfold Rdiv. ring. Qed.

Lemma fwd_at (s d tv yv : R) :
  d <> 0 -> tv = yv -> s + d * ((tv - s) / d) = yv.
Proof. intros Hd ->. field. exact Hd. Qed.

End SumPick.

Section CholSolveSparseExact.
Local Open Scope R_scope.

Variables (mat : list numE) (rownnz rowadr colind : list Z) (n : Z).

(** The cells of row [i] before its last that lie in column [c], added. *)
Definition sparse_off (i c : Z) : R :=
  sumR 0 (rd rownnz i - 1)
    (fun q => if (rd colind (rd rowadr i + q) =? c)%Z
              then rd mat (rd rowadr i + q) else 0).

(** The last cell of row [i]. *)
Definition sparse_last (i : Z) : R :=
  rd mat (rd rowadr i + rd rownnz i - 1).

(** Row [i] before its last cell, times [x]. *)
Definition sparse_low (x : list numE) (i : Z) : R :=
  sumR 0 (rd rownnz i - 1)
    (fun q => rd mat (rd rowadr i + q) * rd x (rd colind (rd rowadr i + q))).

(** Row [i] of [L*x], [L] the rows of [mat]. *)
Definition sparse_row (x : list numE) (i : Z) : R :=
  sumR 0 (rd rownnz i)
    (fun q => rd mat (rd rowadr i + q) * rd x (rd colind (rd rowadr i + q))).

(** Row [c] of [L'*y]: the cells of every row that lie in column [c], each
    times the cell of [y] of its row. *)
Definition sparse_col (y : list numE) (c : Z) : R :=
  sumR 0 n
    (fun i => sumR 0 (rd rownnz i)
       (fun q => if (rd colind (rd rowadr i + q) =? c)%Z
                 then rd mat (rd rowadr i + q) * rd y i else 0)).

Lemma sparse_off_none i c :
  (forall q, (0 <= q < rd rownnz i - 1)%Z ->
     rd colind (rd rowadr i + q) <> c) ->
  sparse_off i c = 0.
Proof.
  intros H. unfold sparse_off. apply sumR_zero. intros q Hq.
  now rewrite (proj2 (Z.eqb_neq _ _)) by (apply H; lia).
Qed.

(** The loop over the cells before the diagonal, in the first pass. *)
Lemma cholSolveSparse_bwd_inner (adr m : Z) (tmp : R) (res : list numE) :
  (0 <= m)%Z ->
  (forall q, (0 <= q < m)%Z ->
     (0 <= rd colind (adr + q) < Z.of_nat (length res))%Z) ->
  let r' := for_range 0 m
              (fun j (res : list numE) =>
                 wr res (rd colind (adr + j))
                    (@nsub Exact (rd res (rd colind (adr + j)))
                       (@nmul Exact (rd mat (adr + j)) tmp)))
              res in
  length r' = length res
  /\ forall c, rd r' c
       = rd res c
         - sumR 0 m (fun q => if (rd colind (adr + q) =? c)%Z
                              then rd mat (adr + q) else 0) * tmp.
Proof.
  intros Hm Hcol. cbv zeta.
  apply (for_range_counted
    (fun h (acc : list numE) =>
       length acc = length res
       /\ forall c, rd acc c
            = rd res c
              - sumR 0 h (fun q => if (rd colind (adr + q) =? c)%Z
                                   then rd mat (adr + q) else 0) * tmp));
    [exact Hm| |].
  - split; [reflexivity|]. intros c. rewrite sumR_nil by lia.
    apply sub_none.
  - intros j acc Hj (Hl & Hc).
    split; [now rewrite wr_length|]. intros c.
    rewrite sumR_snoc by lia.
    destruct (Z.eqb_spec (rd colind (adr + j)) c) as [E|E].
    + rewrite E. rewrite rd_wr_eq by (specialize (Hcol j Hj); lia).
      etransitivity; [|apply sub_hit]. eqR.
      change (@nsub Exact) with Rminus. change (@nmul Exact) with Rmult.
      f_equal. apply Hc.
    + rewrite rd_wr_ne by exact E.
      etransitivity; [apply Hc|]. apply sub_miss.
Qed.

(** What the first pass does at row [i]. *)
Lemma cholSolveSparse_bwd_exact (i : Z) (res : list numE) :
  (0 <= i < Z.of_nat (length res))%Z ->
  chol_row_ok rownnz rowadr colind i ->
  let r' := cholSolveSparse_bwd (N:=Exact) mat rownnz rowadr colind i res in
  length r' = length res
  /\ rd r' i = rd res i / sparse_last i
  /\ forall c, c <> i ->
       rd r' c = rd res c - sparse_off i c * (rd res i / sparse_last i).
Proof.
  intros Hi (Hadr & Hnnz & Hd & Hlow). cbv zeta.
  unfold cholSolveSparse_bwd.
  destruct (nonzero (N:=Exact) (rd res i)) eqn:E.
  - match goal with
    | |- context [for_range 0 ?m ?f ?r0] =>
        destruct (cholSolveSparse_bwd_inner (rd rowadr i) (rd rownnz i - 1)
                    (rd (wr res i (@ndiv Exact (rd res i) (sparse_last i))) i)
                    (wr res i (@ndiv Exact (rd res i) (sparse_last i))))
          as (Hl & Hc)
    end.
    { lia. }
    { intros q Hq. rewrite wr_length. specialize (Hlow q Hq). lia. }
    cbv zeta in Hl, Hc. unfold sparse_last in *.
    rewrite wr_length in Hl. split; [exact Hl|]. split.
    + etransitivity; [apply Hc|]. rewrite !rd_wr_eq by lia.
      fold (sparse_off i i). rewrite sparse_off_none.
      * eqR. change (@ndiv Exact) with Rdiv. lra.
      * intros q Hq. specialize (Hlow q Hq). lia.
    + intros c Hci. etransitivity; [apply Hc|].
      rewrite rd_wr_eq by lia. now rewrite rd_wr_ne by congruence.
  - apply exact_nonzero_false in E.
    split; [reflexivity|]. split.
    + rewrite E. eqR. unfold Rdiv. lra.
    + intros c Hci. rewrite E. eqR. unfold Rdiv. lra.
Qed.

Hypothesis Hn : (0 <= n)%Z.
Hypothesis Hok :
  forall i, (0 <= i < n)%Z -> chol_row_ok rownnz rowadr colind i.
Hypothesis Hnz : forall i, (0 <= i < n)%Z -> sparse_last i <> 0.

(** The first pass solves [L'*y = vec]. *)
Lemma cholSolveSparse_first (res vec : list numE) :
  (n <= Z.of_nat (length res))%Z ->
  let y := for_down (Z.to_nat n) (n - 1)
             (cholSolveSparse_bwd (N:=Exact) mat rownnz rowadr colind)
             (mju_copy res vec n) in
  length y = length res
  /\ forall c, (0 <= c < n)%Z ->
       rd vec c
       = sparse_last c * rd y c + sumR 0 n (fun i => sparse_off i c * rd y i).
Proof.
  intros Hlen. cbv zeta.
  pose (P := fun (k : Z) (t : list numE) =>
               length t = length res
               /\ forall c, (0 <= c < n)%Z ->
                    rd vec c
                    = (if (c <=? k)%Z then rd t c
                       else sparse_last c * rd t c)
                      + sumR (k + 1) n (fun i => sparse_off i c * rd t i)).
  assert (P (n - 1 - Z.of_nat (Z.to_nat n))%Z
            (for_down (Z.to_nat n) (n - 1)
               (cholSolveSparse_bwd (N:=Exact) mat rownnz rowadr colind)
               (mju_copy res vec n))) as [Hl HP].
  { apply for_down_counted.
    - split; [apply mju_copy_length|]. intros c Hc.
      rewrite (proj2 (Z.leb_le _ _)) by lia.
      rewrite sumR_nil by lia. rewrite mju_copy_copied by lia.
      eqR. lra.
    - intros k t Hk [Hl HP].
      destruct (cholSolveSparse_bwd_exact k t ltac:(lia) (Hok k ltac:(lia)))
        as (Hl' & Hk' & Hc').
      cbv zeta in Hl', Hk', Hc'.
      set (t' := cholSolveSparse_bwd mat rownnz rowadr colind k t) in *.
      destruct (Hok k ltac:(lia)) as (_ & _ & _ & Hlow).
      split; [congruence|]. intros c Hc.
      replace (k - 1 + 1)%Z with k by lia.
      rewrite (sumR_first k n) by lia.
      rewrite (sumR_ext (k + 1) n (fun i => sparse_off i c * rd t' i)
                 (fun i => sparse_off i c * rd t i)).
      2:{ intros i Hik. f_equal. etransitivity; [apply Hc'; lia|].
          rewrite sparse_off_none; [eqR; lra|].
          intros q Hq. specialize (Hlow q Hq). lia. }
      specialize (HP c Hc).
      destruct (Z_lt_le_dec c k) as [Hlt|Hge].
      + rewrite (proj2 (Z.leb_le c k)) in HP by lia.
        rewrite (proj2 (Z.leb_le c (k - 1))) by lia.
        rewrite Hk', (Hc' c) by lia. apply bwd_below. exact HP.
      + destruct (decide (c = k)) as [->|Hne].
        * rewrite (proj2 (Z.leb_le k k)) in HP by lia.
          rewrite (proj2 (Z.leb_gt k (k - 1))) by lia.
          rewrite Hk'. rewrite (sparse_off_none k k).
          -- apply bwd_at; [apply Hnz; lia | exact HP].
          -- intros q Hq. specialize (Hlow q Hq). lia.
        * rewrite (proj2 (Z.leb_gt c k)) in HP by lia.
          rewrite (proj2 (Z.leb_gt c (k - 1))) by lia.
          rewrite Hk', (Hc' c) by lia. rewrite (sparse_off_none k c).
          -- apply bwd_above. exact HP.
          -- intros q Hq. specialize (Hlow q Hq). lia. }
  split; [exact Hl|]. intros c Hc. specialize (HP c Hc).
  rewrite (proj2 (Z.leb_gt _ _)) in HP by lia.
  replace (n - 1 - Z.of_nat (Z.to_nat n) + 1)%Z with 0%Z in HP by lia.
  exact HP.
Qed.

Variable mju_dotSparse : list numE -> list numE -> Z -> list Z -> numE.
Hypothesis Hdot : forall v1 v2 nnz ind,
  mju_dotSparse v1 v2 nnz ind
  = sumR 0 nnz (fun j => rd v1 j * rd v2 (rd ind j)).

(** What the second pass does at row [i]. *)
Lemma cholSolveSparse_fwd_exact (i : Z) (res : list numE) :
  (0 <= i < Z.of_nat (length res))%Z ->
  chol_row_ok rownnz rowadr colind i ->
  let r' := cholSolveSparse_fwd (N:=Exact) mju_dotSparse mat rownnz rowadr
              colind i res in
  length r' = length res
  /\ rd r' i = (rd res i - sparse_low res i) / sparse_last i
  /\ forall c, c <> i -> rd r' c = rd res c.
Proof.
  intros Hi (Hadr & Hnnz & Hd & Hlow). cbv zeta.
  unfold cholSolveSparse_fwd.
  destruct (Z.ltb_spec 1 (rd rownnz i)) as [Hgt|Hle].
  - rewrite !wr_length. split; [reflexivity|]. split.
    + rewrite !rd_wr_eq by (rewrite ?wr_length; lia).
      rewrite Hdot. unfold sparse_low, sparse_last. eqR.
      change (@ndiv Exact) with Rdiv. change (@nsub Exact) with Rminus.
      f_equal. f_equal. apply sumR_ext. intros q Hq.
      now rewrite !rd_ptr by lia.
    + intros c Hci. now rewrite !rd_wr_ne by congruence.
  - rewrite !wr_length. split; [reflexivity|]. split.
    + rewrite rd_wr_eq by lia. unfold sparse_low, sparse_last.
      rewrite sumR_nil by lia. eqR.
      change (@ndiv Exact) with Rdiv. f_equal. lra.
    + intros c Hci. now rewrite rd_wr_ne by congruence.
Qed.

(** The second pass solves [L*x = y]. *)
Lemma cholSolveSparse_second (y : list numE) :
  (n <= Z.of_nat (length y))%Z ->
  let x := for_range 0 n
             (cholSolveSparse_fwd (N:=Exact) mju_dotSparse mat rownnz rowadr
                colind) y in
  forall i, (0 <= i < n)%Z ->
    sparse_low x i + sparse_last i * rd x i = rd y i.
Proof.
  intros Hlen. cbv zeta.
  pose (P := fun (k : Z) (t : list numE) =>
               length t = length y
               /\ (forall i, (k <= i)%Z -> rd t i = rd y i)
               /\ forall i, (0 <= i < k)%Z ->
                    sparse_low t i + sparse_last i * rd t i = rd y i).
  assert (P n (for_range 0 n
                 (cholSolveSparse_fwd (N:=Exact) mju_dotSparse mat rownnz
                    rowadr colind) y)) as (_ & _ & HP).
  { apply for_range_counted; [exact Hn| |].
    - split; [reflexivity|]. split; [reflexivity | intros; lia].
    - intros k t Hk (Hl & Hhi & Hrows).
      destruct (cholSolveSparse_fwd_exact k t ltac:(lia) (Hok k ltac:(lia)))
        as (Hl' & Hk' & Hc').
      cbv zeta in Hl', Hk', Hc'.
      set (t' := cholSolveSparse_fwd mju_dotSparse mat rownnz rowadr colind
                   k t) in *.
      split; [congruence|]. split.
      + intros i Hik. rewrite Hc' by lia. apply Hhi. lia.
      + intros i Hik.
        assert (sparse_low t' i = sparse_low t i) as ->.
        { unfold sparse_low. apply sumR_ext. intros q Hq. f_equal.
          apply Hc'.
          destruct (Hok i ltac:(lia)) as (_ & _ & _ & Hlow).
          specialize (Hlow q Hq). lia. }
        destruct (decide (i = k)) as [->|Hne].
        * rewrite Hk'. apply fwd_at; [apply Hnz; lia | apply Hhi; lia].
        * rewrite (Hc' i) by lia. apply Hrows. lia. }
  exact HP.
Qed.

Lemma sparse_row_split (x : list numE) i :
  chol_row_ok rownnz rowadr colind i ->
  sparse_row x i = sparse_low x i + sparse_last i * rd x i.
Proof.
  intros (Hadr & Hnnz & Hd & Hlow). unfold sparse_row, sparse_low, sparse_last.
  replace (rd rownnz i) with (rd rownnz i - 1 + 1)%Z at 1 by lia.
  rewrite sumR_snoc by lia.
  replace (rd rowadr i + (rd rownnz i - 1))%Z
    with (rd rowadr i + rd rownnz i - 1)%Z by lia.
  now rewrite Hd.
Qed.

Lemma sparse_col_split (y : list numE) c :
  (0 <= c < n)%Z ->
  sparse_col y c
  = sparse_last c * rd y c + sumR 0 n (fun i => sparse_off i c * rd y i).
Proof.
  intros Hc. unfold sparse_col.
  rewrite (sumR_ext 0 n _
             (fun i => (if (i =? c)%Z then sparse_last i * rd y i else 0)
                       + sparse_off i c * rd y i)).
  - rewrite sumR_add. rewrite (sumR_pick 0 n c) by lia. reflexivity.
  - intros i Hi. destruct (Hok i Hi) as (Hadr & Hnnz & Hd & Hlow).
    replace (rd rownnz i) with (rd rownnz i - 1 + 1)%Z at 1 by lia.
    rewrite sumR_snoc by lia.
    replace (rd rowadr i + (rd rownnz i - 1))%Z
      with (rd rowadr i + rd rownnz i - 1)%Z by lia.
    rewrite Hd. fold (sparse_last i).
    rewrite (sumR_ext 0 (rd rownnz i - 1) _
               (fun q => rd y i *
                  (if (rd colind (rd rowadr i + q) =? c)%Z
                   then rd mat (rd rowadr i + q) else 0))).
    + rewrite sumR_scal. fold (sparse_off i c). lra.
    + intros q Hq. destruct (_ =? c)%Z; lra.
Qed.

End CholSolveSparseExact.

(** X18. In exact arithmetic, with [mju_dotSparse] the product of a sparse
    row and a dense vector, on a pattern whose rows end with their
    diagonal, the cells before it in lower columns, the diagonal cells of
    [mat] not zero and [n] cells at least in [res]: [mju_cholSolveSparse]
    leaves in [res] the solution of [L'*L*res = vec], [L] the rows of
    [mat].  There is a [y] with [L'*y = vec] (first pass) and
    [L*res = y] (second pass). *)
Theorem mju_cholSolveSparse_exact
    (mju_dotSparse : list (@num Exact) -> list (@num Exact) -> Z -> list Z
                     -> @num Exact)
    (res mat vec : list (@num Exact)) (n : Z)
    (rownnz rowadr colind : list Z) :
  (forall v1 v2 nnz ind,
     mju_dotSparse v1 v2 nnz ind
     = sumR 0 nnz (fun j => (rd v1 j * rd v2 (rd ind j))%R)) ->
  0 <= n -> n <= Z.of_nat (length res) ->
  (forall i, 0 <= i < n -> chol_row_ok rownnz rowadr colind i) ->
  (forall i, 0 <= i < n -> sparse_last mat rownnz rowadr i <> 0%R) ->
  exists y : list (@num Exact),
    (forall c, 0 <= c < n ->
       sparse_col mat rownnz rowadr colind n y c = rd vec c)
    /\ (forall i, 0 <= i < n ->
          sparse_row mat rownnz rowadr colind
            (mju_cholSolveSparse (N:=Exact) mju_dotSparse res mat vec n
               rownnz rowadr colind) i
          = rd y i).
Proof.
  intros Hdot Hn Hlen Hok Hnz. unfold mju_cholSolveSparse.
  destruct (cholSolveSparse_first mat rownnz rowadr colind n Hok Hnz
              res vec Hlen) as (Hly & Hy).
  cbv zeta in Hly, Hy.
  set (y := for_down (Z.to_nat n) (n - 1) _ (mju_copy res vec n)) in *.
  exists y. split.
  - intros c Hc. rewrite (sparse_col_split mat rownnz rowadr colind n Hok)
      by exact Hc.
    symmetry. now apply Hy.
  - intros i Hi. rewrite sparse_row_split by (apply Hok; exact Hi).
    apply (cholSolveSparse_second mat rownnz rowadr colind n Hn Hok Hnz
             mju_dotSparse Hdot y ltac:(lia) i Hi).
Qed.

Lemma dotSparse_seq_sumR (v1 v2 : list (@num Exact)) (nnz : Z)
    (ind : list Z) :
  dotSparse_seq (N:=Exact) v1 v2 nnz ind
  = sumR 0 nnz (fun j => (rd v1 j * rd v2 (rd ind j))%R).
Proof. reflexivity. Qed.

(** The rows [[2]] and [[1 3]], the right-hand side [[5 9]]. *)
Lemma mju_cholSolveSparse_exact_witness :
  exists y : list (@num Exact),
    (forall c, 0 <= c < 2 ->
       sparse_col [2; 1; 3]%R [1; 2] [0; 1] [0; 0; 1] 2 y c
       = rd ([5; 9]%R : list (@num Exact)) c)
    /\ (forall i, 0 <= i < 2 ->
          sparse_row [2; 1; 3]%R [1; 2] [0; 1] [0; 0; 1]
            (mju_cholSolveSparse (N:=Exact) (dotSparse_seq (N:=Exact))
               [0; 0]%R [2; 1; 3]%R [5; 9]%R 2 [1; 2] [0; 1] [0; 0; 1]) i
          = rd y i).
Proof.
  apply (mju_cholSolveSparse_exact (dotSparse_seq (N:=Exact))).
  - exact dotSparse_seq_sumR.
  - lia.
  - simpl. lia.
  - intros i Hi. assert (i = 0 \/ i = 1) as [-> | ->] by lia.
    + split; [change (0 <= 0); lia|]. split; [change (1 <= 1); lia|].
      split; [reflexivity|]. intros q Hq. change (0 <= q < 1 - 1) in Hq. lia.
    + split; [change (0 <= 1); lia|]. split; [change (1 <= 2); lia|].
      split; [reflexivity|]. intros q Hq. change (0 <= q < 2 - 1) in Hq.
      assert (q = 0) as -> by lia. change (0 <= 0 < 1). lia.
  - intros i Hi. assert (i = 0 \/ i = 1) as [-> | ->] by lia.
    + change (2 <> 0)%R. lra.
    + change (3 <> 0)%R. lra.
Defined.

(* ================================================================= *)
(** ** [mju_QCQP] in exact arithmetic *)


Section QCQPnExact.
Local Open Scope R_scope.

Variables (Ain bin d : list numE) (n : Z).
Hypothesis Hn : (0 <= n <= 5)%Z.




Variables (A b : list numE) (r : R).
Hypothesis HlA : length A = 25%nat.





End QCQPnExact.

Section Unscale.
Local Open Scope R_scope.


End Unscale.



(* ================================================================= *)
(** ** [mju_factorLUSparse], then [mju_solveLUSparse] *)

(** The columns of row [i] lie below [n] and ascend strictly. *)
Definition row_ascending (rownnz rowadr colind : list Z) (n i : Z) : Prop :=
  (forall q, 0 <= q < rd rownnz i -> 0 <= rd colind (rd rowadr i + q) < n)
  /\ forall p q, 0 <= p < q -> q < rd rownnz i ->
       rd colind (rd rowadr i + p) < rd colind (rd rowadr i + q).

Lemma row_ascending_ok rownnz rowadr colind n i p :
  row_ascending rownnz rowadr colind n i ->
  0 <= p < rd rownnz i -> rd colind (rd rowadr i + p) = i ->
  LU_row_ok rownnz rowadr colind n i p.
Proof.
  intros [Hin Hasc] Hp Hd. split; [exact Hp|]. split; [exact Hd|]. split.
  - intros q Hq. specialize (Hin q ltac:(lia)).
    specialize (Hasc q p ltac:(lia) ltac:(lia)). lia.
  - intros q Hq. specialize (Hin q ltac:(lia)).
    specialize (Hasc p q ltac:(lia) ltac:(lia)). lia.
Qed.

(** X20. On a pattern whose rows hold columns below [n] in strictly
    ascending order: when [mju_factorLUSparse] returns, [mju_solveLUSparse]
    on the factors it left reports no error either (with [fuel] no less
    than the longest row); it returns, [res] of the same length and no
    cell written outside the first [n]. *)
Theorem factorLUSparse_solveLUSparse {N : Num}
    (LU : list num) (n : Z) (scratch rownnz rowadr colind : list Z)
    (LU' : list num) (remaining : list Z)
    (fuel : nat) (res vec : list num) :
  n <= Z.of_nat (length scratch) ->
  (forall i, 0 <= i < n -> row_ascending rownnz rowadr colind n i) ->
  (forall i, 0 <= i < n -> rd rownnz i <= Z.of_nat fuel) ->
  mju_factorLUSparse LU n scratch rownnz rowadr colind
  = Done (LU', remaining) ->
  exists res',
    mju_solveLUSparse fuel res LU' vec n rownnz rowadr colind
    = Some (Done res')
    /\ length res' = length res
    /\ forall c, ~ 0 <= c < n -> rd res' c = rd res c.
Proof.
  intros Hlen Hasc Hfuel Hrun.
  destruct (factorLUSparse_offsets LU n scratch rownnz rowadr colind
              LU' remaining Hlen Hrun) as (_ & _ & Hdiag).
  apply (solveLUSparse_runs fuel res LU' vec n rownnz rowadr colind
           (fun i => rd remaining i)); [|exact Hfuel].
  intros i Hi. destruct (Hdiag i Hi) as [Hp Hd].
  apply row_ascending_ok; [now apply Hasc | exact Hp | exact Hd].
Qed.

(** The matrix [[2 1; 1 3]], stored in full, in binary64. *)
Lemma factorLUSparse_solveLUSparse_witness :
  exists LU' remaining res',
    mju_factorLUSparse (N:=Float64) [2; 1; 1; 3]%float 2 [0; 0] [2; 2]
                       [0; 2] [0; 1; 0; 1]
    = Done (LU', remaining)
    /\ mju_solveLUSparse (N:=Float64) 2 [0; 0]%float LU' [3; 4]%float 2
         [2; 2] [0; 2] [0; 1; 0; 1]
       = Some (Done res')
    /\ length res' = 2%nat.
Proof.
  assert (mju_factorLUSparse (N:=Float64) [2; 1; 1; 3]%float 2 [0; 0] [2; 2]
                             [0; 2] [0; 1; 0; 1]
          = Done ([1.6666666666666667; 0.33333333333333331; 1; 3]%float,
                  [0; 1])) as Hrun
    by (vm_compute; reflexivity).
  assert (2 <= Z.of_nat (length [0; 0])) as Hlen by (simpl; lia).
  assert (forall i, 0 <= i < 2 ->
            row_ascending [2; 2] [0; 2] [0; 1; 0; 1] 2 i) as Hasc.
  { intros i Hi. assert (i = 0 \/ i = 1) as [-> | ->] by lia.
    - split.
      + intros q Hq. change (0 <= q < 2) in Hq.
        assert (q = 0 \/ q = 1) as [-> | ->] by lia;
          [change (0 <= 0 < 2) | change (0 <= 1 < 2)]; lia.
      + intros p q Hp Hq. change (q < 2) in Hq.
        assert (p = 0) as -> by lia. assert (q = 1) as -> by lia.
        change (0 < 1). lia.
    - split.
      + intros q Hq. change (0 <= q < 2) in Hq.
        assert (q = 0 \/ q = 1) as [-> | ->] by lia;
          [change (0 <= 0 < 2) | change (0 <= 1 < 2)]; lia.
      + intros p q Hp Hq. change (q < 2) in Hq.
        assert (p = 0) as -> by lia. assert (q = 1) as -> by lia.
        change (0 < 1). lia. }
  assert (forall i, 0 <= i < 2 -> rd [2; 2] i <= Z.of_nat 2) as Hfuel.
  { intros i Hi.
    assert (i = 0 \/ i = 1) as [-> | ->] by lia; change (2 <= 2); lia. }
  destruct (factorLUSparse_solveLUSparse (N:=Float64) _ _ _ _ _ _ _ _
              2%nat [0; 0]%float [3; 4]%float Hlen Hasc Hfuel Hrun)
    as (res' & Hsolve & Hl & _).
  eexists _, _, res'. split; [exact Hrun|]. split; [exact Hsolve | exact Hl].
Defined.

(* ================================================================= *)
(** ** [mju_cholUpdateSparse]: the value returned *)

Section SparseUpdateRank.
Context {N : Num}.
Variable mju_combineSparse :
  list num -> list num -> Z -> num -> num -> Z -> Z -> list Z -> list Z ->
  list num * list Z * Z.

(** A pass lowers the rank by one, when the new diagonal is below
    [mjMINVAL], or keeps it. *)
Lemma cholUpdateSparse_step_rank flg_plus n rownnz rowadr i s s' i' :
  cholUpdateSparse_step mju_combineSparse flg_plus n rownnz rowadr i s
  = Done (s', i') ->
  cs_rank s - 1 <= cs_rank s' <= cs_rank s.
Proof.
  unfold cholUpdateSparse_step, cholUpdateSparse_row. cbv zeta.
  destruct (nltb _ mjMINVAL);
    destruct (mju_combineSparse _ _ _ _ _ _ _ _ _) as [[dst dst_ind] nn];
    (destruct (negb _); [discriminate|]);
    destruct (mju_combineSparse _ _ _ _ _ _ _ _ _) as [[x1 x_ind1] nx];
    intros H; injection H as <- _; cbn [cs_rank]; lia.
Qed.

Lemma cholUpdateSparse_loop_rank fuel flg_plus n rownnz rowadr i s s' :
  cholUpdateSparse_loop mju_combineSparse fuel flg_plus n rownnz rowadr i s
  = Some (Done s') ->
  cs_rank s
  - Z.of_nat (length (cholUpdateSparse_rows mju_combineSparse fuel flg_plus
                        n rownnz rowadr i s))
  <= cs_rank s' <= cs_rank s.
Proof.
  revert i s. induction fuel as [|fuel IH]; intros i s H.
  - simpl in H |- *. destruct (i <? 0); [|discriminate].
    injection H as <-. simpl. lia.
  - simpl in H |- *. destruct (i <? 0).
    { injection H as <-. simpl. lia. }
    destruct (cholUpdateSparse_step _ _ _ _ _ _ _) as [[s1 i1]|msg [s1 i1]]
      eqn:E; [|discriminate].
    apply cholUpdateSparse_step_rank in E. specialize (IH _ _ H).
    cbn [length]. lia.
Qed.

End SparseUpdateRank.

(** X21. The rank [mju_cholUpdateSparse] returns is at most [n], and at
    least [n] minus the number of rows its backpass visited: it starts at
    [n] and each pass lowers it by one at most, whatever the row combine
    does. *)
Theorem mju_cholUpdateSparse_rank_range {N : Num}
    (mju_combineSparse :
       list num -> list num -> Z -> num -> num -> Z -> Z -> list Z -> list Z ->
       list num * list Z * Z)
    (fuel : nat) (mat x : list num) (n flg_plus : Z)
    (rownnz rowadr colind : list Z) (x_nnz : Z) (x_ind : list Z)
    (pstack : Z) (s : chol_state) :
  mju_cholUpdateSparse mju_combineSparse fuel mat x n flg_plus rownnz rowadr
                       colind x_nnz x_ind pstack = Some (Done s) ->
  n - Z.of_nat (length (cholUpdateSparse_rows mju_combineSparse fuel flg_plus
                          n rownnz rowadr (x_nnz - 1)
                          (enter_sparse mat x rownnz colind x_ind n pstack)))
  <= cs_rank s <= n.
Proof.
  unfold mju_cholUpdateSparse.
  destruct (cholUpdateSparse_loop _ _ _ _ _ _ _ _) as [[s1|msg s1]|] eqn:E;
    try discriminate.
  intros H. injection H as <-. cbn [free_stack cs_rank].
  apply cholUpdateSparse_loop_rank in E. cbn [enter_sparse cs_rank] in E.
  exact E.
Qed.

(** The factor [[2 0; 1 2]] and [x = [1 1]], in binary64: two rows are
    visited, no diagonal is below [mjMINVAL] and the rank is 2. *)
Lemma mju_cholUpdateSparse_rank_range_witness :
  exists s,
    mju_cholUpdateSparse (N:=Float64) Sparse.combineSparse 10
      [2; 1; 2]%float [1; 1]%float 2 1 [1; 2] [0; 1] [0; 0; 1] 2 [0; 1] 100
    = Some (Done s)
    /\ 2 - 2 <= cs_rank s <= 2.
Proof.
  destruct (mju_cholUpdateSparse (N:=Float64) Sparse.combineSparse 10
              [2; 1; 2]%float [1; 1]%float 2 1 [1; 2] [0; 1] [0; 0; 1] 2
              [0; 1] 100) as [[s|msg s]|] eqn:Hrun;
    [|vm_compute in Hrun; discriminate..].
  exists s. split; [reflexivity|].
  pose proof (mju_cholUpdateSparse_rank_range (N:=Float64) _ _ _ _ _ _ _ _ _
                _ _ _ _ Hrun) as H.
  assert (Z.of_nat
            (length (cholUpdateSparse_rows (N:=Float64) Sparse.combineSparse
                       10 1 2 [1; 2] [0; 1] (2 - 1)
                       (enter_sparse [2; 1; 2]%float [1; 1]%float [1; 2]
                          [0; 0; 1] [0; 1] 2 100))) = 2) as E
    by (vm_compute; reflexivity).
  rewrite E in H. exact H.
Defined.
